(** * vamos-hose: a shallow embedding of the HOSE generator, the sharded
    shift store, the forward lookup and the reverse estimator.

    JavaScript values are modelled as follows: integers as [Z], strings as
    [String.string] (all strings involved are ASCII, so one character is one
    UTF-16 code unit), JS objects used as maps as association lists in
    insertion order, mutable tree nodes as an arena ([list node]) indexed by
    [nat] with parent pointers given as arena indices.  Non-integer JS
    numbers (shifts, errors, scores) are modelled as exact rationals [Q];
    IEEE rounding is not modelled, division by zero is (see [num]). *)

From Stdlib Require Import ZArith List String Ascii Bool Lia.
From Stdlib Require Import QArith Qround Qabs Lqa.
From Stdlib Require Import Sorting.Sorted Sorting.Permutation.
Import ListNotations.

Open Scope Z_scope.

(* ------------------------------------------------------------------ *)
(** ** JavaScript helpers *)

(** [Array.prototype.sort] with a comparator, as implemented by
    JavaScriptCore (the engine of the bun test runner): a stable bottom-up
    merge sort.  Each pass merges adjacent runs of width [w]; the element of
    the right run is taken only when [comparator(right, left) < 0].  The
    argument [neg x y] stands for [comparator(x, y) < 0]. *)
Section JsSort.
Context {A : Type} (neg : A -> A -> bool).

Fixpoint merge (l r : list A) : list A :=
  match l with
  | [] => r
  | x :: l' =>
      (fix merge_r (r : list A) : list A :=
         match r with
         | [] => l
         | y :: r' => if neg y x then y :: merge_r r' else x :: merge l' r
         end) r
  end.

Fixpoint merge_pairs (runs : list (list A)) : list (list A) :=
  match runs with
  | r1 :: r2 :: rest => merge r1 r2 :: merge_pairs rest
  | _ => runs
  end.

(** [for (width = 1; width < n; width *= 2)]: a pass runs while more
    than one run is left. *)
Fixpoint merge_passes (fuel : nat) (runs : list (list A)) : list (list A) :=
  match fuel with
  | O => runs
  | S f =>
      match runs with
      | _ :: _ :: _ => merge_passes f (merge_pairs runs)
      | _ => runs
      end
  end.

Definition js_sort (l : list A) : list A :=
  List.concat (merge_passes (List.length l) (map (fun x => [x]) l)).
End JsSort.

(** Ranges [a, a+1, ..., b-1] of JS loop counters. *)
Definition zrange (a b : Z) : list Z :=
  map (fun k => a + Z.of_nat k) (seq 0 (Z.to_nat (b - a))).

Fixpoint update_nth {A} (n : nat) (f : A -> A) (l : list A) : list A :=
  match l, n with
  | [], _ => []
  | x :: l', O => f x :: l'
  | x :: l', S n' => x :: update_nth n' f l'
  end.

Fixpoint lookup_str {A} (k : string) (l : list (string * A)) : option A :=
  match l with
  | [] => None
  | (k', v) :: l' => if String.eqb k k' then Some v else lookup_str k l'
  end.

(** A JS [Set] of integers, in insertion order. *)
Definition set_has (x : Z) (s : list Z) : bool := existsb (Z.eqb x) s.
Definition set_add (x : Z) (s : list Z) : list Z :=
  if set_has x s then s else s ++ [x].

(** [String(n)] for an integer [n]. *)
Definition digit_char (d : Z) : ascii := ascii_of_nat (48 + Z.to_nat d).

Fixpoint digits_of (fuel : nat) (n : Z) (acc : string) : string :=
  match fuel with
  | O => acc
  | S f =>
      let acc' := String (digit_char (n mod 10)) acc in
      if n <? 10 then acc' else digits_of f (n / 10) acc'
  end.

Definition js_String (n : Z) : string :=
  if n <? 0
  then String "-" (digits_of (S (Z.to_nat (Z.log2 (- n)))) (- n) EmptyString)
  else digits_of (S (Z.to_nat (Z.log2 n))) n EmptyString.

(** [parseInt] of a string of decimal digits. *)
Fixpoint parse_digits_acc (s : string) (acc : Z) : Z :=
  match s with
  | EmptyString => acc
  | String c s' => parse_digits_acc s' (acc * 10 + (Z.of_nat (nat_of_ascii c) - 48))
  end.
Definition parseInt (s : string) : Z := parse_digits_acc s 0.

(** JS [a > b] on strings: lexicographic on code units. *)
Definition js_str_gt (a b : string) : bool :=
  match String.compare a b with Gt => true | _ => false end.

(* ------------------------------------------------------------------ *)
(** ** Molecule adapter (openchemlib, external)

    A molecule as the graph library presents it: atoms with label,
    implicit-hydrogen count and charge; bonds with order and aromatic flag;
    for each atom its connected heavy atoms with the connecting bond, in
    the library's neighbour order. *)

Record atom := mkAtom { a_label : string; a_implicitH : Z; a_charge : Z }.
Record bond := mkBond { b_order : Z; b_aromatic : bool }.
Record molecule := mkMol {
  m_atoms : list atom;
  m_bonds : list bond;
  m_conn : list (list (Z * Z))   (* (neighbour atom, bond index) *)
}.

Definition atom_at (m : molecule) (i : Z) : atom :=
  nth (Z.to_nat i) (m_atoms m) (mkAtom "" 0 0).
Definition bond_at (m : molecule) (b : Z) : bond :=
  nth (Z.to_nat b) (m_bonds m) (mkBond 0 false).
Definition conn_of (m : molecule) (i : Z) : list (Z * Z) :=
  nth (Z.to_nat i) (m_conn m) [].

Definition getAllAtoms (m : molecule) : Z := Z.of_nat (List.length (m_atoms m)).
Definition getAtomLabel (m : molecule) (i : Z) : string := a_label (atom_at m i).
Definition getImplicitHydrogens (m : molecule) (i : Z) : Z := a_implicitH (atom_at m i).
Definition getAtomCharge (m : molecule) (i : Z) : Z := a_charge (atom_at m i).
Definition getConnAtoms (m : molecule) (i : Z) : Z := Z.of_nat (List.length (conn_of m i)).
Definition getConnAtom (m : molecule) (i k : Z) : Z :=
  fst (nth (Z.to_nat k) (conn_of m i) (-1, -1)).
Definition getConnBond (m : molecule) (i k : Z) : Z :=
  snd (nth (Z.to_nat k) (conn_of m i) (-1, -1)).
Definition isAromaticBond (m : molecule) (b : Z) : bool := b_aromatic (bond_at m b).
Definition getBondOrder (m : molecule) (b : Z) : Z := b_order (bond_at m b).

(** Neighbour lists built from a bond list in bond order, as the library
    builds its connection tables. *)
Definition conn_from (n : nat) (bl : list (Z * Z * bond)) : list (list (Z * Z)) :=
  map (fun i =>
         flat_map (fun '(k, (a, b, _)) =>
                     if a =? i then [(b, k)] else if b =? i then [(a, k)] else [])
                  (combine (zrange 0 (Z.of_nat (List.length bl))) bl))
      (zrange 0 (Z.of_nat n)).

Definition mol_of (al : list atom) (bl : list (Z * Z * bond)) : molecule :=
  mkMol al (map (fun '(_, _, b) => b) bl) (conn_from (List.length al) bl).

(* ------------------------------------------------------------------ *)
(** ** Canonical labeler ([computeCanonicalLabels], CDK CanonicalLabeler) *)

Module Canon.

(** [PRIMES]: the first 200 primes, by the trial-division loop of the
    source. *)
Fixpoint trial (ps : list Z) (c : Z) : bool :=
  match ps with
  | [] => true
  | q :: ps' => if q * q <=? c then (if c mod q =? 0 then false else trial ps' c) else true
  end.

Fixpoint primes_loop (fuel : nat) (p : list Z) (c : Z) : list Z :=
  match fuel with
  | O => p
  | S f =>
      if 200 <=? Z.of_nat (List.length p) then p
      else primes_loop f (if trial p c then p ++ [c] else p) (c + 1)
  end.

Definition PRIMES : list Z := Eval vm_compute in primes_loop 1300 [] 2.

(** [PRIMES[k] || 2] *)
Definition prime_at (k : Z) : Z :=
  if (0 <=? k) && (k <? 200) then nth (Z.to_nat k) PRIMES 2 else 2.

Definition ATOMIC_NUM : list (string * Z) :=
  [("H", 1); ("He", 2); ("Li", 3); ("Be", 4); ("B", 5); ("C", 6); ("N", 7);
   ("O", 8); ("F", 9); ("Na", 11); ("Mg", 12); ("Al", 13); ("Si", 14);
   ("P", 15); ("S", 16); ("Cl", 17); ("K", 19); ("Ca", 20); ("Fe", 26);
   ("Co", 27); ("Ni", 28); ("Cu", 29); ("Zn", 30); ("As", 33); ("Se", 34);
   ("Br", 35); ("I", 53); ("Ge", 32); ("Sn", 50); ("Sb", 51); ("Te", 52)]%string.

Record pair := mkPair { idx : Z; curr : Z; last : Z; prime : Z }.

(** Step 1: [parseInt(`${totalConn}${conn}${atomNum}${signCharge}${absCharge}${implH}`)] *)
Definition initial_pair (m : molecule) (i : Z) : pair :=
  let conn := getConnAtoms m i in
  let implH := getImplicitHydrogens m i in
  let totalConn := conn + implH in
  let atomNum := match lookup_str (getAtomLabel m i) ATOMIC_NUM with Some v => v | None => 0 end in
  let charge := getAtomCharge m i in
  let signCharge := if charge <? 0 then 1 else 0 in
  let absCharge := Z.abs charge in
  let inv := parseInt (js_String totalConn ++ js_String conn ++ js_String atomNum
                       ++ js_String signCharge ++ js_String absCharge ++ js_String implH)%string in
  mkPair i inv 0 2.

(** The group ranks of [canonSortAndRank]. *)
Fixpoint ranks (prev : option pair) (num : Z) (l : list pair) : list Z :=
  match l with
  | [] => []
  | p :: l' =>
      let num' := match prev with
                  | Some q => if negb (curr p =? curr q) || negb (last p =? last q) then num + 1 else num
                  | None => num
                  end in
      num' :: ranks (Some p) num' l'
  end.

Definition canonSortAndRank (pairs : list pair) : list pair :=
  let s1 := js_sort (fun a b => curr a - curr b <? 0) pairs in
  let s2 := js_sort (fun a b => last a - last b <? 0) s1 in
  map (fun '(p, t) => mkPair (idx p) t (last p) (prime_at (t - 1)))
      (combine s2 (ranks None 1 s2)).

(** [idxMap[ni].prime]: [idxMap] shares its objects with [pairs]. *)
Definition prime_of (pairs : list pair) (i : Z) : Z :=
  match find (fun p => idx p =? i) pairs with Some p => prime p | None => 2 end.

(** Step 3: [p.last = p.curr; p.curr = Π idxMap[ni].prime]; the primes are
    not written in this loop. *)
Definition refine_products (m : molecule) (pairs : list pair) : list pair :=
  map (fun p =>
         let product := fold_left (fun acc j => acc * prime_of pairs (getConnAtom m (idx p) j))
                                  (zrange 0 (getConnAtoms m (idx p))) 1 in
         mkPair (idx p) product (curr p) (prime p))
      pairs.

Definition last_pair (pairs : list pair) : pair := List.last pairs (mkPair 0 0 0 0).

Definition canonIsInvPart (pairs : list pair) : bool :=
  (curr (last_pair pairs) =? Z.of_nat (List.length pairs))
  || forallb (fun p => curr p =? last p) pairs.

(** [canonBreakTies]: the loop doubles every [curr] and records
    [tie = i - 1] at the first [i > 0] whose doubled [curr] equals the
    (already doubled) [curr] at [i - 1]; then [pairs[tie]] is decremented. *)
Fixpoint double_loop (i : Z) (prev : option pair) (tie : Z) (found : bool)
         (l : list pair) : list pair * Z :=
  match l with
  | [] => ([], tie)
  | p :: l' =>
      let c := curr p * 2 in
      let p' := mkPair (idx p) c (last p) (prime_at (c - 1)) in
      let '(tie', found') :=
        match prev with
        | Some q => if (0 <? i) && negb found && (c =? curr q) then (i - 1, true) else (tie, found)
        | None => (tie, found)
        end in
      let '(rest, t) := double_loop (i + 1) (Some p') tie' found' l' in
      (p' :: rest, t)
  end.

Definition canonBreakTies (pairs : list pair) : list pair :=
  let '(doubled, tie) := double_loop 0 None (-1) false pairs in
  if 0 <=? tie
  then update_nth (Z.to_nat tie)
         (fun p => mkPair (idx p) (curr p - 1) (last p) (prime_at (curr p - 1 - 1))) doubled
  else doubled.

(** The refinement loop [for (iter = 0; iter < 100; iter++)]; the second
    component counts the rounds executed. *)
Fixpoint canon_loop (fuel : nat) (m : molecule) (pairs : list pair) : list pair * nat :=
  match fuel with
  | O => (pairs, O)
  | S f =>
      let pairs1 := canonSortAndRank (refine_products m pairs) in
      if canonIsInvPart pairs1 then
        if curr (last_pair pairs1) <? Z.of_nat (List.length pairs1) then
          let '(r, k) := canon_loop f m (canonBreakTies pairs1) in (r, S k)
        else (pairs1, 1%nat)
      else let '(r, k) := canon_loop f m pairs1 in (r, S k)
  end.

Definition computeCanonicalLabels (m : molecule) : list Z :=
  let n := getAllAtoms m in
  if n =? 0 then [] else
  let pairs0 := canonSortAndRank (map (initial_pair m) (zrange 0 n)) in
  let pairs := fst (canon_loop 100 m pairs0) in
  map (fun i => match find (fun p => idx p =? i) pairs with Some p => curr p | None => 0 end)
      (zrange 0 n).

End Canon.

(* ------------------------------------------------------------------ *)
(** ** HOSE generator ([generateHoseCode], CDK ExtendedHOSECodeGenerator) *)

Module Hose.
Import Canon.
Local Open Scope string_scope.
Local Open Scope Z_scope.

Definition BREMSER : list (string * string) := [("Si", "Q"); ("Cl", "X"); ("Br", "Y")].

Definition ELEMENT_RANK : list (string * Z) :=
  [("C", 9000); ("O", 8900); ("N", 8800); ("S", 8700); ("P", 8600);
   ("Si", 8500); ("B", 8400); ("F", 8300); ("Cl", 8200); ("Br", 8100);
   ("I", 7900)].

Definition RING_RANK : Z := 1100.

Definition BOND_RANKINGS : list Z := [0; 0; 200000; 300000; 100000].
Definition BOND_SYMBOLS : list string := ["<"; ""; "="; "%"; "*"].
Definition SPHERE_DELIMITERS : list string := ["("; "/"; "/"; ")"; "/"; "/"; "/"; "/"; "/"; "/"].

(** A tree node; [source] is the arena index of the parent node ([null]
    for sphere 0).  The write-only field [sortOrder] is omitted. *)
Record node := mkNode {
  atomIdx : Z; element : string; bondType : Z; source : option nat;
  sourceAtomIdx : Z; degree : Z; score : Z; ranking : Z;
  stringscore : string; stopper : bool; isRingClosure : bool }.

Definition makeNode (a : Z) (el : string) (bt : Z) (src : option nat) (sa : Z) (deg : Z) : node :=
  mkNode a el bt src sa deg 0 0 "" false false.

Definition set_score (v : Z) (n : node) : node :=
  mkNode (atomIdx n) (element n) (bondType n) (source n) (sourceAtomIdx n) (degree n)
         v (ranking n) (stringscore n) (stopper n) (isRingClosure n).
Definition set_ranking (v : Z) (n : node) : node :=
  mkNode (atomIdx n) (element n) (bondType n) (source n) (sourceAtomIdx n) (degree n)
         (score n) v (stringscore n) (stopper n) (isRingClosure n).
Definition set_stringscore (v : string) (n : node) : node :=
  mkNode (atomIdx n) (element n) (bondType n) (source n) (sourceAtomIdx n) (degree n)
         (score n) (ranking n) v (stopper n) (isRingClosure n).
Definition set_stopper (n : node) : node :=
  mkNode (atomIdx n) (element n) (bondType n) (source n) (sourceAtomIdx n) (degree n)
         (score n) (ranking n) (stringscore n) true (isRingClosure n).
Definition set_ring (n : node) : node :=
  mkNode (atomIdx n) (element n) (bondType n) (source n) (sourceAtomIdx n) (degree n)
         (score n) (ranking n) (stringscore n) (stopper n) true.

Definition arena := list node.
Definition dummy : node := makeNode (-1) "" 0 None (-1) 0.
Definition get (ar : arena) (i : nat) : node := nth i ar dummy.

(** [node.source ? node.source.atomIdx : -1] and [node.source && node.source.stopper] *)
Definition source_atom (ar : arena) (n : node) : Z :=
  match source n with Some p => atomIdx (get ar p) | None => -1 end.
Definition source_stopper (ar : arena) (n : node) : bool :=
  match source n with Some p => stopper (get ar p) | None => false end.

Definition getTotalBondCount (m : molecule) (a : Z) : Z :=
  if a <? 0 then 1 else getConnAtoms m a + getImplicitHydrogens m a.

Definition atomicMass (el : string) : Z :=
  let masses :=
    [("H", 1); ("He", 4); ("Li", 7); ("Be", 9); ("B", 11); ("C", 12); ("N", 14);
     ("O", 16); ("F", 19); ("Ne", 20); ("Na", 23); ("Mg", 24); ("Al", 27);
     ("Si", 28); ("P", 31); ("S", 32); ("Cl", 35); ("Ar", 40); ("K", 39);
     ("Ca", 40); ("Fe", 56); ("Co", 59); ("Ni", 59); ("Cu", 64); ("Zn", 65);
     ("As", 75); ("Se", 79); ("Br", 80); ("Kr", 84); ("Ag", 108); ("Sn", 119);
     ("Sb", 122); ("Te", 128); ("I", 127); ("Xe", 131); ("Pt", 195);
     ("Au", 197); ("Hg", 201); ("Tl", 204); ("Pb", 207); ("Bi", 209); ("Ge", 73)] in
  match lookup_str el masses with Some v => v | None => 100 end.

Definition getElementRank (el : string) : Z :=
  if String.eqb el "H" then 799999
  else if String.eqb el "," then 1000
  else if String.eqb el "&" then RING_RANK
  else match lookup_str el ELEMENT_RANK with
       | Some r => r
       | None => 800000 - atomicMass el
       end.

Definition getBondSymbol (bt : Z) : string :=
  if (bt <? 0) || (4 <? bt) then "" else nth (Z.to_nat bt) BOND_SYMBOLS "".

Fixpoint pad_loop (fuel : nat) (s : string) : string :=
  match fuel with
  | O => s
  | S f => if (String.length s <? 6)%nat then pad_loop f ("0" ++ s) else s
  end.
Definition padScore (score : Z) : string := pad_loop 6 (js_String score).

Definition bremserElement (el : string) : string :=
  match lookup_str el BREMSER with Some q => q | None => el end.

(** CDK createChargeCode *)
Definition chargeCode (m : molecule) (a : Z) : string :=
  if a <? 0 then "" else
  let charge := getAtomCharge m a in
  if charge =? 0 then ""
  else if Z.abs charge =? 1 then (if charge <? 0 then "-" else "+")
  else "'" ++ (if 0 <? charge then "+" else "") ++ js_String charge ++ "'".

(** [sortByCanonicalLabel]: [Array.prototype.sort] with the source's
    comparator (which answers 0 whenever an [H] or [,] node is involved). *)
Definition canon_cmp_neg (labels : list Z) (a b : node) : bool :=
  if (atomIdx a <? 0) && (atomIdx b <? 0) then false
  else if (atomIdx a <? 0) || String.eqb (element a) "," then false
  else if (atomIdx b <? 0) || String.eqb (element b) "," then false
  else nth (Z.to_nat (atomIdx a)) labels 0 <? nth (Z.to_nat (atomIdx b)) labels 0.

Definition sortByCanonicalLabel (ar : arena) (ids : list nat) (labels : list Z) : list nat :=
  js_sort (fun i j => canon_cmp_neg labels (get ar i) (get ar j)) ids.

(** [sortNodesByStringscore]: the source's bubble sort, descending by
    [stringscore], [while (changed)]; a pass swaps [i] and [i+1] when
    [sphere[i+1].stringscore > sphere[i].stringscore].  [S (length l)]
    passes suffice for the loop to see a pass without a swap. *)
Section Bubble.
Variable gt : nat -> nat -> bool.

Fixpoint bubble_pass (cur : nat) (rest : list nat) : list nat * bool :=
  match rest with
  | [] => ([cur], false)
  | y :: rest' =>
      if gt y cur
      then let '(r, _) := bubble_pass cur rest' in (y :: r, true)
      else let '(r, c) := bubble_pass y rest' in (cur :: r, c)
  end.

Definition bubble_once (l : list nat) : list nat * bool :=
  match l with [] => ([], false) | x :: r => bubble_pass x r end.

Fixpoint bubble_loop (fuel : nat) (l : list nat) : list nat :=
  match fuel with
  | O => l
  | S f => let '(l', changed) := bubble_once l in if changed then bubble_loop f l' else l'
  end.
End Bubble.

Definition sortNodesByStringscore (ar : arena) (sphere : list nat) : list nat :=
  bubble_loop (fun i j => js_str_gt (stringscore (get ar i)) (stringscore (get ar j)))
              (S (List.length sphere)) sphere.

(** Appending a node to the arena. *)
Definition push (ar : arena) (n : node) : arena * nat := ((ar ++ [n])%list, List.length ar).

Definition bond_type (m : molecule) (b : Z) : Z :=
  if isAromaticBond m b then 4 else getBondOrder m b.

Definition H_nodes (ar : arena) (k : Z) (src : option nat) (sa : Z) (acc : list nat)
  : arena * list nat :=
  fold_left (fun '(ar, acc) _ => let '(ar', id) := push ar (makeNode (-1) "H" 1 src sa 1) in
                                 (ar', (acc ++ [id])%list))
            (zrange 0 k) (ar, acc).

(** PASS 1: [buildBfsTree] *)
Definition build_sphere0 (m : molecule) (c : Z) (ar : arena) : arena * list nat :=
  let '(ar1, s0) :=
    fold_left (fun '(ar, acc) i =>
                 let nb := getConnAtom m c i in
                 let bt := bond_type m (getConnBond m c i) in
                 let '(ar', id) := push ar (makeNode nb (getAtomLabel m nb) bt None c
                                                      (getTotalBondCount m nb)) in
                 (ar', (acc ++ [id])%list))
              (zrange 0 (getConnAtoms m c)) (ar, []) in
  H_nodes ar1 (getImplicitHydrogens m c) None c s0.

Definition expand_node (m : molecule) (st : arena * list nat) (id : nat) : arena * list nat :=
  let '(ar, acc) := st in
  let nd := get ar id in
  if String.eqb (element nd) "," || String.eqb (element nd) "&" || String.eqb (element nd) "#"
  then st
  else if String.eqb (element nd) "H" then st
  else
  let a := atomIdx nd in
  if a <? 0 then st else
  let connCount := getConnAtoms m a in
  let parentAtomIdx := sourceAtomIdx nd in
  let implH := getImplicitHydrogens m a in
  if (connCount =? 1) && (implH =? 0) then
    let '(ar', cid) := push ar (makeNode (-1) "," (-1) (Some id) a 0) in (ar', (acc ++ [cid])%list)
  else
    let '(ar1, acc1) :=
      fold_left (fun '(ar, acc) i =>
                   let nb := getConnAtom m a i in
                   if nb =? parentAtomIdx then (ar, acc) else
                   let bt := bond_type m (getConnBond m a i) in
                   let '(ar', cid) := push ar (makeNode nb (getAtomLabel m nb) bt (Some id) a
                                                         (getTotalBondCount m nb)) in
                   (ar', (acc ++ [cid])%list))
                (zrange 0 connCount) (ar, acc) in
    H_nodes ar1 implH (Some id) a acc1.

Definition buildBfsTree (m : molecule) (c : Z) (maxSpheres : Z) (labels : list Z)
  : arena * list (list nat) :=
  let '(ar0, s0) := build_sphere0 m c [] in
  let s0' := sortByCanonicalLabel ar0 s0 labels in
  fold_left (fun '(ar, spheres) s =>
               let prev := nth (Z.to_nat s) spheres [] in
               let '(ar', next) := fold_left (expand_node m) prev (ar, []) in
               (ar', (spheres ++ [sortByCanonicalLabel ar' next labels])%list))
            (zrange 0 (maxSpheres - 1)) (ar0, [s0']).

(** PASS 2, step 2: [calculateNodeScores].  Returns the arena and the
    visited set; the sphere's real-atom indices are added after the whole
    sphere has been scored. *)
Definition score_node (visited : list Z) (st : arena * list Z) (id : nat) : arena * list Z :=
  let '(ar, toMark) := st in
  let nd := get ar id in
  let ar1 :=
    if (0 <=? atomIdx nd) && set_has (atomIdx nd) visited
    then update_nth id (fun n => set_ring (set_score (score n + RING_RANK) n)) ar
    else update_nth id (fun n => set_score (score n + getElementRank (element n)) n) ar in
  let bt := bondType nd in
  let ar2 :=
    if (0 <=? bt) && (bt <=? 4)
    then update_nth id (fun n => set_score (score n + nth (Z.to_nat bt) BOND_RANKINGS 0) n) ar1
    else if bt =? -1
    then update_nth id (fun n => set_score (score n + 50000) n) ar1
    else ar1 in
  (ar2, if 0 <=? atomIdx nd then (toMark ++ [atomIdx nd])%list else toMark).

Definition calculateNodeScores (ar : arena) (sphere : list nat) (visited : list Z)
  : arena * list Z :=
  let '(ar', toMark) := fold_left (score_node visited) sphere (ar, []) in
  (ar', fold_left (fun v x => set_add x v) toMark visited).

Definition set_sphere (f : Z) (sp : list nat) (spheres : list (list nat)) : list (list nat) :=
  update_nth (Z.to_nat f) (fun _ => sp) spheres.
Definition sphere_at (spheres : list (list nat)) (f : Z) : list nat := nth (Z.to_nat f) spheres [].

(** Steps 4 and 6: [stringscore = source.stringscore + padScore(score)], then sort. *)
Definition build_stringscores (maxSpheres : Z) (st : arena * list (list nat))
  : arena * list (list nat) :=
  fold_left (fun '(ar, spheres) f =>
               let sp := sphere_at spheres f in
               let ar' := fold_left (fun ar id =>
                            let nd := get ar id in
                            let pre := match source nd with
                                       | Some p => stringscore (get ar p) | None => "" end in
                            update_nth id (set_stringscore (pre ++ padScore (score nd))) ar)
                          sp ar in
               (ar', set_sphere f (sortNodesByStringscore ar' sp) spheres))
            (zrange 0 maxSpheres) st.

Definition createCode_scores (maxSpheres centerIdx : Z) (ar : arena) (spheres : list (list nat))
  : arena * list (list nat) :=
  (* Step 1: degree accumulation, outermost sphere first *)
  let ar1 :=
    fold_left (fun ar f =>
                 fold_left (fun ar id =>
                              let nd := get ar id in
                              match source nd with
                              | Some p => update_nth p (fun n => set_ranking (ranking n + degree nd) n) ar
                              | None => ar
                              end)
                           (sphere_at spheres (maxSpheres - 1 - f)) ar)
              (zrange 0 (maxSpheres - 1)) ar in
  (* Step 2: scores with batch-wise visited tracking, then sort *)
  let '(ar2, spheres2, _) :=
    fold_left (fun '(ar, spheres, visited) f =>
                 let sp := sphere_at spheres f in
                 let '(ar', visited') := calculateNodeScores ar sp visited in
                 (ar', set_sphere f (sortNodesByStringscore ar' sp) spheres, visited'))
              (zrange 0 maxSpheres) (ar1, spheres, [centerIdx]) in
  (* Step 3: ranking merged into score, then sort *)
  let '(ar3, spheres3) :=
    fold_left (fun '(ar, spheres) f =>
                 let sp := sphere_at spheres f in
                 let ar' := fold_left (fun ar id =>
                              update_nth id (fun n => set_score (score n + ranking n) n) ar) sp ar in
                 (ar', set_sphere f (sortNodesByStringscore ar' sp) spheres))
              (zrange 0 maxSpheres) (ar2, spheres2) in
  (* Step 4 *)
  let '(ar4, spheres4) := build_stringscores maxSpheres (ar3, spheres3) in
  (* Step 5: backward propagation, the parent takes its child's stringscore *)
  let '(ar5, spheres5) :=
    fold_left (fun '(ar, spheres) k =>
                 let f := maxSpheres - 1 - k in
                 let sp := sphere_at spheres f in
                 let psp := sphere_at spheres (f - 1) in
                 let ar' := fold_left (fun ar id =>
                              fold_left (fun ar pid =>
                                           if match source (get ar id) with
                                              | Some p => Nat.eqb p pid | None => false end
                                           then update_nth pid (set_stringscore (stringscore (get ar id))) ar
                                           else ar) psp ar) sp ar in
                 (ar', set_sphere (f - 1) (sortNodesByStringscore ar' psp) spheres))
              (zrange 0 (maxSpheres - 1)) (ar4, spheres4) in
  (* Step 6 *)
  build_stringscores maxSpheres (ar5, spheres5).

(** Step 7: [generateCodeString].  One node of a sphere; [in_sphere0]
    selects the sphere-0 branch of the source (no comma, no stopper test). *)
Definition emit_token (m : molecule) (ar : arena) (visited : list Z) (id : nat)
  : arena * string :=
  let nd := get ar id in
  let bondSym := getBondSymbol (bondType nd) in
  if (0 <=? atomIdx nd) && set_has (atomIdx nd) visited
  then (update_nth id set_stopper ar, bondSym ++ "&" ++ chargeCode m (atomIdx nd))
  else if 0 <=? atomIdx nd
  then (ar, bondSym ++ bremserElement (element nd) ++ chargeCode m (atomIdx nd))
  else if String.eqb (element nd) "H" then (ar, bondSym ++ "H")
  else (ar, "").

Definition after_node (ar : arena) (visited : list Z) (id : nat) : arena * list Z :=
  let nd := get ar id in
  let visited' := if 0 <=? atomIdx nd then set_add (atomIdx nd) visited else visited in
  let ar' := if source_stopper ar nd then update_nth id set_stopper ar else ar in
  (ar', visited').

Definition emit_sphere0 (m : molecule) (st : arena * list Z * string) (id : nat)
  : arena * list Z * string :=
  let '(ar, visited, code) := st in
  let '(ar1, tok) := emit_token m ar visited id in
  let '(ar2, visited2) := after_node ar1 visited id in
  (ar2, visited2, code ++ tok).

Definition emit_outer (m : molecule) (st : arena * list Z * string * Z) (id : nat)
  : arena * list Z * string * Z :=
  let '(ar, visited, code, currentBranch) := st in
  let nd := get ar id in
  let sourceAtom := source_atom ar nd in
  let has_src := match source nd with Some _ => true | None => false end in
  let '(code1, branch1) :=
    if has_src && negb (source_stopper ar nd) && negb (sourceAtom =? currentBranch)
    then (code ++ ",", sourceAtom) else (code, currentBranch) in
  let '(ar1, tok) :=
    if has_src && negb (source_stopper ar nd) then emit_token m ar visited id else (ar, "") in
  let '(ar2, visited2) := after_node ar1 visited id in
  (ar2, visited2, code1 ++ tok, branch1).

Definition delimiter (f : Z) : string :=
  if (0 <=? f) && (f <? 10) then nth (Z.to_nat f) SPHERE_DELIMITERS "" else "undefined".

Definition generateCodeString (m : molecule) (ar : arena) (spheres : list (list nat))
           (maxSpheres centerIdx : Z) : string :=
  let '(ar0, visited0, code0) := fold_left (emit_sphere0 m) (sphere_at spheres 0) (ar, [centerIdx], "") in
  let '(_, _, code1) :=
    fold_left (fun '(ar, visited, code) f =>
                 let sp := sphere_at spheres (f + 1) in
                 let code' := code ++ (if f <? 10 then delimiter f else "/") in
                 match sp with
                 | [] => (ar, visited, code')
                 | first :: _ =>
                     let cb := source_atom ar (get ar first) in
                     let '(ar', visited', code'', _) := fold_left (emit_outer m) sp (ar, visited, code', cb) in
                     (ar', visited', code'')
                 end)
              (zrange 0 (maxSpheres - 1)) (ar0, visited0, code0) in
  fold_left (fun code f => code ++ delimiter f) (zrange (maxSpheres - 1) (Z.min maxSpheres 10)) code1.

Definition createCode (m : molecule) (ar : arena) (spheres : list (list nat)) (maxSpheres centerIdx : Z)
  : string :=
  let '(ar', spheres') := createCode_scores maxSpheres centerIdx ar spheres in
  generateCodeString m ar' spheres' maxSpheres centerIdx.

Definition generateHoseCode (m : molecule) (atomIndex : Z) (maxSpheres : Z) : string :=
  let canonLabels := computeCanonicalLabels m in
  let '(ar, spheres) := buildBfsTree m atomIndex maxSpheres canonLabels in
  createCode m ar spheres maxSpheres atomIndex.

End Hose.

(** Molecules as the SMILES parser returns them (atoms in SMILES order,
    bonds in the order the SMILES writes them, implicit hydrogens filled). *)
Definition C (h : Z) : atom := mkAtom "C" h 0.
Definition O (h : Z) : atom := mkAtom "O" h 0.
Definition single : bond := mkBond 1 false.
Definition double : bond := mkBond 2 false.
Definition arom : bond := mkBond 1 true.

(** "CCC" *)
Definition propane : molecule := mol_of [C 3; C 2; C 3] [(0, 1, single); (1, 2, single)].
(** "CC(=O)C" *)
Definition acetone : molecule :=
  mol_of [C 3; C 0; O 0; C 3] [(0, 1, single); (1, 2, double); (1, 3, single)].
(** "c1ccc2ccccc2c1" *)
Definition naphthalene : molecule :=
  mol_of [C 1; C 1; C 1; C 0; C 1; C 1; C 1; C 1; C 0; C 1]
         [(0, 1, arom); (1, 2, arom); (2, 3, arom); (3, 4, arom); (4, 5, arom);
          (5, 6, arom); (6, 7, arom); (7, 8, arom); (3, 8, arom); (8, 9, arom);
          (0, 9, arom)].

(** Topological equivalence: a permutation [sigma] of the atom indices
    that preserves every atom's label, implicit-hydrogen count and charge
    and maps the bonds onto bonds of the same order and aromaticity. *)
Definition same_atom (x y : atom) : bool :=
  String.eqb (a_label x) (a_label y) && (a_implicitH x =? a_implicitH y) && (a_charge x =? a_charge y).
Definition same_bond (x y : bond) : bool :=
  (b_order x =? b_order y) && Bool.eqb (b_aromatic x) (b_aromatic y).

Definition bonds_of (m : molecule) : list (Z * Z * bond) :=
  flat_map (fun i => map (fun '(j, b) => (i, j, bond_at m b)) (conn_of m i))
           (zrange 0 (getAllAtoms m)).

Definition is_automorphism (m : molecule) (sigma : list Z) : bool :=
  let n := getAllAtoms m in
  let img i := nth (Z.to_nat i) sigma (-1) in
  (Z.of_nat (List.length sigma) =? n)
  && forallb (fun i => existsb (fun k => img k =? i) (zrange 0 n)) (zrange 0 n)
  && forallb (fun i => (0 <=? img i) && (img i <? n) && same_atom (atom_at m i) (atom_at m (img i)))
             (zrange 0 n)
  && forallb (fun '(i, j, b) =>
                existsb (fun '(i', j', b') => (i' =? img i) && (j' =? img j) && same_bond b b')
                        (bonds_of m))
             (bonds_of m).

Definition equivalent_atoms (m : molecule) (i j : Z) : Prop :=
  exists sigma, is_automorphism m sigma = true /\ nth (Z.to_nat i) sigma (-1) = j.

(* ------------------------------------------------------------------ *)
(** ** Chunk hash: loader ([src/database.js]) and sharder
    ([cleaning-scripts/shard_database.mjs]).  A JS string is its sequence
    of UTF-16 code units ([str.charCodeAt(i)]). *)

Definition NUM_CHUNKS : Z := 256.

(** [x | 0] *)
Definition ToInt32 (x : Z) : Z :=
  let r := x mod 2 ^ 32 in if r <? 2 ^ 31 then r else r - 2 ^ 32.

Module Database.
Definition hashCode (str : list Z) : Z :=
  Z.abs (fold_left (fun h c => ToInt32 (ToInt32 (h * 2 ^ 5) - h + c)) str 0).
Definition chunkIndex (hoseCode : list Z) : Z := Z.rem (hashCode hoseCode) NUM_CHUNKS.
End Database.

Module Shard.
Definition hashCode (str : list Z) : Z :=
  Z.abs (fold_left (fun h c => ToInt32 (ToInt32 (h * 2 ^ 5) - h + c)) str 0).
End Shard.

Definition key_eqb (a b : list Z) : bool := if list_eq_dec Z.eq_dec a b then true else false.

Section Store.
Variable V : Type.

Fixpoint obj_get (k : list Z) (o : list (list Z * V)) : option V :=
  match o with
  | [] => None
  | (k', v) :: o' => if key_eqb k k' then Some v else obj_get k o'
  end.

(** [o[k] = v] on a plain object: overwrite in place, else append. *)
Fixpoint obj_set (k : list Z) (v : V) (o : list (list Z * V)) : list (list Z * V) :=
  match o with
  | [] => [(k, v)]
  | (k', v') :: o' => if key_eqb k k' then (k', v) :: o' else (k', v') :: obj_set k v o'
  end.

(** The sharding script: [buckets[hashCode(k) % NUM_CHUNKS][k] = db[k]]
    for every key of the monolithic database, in [Object.keys] order. *)
Definition shard (db : list (list Z * V)) : list (list (list Z * V)) :=
  fold_left (fun buckets '(k, v) =>
               update_nth (Z.to_nat (Z.rem (Shard.hashCode k) NUM_CHUNKS)) (obj_set k v) buckets)
            db (repeat [] (Z.to_nat NUM_CHUNKS)).

(** The loader's probe: [chunk = loadChunk(chunkIndex(k)); chunk[k]]. *)
Definition queryChunk (chunks : list (list (list Z * V))) (k : list Z) : option V :=
  obj_get k (nth (Z.to_nat (Database.chunkIndex k)) chunks []).
End Store.

Arguments obj_get {V}. Arguments obj_set {V}. Arguments shard {V}. Arguments queryChunk {V}.

(** The spec's formulation: [h := ((h << 5) - h + c) mod 2^32] read as a
    two's-complement 32-bit value, [idx := |h| mod 256]. *)
Definition spec_step (h c : Z) : Z :=
  let x := (Z.shiftl h 5 - h + c) mod 2 ^ 32 in
  if 2 ^ 31 <=? x then x - 2 ^ 32 else x.
Definition spec_chunk (k : list Z) : Z := Z.abs (fold_left spec_step k 0) mod 256.

(* ------------------------------------------------------------------ *)
(** ** Shift entries and [computeWeightedAvg] *)

Open Scope Q_scope.

Record stats := mkStats { smin : Q; smax : Q; avg : Q; cnt : Q }.

(** An entry value: the strings under ["n"] and ["s"], solvent submaps
    [{min, max, avg, cnt}] under the other keys. *)
Inductive jsval := JStr (s : string) | JStats (st : stats).
Definition entry := list (string * jsval).   (* [Object.entries(entry)] *)

Definition val_avg (v : jsval) : Q := match v with JStats st => avg st | JStr _ => 0 end.
Definition val_cnt (v : jsval) : Q := match v with JStats st => cnt st | JStr _ => 0 end.

Definition is_meta (k : string) : bool := String.eqb k "n" || String.eqb k "s".

(** [Math.round]: nearest integer, halves rounded up. *)
Definition Math_round (x : Q) : Z := Qfloor (x + (1 # 2))%Q.

Definition computeWeightedAvg (e : entry) : Q :=
  let '(totalWeight, weightedSum) :=
    fold_left (fun '(tw, ws) '(key, val) =>
                 if is_meta key then (tw, ws)
                 else (tw + val_cnt val, ws + val_avg val * val_cnt val))
              e (0, 0) in
  if Qeq_bool totalWeight 0 then 0
  else inject_Z (Math_round ((weightedSum / totalWeight) * 10)) / 10.

Definition extractSolvents (e : entry) : list (string * jsval) :=
  filter (fun '(key, _) => negb (is_meta key)) e.

(** The spec's identity: sums over the solvent submaps. *)
Definition sum_cnt (e : entry) : Q :=
  fold_right (fun '(_, v) acc => val_cnt v + acc) 0 (extractSolvents e).
Definition sum_avg_cnt (e : entry) : Q :=
  fold_right (fun '(_, v) acc => val_avg v * val_cnt v + acc) 0 (extractSolvents e).
Definition round10 (x : Q) : Q := inject_Z (Math_round (10 * x)) / 10.

Open Scope Z_scope.

Definition field_str (k : string) (e : entry) : string :=
  match lookup_str k e with Some (JStr s) => s | _ => "" end.

(* ------------------------------------------------------------------ *)
(** ** Forward lookup ([lookupNmrShifts], src/lookup.js) *)

Record hit := mkHit { avgShift : Q; hsmiles : string; hnucleus : string }.
Record hoseEntry := mkHoseEntry { eatom : string; eindex : Z; ehose : string }.
Record lookupResult := mkResult { shift : Q; ratom : string; rhose : string; rsmiles : string }.

(** [str.lastIndexOf(c)]: -1 when absent. *)
Fixpoint last_index_from (c : ascii) (s : string) (i acc : Z) : Z :=
  match s with
  | EmptyString => acc
  | String d s' => last_index_from c s' (i + 1) (if Ascii.eqb c d then i else acc)
  end.
Definition lastIndexOf (c : ascii) (s : string) : Z := last_index_from c s 0 (-1).

(** [/^H+/] and [replace(/^H+/, '')] *)
Definition starts_with_H (s : string) : bool :=
  match s with String c _ => Ascii.eqb c "H"%char | EmptyString => false end.
Fixpoint strip_H (s : string) : string :=
  match s with
  | String c s' => if Ascii.eqb c "H"%char then strip_H s' else s
  | EmptyString => s
  end.

(** [smilesToHoseCodes] on the parsed molecule, for a target element. *)
Definition smilesToHoseCodes (m : molecule) (targetElement : string) : list hoseEntry :=
  flat_map (fun i => let atomLabel := getAtomLabel m i in
                     if String.eqb atomLabel targetElement
                     then [mkHoseEntry atomLabel i (Hose.generateHoseCode m i 4)] else [])
           (zrange 0 (getAllAtoms m)).

Section Lookup.
(** The sharded store's [queryHose]: [null] or the hit. *)
Variable queryHose : string -> option hit.

(** The truncation loop: [for (attempt = 0; attempt < 8 && !hit; attempt++)].
    Returns the queried keys and, on a hit, the key and the hit. *)
Fixpoint trunc_loop (attempt : nat) (truncated : string)
  : list string * option (string * hit) :=
  match attempt with
  | Datatypes.O => ([], None)
  | S a =>
      let lastDelimIdx := Z.max (lastIndexOf "/" truncated)
                            (Z.max (lastIndexOf ")" truncated) (lastIndexOf "(" truncated)) in
      if lastDelimIdx <=? 0 then ([], None) else
      let beforeDelim := substring 0 (Z.to_nat lastDelimIdx) truncated in
      let delim := match get (Z.to_nat lastDelimIdx) truncated with
                   | Some d => String d EmptyString | None => EmptyString end in
      let t1 := (beforeDelim ++ delim)%string in
      match queryHose t1 with
      | Some h => ([t1], Some (t1, h))
      | None =>
          match queryHose beforeDelim with
          | Some h => ([t1; beforeDelim], Some (beforeDelim, h))
          | None => let '(tr, r) := trunc_loop a beforeDelim in (t1 :: beforeDelim :: tr, r)
          end
      end
  end.

(** One atom: exact match, truncation fallback, leading-H strip.
    [hoseToUse] changes only on a hit. *)
Definition resolve (hose : string) : list string * option (string * hit) :=
  let '(trace1, found1) :=
    match queryHose hose with
    | Some h => ([hose], Some (hose, h))
    | None => let '(tr, r) := trunc_loop 8 hose in (hose :: tr, r)
    end in
  let hoseToUse := match found1 with Some (k, _) => k | None => hose end in
  match found1 with
  | Some _ => (trace1, found1)
  | None =>
      if starts_with_H hoseToUse then
        let withoutH := strip_H hoseToUse in
        match queryHose withoutH with
        | Some h => (trace1 ++ [withoutH], Some (withoutH, h))
        | None => (trace1 ++ [withoutH], None)
        end
      else (trace1, None)
  end.

Definition lookup_codes (hoseCodes : list hoseEntry) : list lookupResult :=
  flat_map (fun e => match snd (resolve (ehose e)) with
                     | Some (k, h) => [mkResult (avgShift h) (eatom e) k (hsmiles h)]
                     | None => []
                     end) hoseCodes.

Definition lookupNmrShifts (m : molecule) (targetElement : string) : list lookupResult :=
  lookup_codes (smilesToHoseCodes m targetElement).

(** The spec's fallback sequence: the keys in the order they are tried. *)
Definition is_delim (c : ascii) : bool :=
  Ascii.eqb c "/"%char || Ascii.eqb c "("%char || Ascii.eqb c ")"%char.

Fixpoint last_delim_from (s : string) (i acc : Z) : Z :=
  match s with
  | EmptyString => acc
  | String d s' => last_delim_from s' (i + 1) (if is_delim d then i else acc)
  end.

Fixpoint spec_truncations (n : nat) (t : string) : list string :=
  match n with
  | Datatypes.O => []
  | S n' =>
      let p := last_delim_from t 0 (-1) in
      if p <=? 0 then []
      else substring 0 (Z.to_nat p + 1) t :: substring 0 (Z.to_nat p) t
           :: spec_truncations n' (substring 0 (Z.to_nat p) t)
  end.

Definition candidate_keys (hose : string) : list string :=
  hose :: spec_truncations 8 hose ++ (if starts_with_H hose then [strip_H hose] else []).

Fixpoint first_hit (keys : list string) : option (string * hit) :=
  match keys with
  | [] => None
  | k :: ks => match queryHose k with Some h => Some (k, h) | None => first_hit ks end
  end.

Fixpoint probe_trace (keys : list string) : list string :=
  match keys with
  | [] => []
  | k :: ks => match queryHose k with Some _ => [k] | None => k :: probe_trace ks end
  end.
End Lookup.

(* ------------------------------------------------------------------ *)
(** ** Reverse estimator ([src/estimate.js]) *)

(** A JS number as far as the score needs it: finite, NaN or an infinity. *)
Inductive num := Fin (q : Q) | NaN | PosInf | NegInf.

Definition Qlt_bool (x y : Q) : bool := negb (Qle_bool y x).

(** [x / y] for finite operands ([y] a non-negative zero when it is 0). *)
Definition js_div (x y : Q) : num :=
  if Qeq_bool y 0 then
    (if Qeq_bool x 0 then NaN else if Qlt_bool 0 x then PosInf else NegInf)
  else Fin (x / y).

(** [a - y] with [a] finite. *)
Definition num_sub_from (a : Q) (y : num) : num :=
  match y with Fin q => Fin (a - q) | NaN => NaN | PosInf => NegInf | NegInf => PosInf end.

(** [y * a] with [a] finite. *)
Definition num_mul (y : num) (a : Q) : num :=
  match y with
  | Fin q => Fin (q * a)
  | NaN => NaN
  | PosInf => if Qlt_bool 0 a then PosInf else if Qlt_bool a 0 then NegInf else NaN
  | NegInf => if Qlt_bool 0 a then NegInf else if Qlt_bool a 0 then PosInf else NaN
  end.

(** [a * y] with [a] finite. *)
Definition num_lmul (a : Q) (y : num) : num :=
  match y with
  | Fin q => Fin (a * q)
  | _ => num_mul y a
  end.

(** [y / a] with [a] a positive constant. *)
Definition num_div_pos (y : num) (a : Q) : num :=
  match y with Fin q => Fin (q / a) | _ => y end.

Definition num_round (y : num) : num :=
  match y with Fin q => Fin (inject_Z (Math_round q)) | _ => y end.

(** [x - y] *)
Definition num_minus (x y : num) : num :=
  match x, y with
  | Fin a, Fin b => Fin (a - b)
  | NaN, _ | _, NaN => NaN
  | PosInf, PosInf | NegInf, NegInf => NaN
  | PosInf, _ | _, NegInf => PosInf
  | NegInf, _ | _, PosInf => NegInf
  end.

Definition truthy (y : num) : bool :=
  match y with Fin q => negb (Qeq_bool q 0) | NaN => false | _ => true end.

(** [comparator(a, b) < 0] *)
Definition num_neg (y : num) : bool :=
  match y with Fin q => Qlt_bool q 0 | NegInf => true | _ => false end.

Record candidate := mkCand { csmiles : string; chose : string; matchedPeaks : Z; score : num }.

Record acc := mkAcc { hoses : list string; matchedSet : list Z; totalError : Q }.

Definition empty_acc : acc := mkAcc [] [] 0.

(** A [Map] keyed by SMILES: insertion order, [set] on a present key
    replaces the value in place. *)
Fixpoint map_get (k : string) (m : list (string * acc)) : option acc :=
  match m with
  | [] => None
  | (k', v) :: m' => if String.eqb k k' then Some v else map_get k m'
  end.

Fixpoint map_set (k : string) (v : acc) (m : list (string * acc)) : list (string * acc) :=
  match m with
  | [] => [(k, v)]
  | (k', v') :: m' => if String.eqb k k' then (k', v) :: m' else (k', v') :: map_set k v m'
  end.

Open Scope Q_scope.

(** The inner loop body for peak [i] of one database entry. *)
Definition peak_step (hoseCode smiles : string) (shift : Q) (peaks : list Q) (tolerance : Q)
    (bySmiles : list (string * acc)) (i : Z) : list (string * acc) :=
  let err := Qabs (shift - nth (Z.to_nat i) peaks 0) in
  if Qle_bool err tolerance then
    let bySmiles1 := match map_get smiles bySmiles with
                     | Some _ => bySmiles
                     | None => map_set smiles empty_acc bySmiles
                     end in
    let a := match map_get smiles bySmiles1 with Some a => a | None => empty_acc end in
    if set_has i (matchedSet a) then bySmiles1
    else map_set smiles (mkAcc (hoses a ++ [hoseCode])%list (set_add i (matchedSet a))
                                (totalError a + err)) bySmiles1
  else bySmiles.

Definition accumulate (db : list (string * entry)) (peaks : list Q) (tolerance : Q)
    (targetNucleus : string) : list (string * acc) :=
  fold_left (fun bySmiles '(hoseCode, e) =>
               if negb (String.eqb (field_str "n" e) targetNucleus) then bySmiles
               else
                 let shift := computeWeightedAvg e in
                 fold_left (peak_step hoseCode (field_str "s" e) shift peaks tolerance)
                           (zrange 0 (Z.of_nat (List.length peaks))) bySmiles)
            db [].

(** [Math.round((matched / peaks.length) * (1 - avgError / tolerance) * 1000) / 1000]
    ([matched] and [peaks.length] are positive here: an accumulator is
    created together with its first matched peak, and [peaks] is non-empty). *)
Definition candidate_score (matched : Z) (totalError : Q) (npeaks : Z) (tolerance : Q) : num :=
  let avgError := totalError / inject_Z matched in
  num_div_pos (num_round (num_mul (num_lmul (inject_Z matched / inject_Z npeaks)
                                            (num_sub_from 1 (js_div avgError tolerance)))
                                  1000))
              1000.

Definition scoreDatabase (db : list (string * entry)) (peaks : list Q) (tolerance : Q)
    (minMatches : Z) (targetNucleus : string) : list candidate :=
  flat_map (fun '(smiles, a) =>
              let matched := Z.of_nat (List.length (matchedSet a)) in
              if (matched <? minMatches)%Z then []
              else [mkCand smiles (hd EmptyString (hoses a)) matched
                           (candidate_score matched (totalError a)
                              (Z.of_nat (List.length peaks)) tolerance)])
           (accumulate db peaks tolerance targetNucleus).

(** [(a, b) => b.score - a.score || b.matchedPeaks - a.matchedPeaks], as [< 0]. *)
Definition cand_neg (a b : candidate) : bool :=
  let d := num_minus (score b) (score a) in
  num_neg (if truthy d then d else Fin (inject_Z (matchedPeaks b - matchedPeaks a))).

(** [arr.slice(0, end)] *)
Definition js_slice0 {A} (l : list A) (end_ : Z) : list A :=
  let len := Z.of_nat (List.length l) in
  let final := if (end_ <? 0)%Z then Z.max (len + end_) 0 else Z.min end_ len in
  firstn (Z.to_nat final) l.

Record options := mkOptions { nucleus : string; peaks : list Q; tolerance : Q;
                              minMatches : Z; maxResults : Z }.

(* ------------------------------------------------------------------ *)
(** ** Nucleus names ([nucleusToElement], src/smiles-to-hose.js, and
    [nucleusToShort], src/estimate.js, which has the same body) *)

Definition is_digit (c : ascii) : bool :=
  let n := nat_of_ascii c in (48 <=? n)%nat && (n <=? 57)%nat.
Definition is_upper (c : ascii) : bool :=
  let n := nat_of_ascii c in (65 <=? n)%nat && (n <=? 90)%nat.
Definition is_lower (c : ascii) : bool :=
  let n := nat_of_ascii c in (97 <=? n)%nat && (n <=? 122)%nat.

Fixpoint skip_digits (s : string) : string :=
  match s with
  | String c s' => if is_digit c then skip_digits s' else s
  | EmptyString => EmptyString
  end.

(** [nucleus.match(/(\d+)([A-Z][a-z]?)/)], group 2 of the leftmost match.
    A match attempt at a digit takes the whole digit run (greedy [\d+];
    backtracking to a shorter run leaves a digit where [[A-Z]] is needed),
    so the attempt succeeds iff the run is followed by an upper-case
    letter; otherwise the search moves on by one position. *)
Fixpoint element_match (s : string) : option string :=
  match s with
  | EmptyString => None
  | String c s' =>
      if is_digit c then
        match skip_digits s' with
        | String u r =>
            if is_upper u then
              Some (String u (match r with
                              | String l _ => if is_lower l then String l EmptyString else EmptyString
                              | EmptyString => EmptyString
                              end))
            else element_match s'
        | EmptyString => element_match s'
        end
      else element_match s'
  end.

(** [replace(/[0-9]/g, '')] *)
Fixpoint strip_digits (s : string) : string :=
  match s with
  | String c s' => if is_digit c then strip_digits s' else String c (strip_digits s')
  | EmptyString => EmptyString
  end.

Definition nucleusToElement (nucleus : string) : string :=
  match element_match nucleus with
  | Some e => e
  | None => strip_digits nucleus
  end.

(** [nucleusToShort] (src/estimate.js): group 2 of
    [nucleus.match(/(\d+)([A-Z][a-z]?)/)], else [nucleus.replace(/[0-9]/g, '')]. *)
Definition nucleusToShort (nucleus : string) : string :=
  match element_match nucleus with
  | Some e => e
  | None => strip_digits nucleus
  end.

(** [estimateFromSpectra]: the result and the chunk indices loaded
    ([loadDatabase] loads all [NUM_CHUNKS] chunks into the merged [db]). *)
Definition estimateFromSpectra (db : list (string * entry)) (o : options)
    : list candidate * list Z :=
  match peaks o with
  | [] => ([], [])
  | _ =>
      let targetNucleus := nucleusToShort (nucleus o) in
      let loaded := zrange 0 NUM_CHUNKS in
      let candidates := scoreDatabase db (peaks o) (tolerance o) (minMatches o) targetNucleus in
      (js_slice0 (js_sort cand_neg candidates) (maxResults o), loaded)
  end.

(** The spec's score and order. *)
Definition round1000 (x : Q) : Q := inject_Z (Math_round (1000 * x)) / 1000.

Definition spec_score (matched : Z) (E : Q) (npeaks : Z) (tau : Q) : Q :=
  round1000 ((inject_Z matched / inject_Z npeaks) * (1 - (E / inject_Z matched) / tau)).

Definition ranked_before (a b : candidate) : Prop :=
  match score a, score b with
  | Fin x, Fin y => y < x \/ (x == y /\ (matchedPeaks b <= matchedPeaks a)%Z)
  | _, _ => False
  end.

Open Scope Z_scope.

(* ------------------------------------------------------------------ *)
(** ** Reference formulations of the scoring and tie-break steps *)

(** Bond ranks by bond type: single 0, double 200000, triple 300000,
    aromatic 100000, the ring-closure/terminator type -1 50000. *)
Definition bond_rank (bt : Z) : Z :=
  if bt =? 2 then 200000 else if bt =? 3 then 300000
  else if bt =? 4 then 100000 else if bt =? -1 then 50000 else 0.

(** The node a scored node becomes, against the visited set of the
    sphere's start. *)
Definition scored_node (visited : list Z) (n : Hose.node) : Hose.node :=
  if (0 <=? Hose.atomIdx n) && set_has (Hose.atomIdx n) visited
  then Hose.set_ring (Hose.set_score (Hose.score n + 1100 + bond_rank (Hose.bondType n)) n)
  else Hose.set_score (Hose.score n + Hose.getElementRank (Hose.element n)
                       + bond_rank (Hose.bondType n)) n.

Definition double_pair (p : Canon.pair) : Canon.pair :=
  Canon.mkPair (Canon.idx p) (Canon.curr p * 2) (Canon.last p)
               (Canon.prime_at (Canon.curr p * 2 - 1)).
Definition decrement_pair (p : Canon.pair) : Canon.pair :=
  Canon.mkPair (Canon.idx p) (Canon.curr p - 1) (Canon.last p)
               (Canon.prime_at (Canon.curr p - 1 - 1)).

(** Position of the first pair whose [curr] equals its predecessor's. *)
Fixpoint first_dup_from (i : nat) (prev : Z) (l : list Canon.pair) : option nat :=
  match l with
  | [] => None
  | p :: l' => if Canon.curr p =? prev then Some i else first_dup_from (S i) (Canon.curr p) l'
  end.
Definition first_tie (l : list Canon.pair) : option nat :=
  match l with [] => None | p :: l' => first_dup_from 1 (Canon.curr p) l' end.

(** Tie-break as stated: the tied atom itself is decremented. *)
Definition break_ties_at_tied (pairs : list Canon.pair) : list Canon.pair :=
  let d := map double_pair pairs in
  match first_tie d with Some i => update_nth i decrement_pair d | None => d end.

(** Tie-break decrementing the predecessor of the tied atom. *)
Definition break_ties_at_pred (pairs : list Canon.pair) : list Canon.pair :=
  let d := map double_pair pairs in
  match first_tie d with Some i => update_nth (i - 1) decrement_pair d | None => d end.

(** What every per-SMILES accumulator of the estimator satisfies: distinct
    peak indices within range, at least one of them, and a total error
    between 0 and [tolerance] per counted peak. *)
Definition acc_ok (npeaks : Z) (tolerance : Q) (a : acc) : Prop :=
  NoDup (matchedSet a) /\
  Forall (fun i => 0 <= i < npeaks) (matchedSet a) /\
  matchedSet a <> [] /\
  (0 <= totalError a <= inject_Z (Z.of_nat (List.length (matchedSet a))) * tolerance)%Q.

(* ------------------------------------------------------------------ *)
(** ** Store API over the chunk files (src/database.js)

    [files] are the chunk modules as the sharding script writes them
    ([chunk_i.js] exports bucket [i]); the chunk cache is a [Map] from
    index to chunk, in insertion order.  The monolithic module's
    [queryHose(db, hoseCode)] reads the unsharded object. *)

Record fullHit := mkFullHit {
  f_avgShift : Q; f_smiles : string; f_nucleus : string; f_solvents : list (string * jsval) }.

Definition chunk := list (list Z * entry).
Definition cache := list (Z * chunk).

Definition hit_of (e : entry) : fullHit :=
  mkFullHit (computeWeightedAvg e) (field_str "s" e) (field_str "n" e) (extractSolvents e).

(** The monolithic [queryHose(db, hoseCode)]. *)
Definition queryHose_db (db : chunk) (hoseCode : list Z) : option fullHit :=
  match obj_get hoseCode db with Some e => Some (hit_of e) | None => None end.

Fixpoint cache_get (i : Z) (c : cache) : option chunk :=
  match c with
  | [] => None
  | (j, d) :: c' => if Z.eqb i j then Some d else cache_get i c'
  end.

(** [loadChunk(idx)]: the cached chunk, or the default export of
    [chunk_idx.js], which is then cached. *)
Definition loadChunk (files : list chunk) (idx : Z) (c : cache) : chunk * cache :=
  match cache_get idx c with
  | Some d => (d, c)
  | None => let d := nth (Z.to_nat idx) files [] in (d, (c ++ [(idx, d)])%list)
  end.

(** The sharded [queryHose(hoseCode)]. *)
Definition queryHose_sharded (files : list chunk) (hoseCode : list Z) (c : cache)
  : option fullHit * cache :=
  let idx := Database.chunkIndex hoseCode in
  let '(ch, c') := loadChunk files idx c in
  (match obj_get hoseCode ch with Some e => Some (hit_of e) | None => None end, c').

(** [preloadChunks(hoseCodes)]: the distinct indices [new Set(...)], each
    loaded.  The loads run concurrently on distinct indices; they are
    taken here in the order of the set. *)
Definition preloadChunks (files : list chunk) (hoseCodes : list (list Z)) (c : cache) : cache :=
  let indices := fold_left (fun s h => set_add (Database.chunkIndex h) s) hoseCodes [] in
  fold_left (fun c i => snd (loadChunk files i c)) indices c.

(** [Object.assign(target, source)] *)
Definition object_assign (target source : chunk) : chunk :=
  fold_left (fun t '(k, v) => obj_set k v t) source target.

(** [loadDatabase()]: all [NUM_CHUNKS] chunks, merged in index order. *)
Definition loadDatabase (files : list chunk) (c : cache) : chunk * cache :=
  let '(chunks, c') :=
    fold_left (fun '(acc, c) i => let '(d, c1) := loadChunk files i c in ((acc ++ [d])%list, c1))
              (zrange 0 NUM_CHUNKS) ([], c) in
  (fold_left object_assign chunks [], c').

(** A cache holds only chunks as the files define them. *)
Definition cache_ok (files : list chunk) (c : cache) : Prop :=
  forall i d, cache_get i c = Some d -> d = nth (Z.to_nat i) files [].

(* ------------------------------------------------------------------ *)
(** ** The exact-match lookup (src/lookup.js, the CommonJS module) *)

Definition lookup_codes_exact (queryHose : string -> option hit) (hoseCodes : list hoseEntry)
  : list lookupResult :=
  flat_map (fun e => match queryHose (ehose e) with
                     | Some h => [mkResult (avgShift h) (eatom e) (ehose e) (hsmiles h)]
                     | None => []
                     end) hoseCodes.

(** Order-preserving sub-lists. *)
Inductive sublist {A : Type} : list A -> list A -> Prop :=
| sublist_nil : sublist [] []
| sublist_skip : forall x l l', sublist l l' -> sublist l (x :: l')
| sublist_keep : forall x l l', sublist l l' -> sublist (x :: l) (x :: l').

(* ------------------------------------------------------------------ *)
(** ** Spectrum plot helpers (src/plot.js) *)

Open Scope Q_scope.

(** [a + y] with [a] finite. *)
Definition num_add_from (a : Q) (y : num) : num :=
  match y with Fin q => Fin (a + q) | _ => y end.

(** [x + y] *)
Definition num_add (x y : num) : num :=
  match x, y with
  | Fin a, Fin b => Fin (a + b)
  | NaN, _ | _, NaN => NaN
  | PosInf, NegInf | NegInf, PosInf => NaN
  | PosInf, _ | _, PosInf => PosInf
  | NegInf, _ | _, NegInf => NegInf
  end.

(** [ppmToX(ppm, ppmMin, ppmMax, plotW, marginLeft)] *)
Definition ppmToX (ppm ppmMin ppmMax plotW marginLeft : Q) : num :=
  num_add_from marginLeft (num_mul (js_div (ppmMax - ppm) (ppmMax - ppmMin)) plotW).

(** [g2 / (diff * diff + g2)] with [diff = ppm - s]; [g2 = gamma * gamma]
    is a non-negative number, and an infinite [diff] gives [g2 / Infinity = 0]. *)
Definition lorentz (g2 : Q) (ppm : num) (s : Q) : num :=
  match ppm with
  | Fin p => js_div g2 ((p - s) * (p - s) + g2)
  | NaN => NaN
  | PosInf | NegInf => Fin 0
  end.

(** [buildIntensityCurve(shifts, numPoints, ppmMin, ppmMax, gamma)], with
    [shifts] the list of the [shift] fields and [numPoints] a valid array
    length. *)
Definition buildIntensityCurve (shifts : list Q) (numPoints : nat) (ppmMin ppmMax gamma : Q)
  : list num :=
  let g2 := gamma * gamma in
  map (fun i =>
         let ppm := num_sub_from ppmMax
                      (num_mul (js_div (inject_Z (Z.of_nat i)) (inject_Z (Z.of_nat numPoints - 1)))
                               (ppmMax - ppmMin)) in
         fold_left (fun acc s => num_add acc (lorentz g2 ppm s)) shifts (Fin 0))
      (seq 0 numPoints).

Open Scope Z_scope.

(* ------------------------------------------------------------------ *)
(** ** Reference formulations for the further properties *)

(** The [k]-digit zero-padded decimal numeral of [n]. *)
Fixpoint dstr (k : nat) (n : Z) : string :=
  match k with
  | Datatypes.O => EmptyString
  | S k' => (dstr k' (n / 10) ++ String (digit_char (n mod 10)) EmptyString)%string
  end.

(** Where an estimator accumulator's HOSE codes come from: database
    entries of the target nucleus and of the accumulator's SMILES whose
    average shift lies within the tolerance of an observed peak. *)
Definition acc_src (db : list (string * entry)) (P : list Q) (tol : Q) (t s : string)
    (a : acc) : Prop :=
  List.length (hoses a) = List.length (matchedSet a) /\
  Forall (fun h => exists e, In (h, e) db /\ field_str "n" e = t /\ field_str "s" e = s /\
            exists i, 0 <= i < Z.of_nat (List.length P) /\
                      (Qabs (computeWeightedAvg e - nth (Z.to_nat i) P 0) <= tol)%Q)
         (hoses a).

(** The estimator's invariant over the per-SMILES map: keys are unique
    and every accumulator satisfies [acc_src]. *)
Definition src_inv (db : list (string * entry)) (P : list Q) (tol : Q) (t : string)
    (m : list (string * acc)) : Prop :=
  NoDup (map fst m) /\ forall s a, In (s, a) m -> acc_src db P tol t s a.

(** The invariant of the refinement loop of [computeCanonicalLabels]:
    the pairs carry each atom index [0..n-1] exactly once and every
    rank [curr] is at least 1. *)
Definition labels_inv (n : Z) (pairs : list Canon.pair) : Prop :=
  Permutation (map Canon.idx pairs) (zrange 0 n) /\ Forall (fun p => 1 <= Canon.curr p) pairs.

(* ================================================================== *)
(** * Properties *)

(** ** Reference codes *)

(** C1: the generator reproduces the reference strings for propane
    (atoms 0, 1, 2) and acetone (atoms 0, 1) with [maxSpheres = 4]. *)
Theorem hose_reference_codes :
  Hose.generateHoseCode propane 0 4 = "HHHC(HHC/HHH/)"%string /\
  Hose.generateHoseCode propane 1 4 = "HHCC(HHH,HHH//)"%string /\
  Hose.generateHoseCode propane 2 4 = "HHHC(HHC/HHH/)"%string /\
  Hose.generateHoseCode acetone 0 4 = "HHHC(=OC/,HHH/)"%string /\
  Hose.generateHoseCode acetone 1 4 = "=OCC(,HHH,HHH//)"%string.
Proof. repeat split; vm_compute; reflexivity. Qed.

(** C2: symmetry-equivalent atoms do not always get the same code.  In
    naphthalene the reflection [sigma] is an automorphism mapping atom 2
    to atom 4, yet the two codes differ (they differ in the fourth sphere:
    ["H,*C,H*&"] against ["H,H,*C,*&"]). *)
Theorem hose_symmetry_fails_naphthalene :
  is_automorphism naphthalene [6; 5; 4; 3; 2; 1; 0; 9; 8; 7] = true /\
  nth 2 [6; 5; 4; 3; 2; 1; 0; 9; 8; 7] (-1) = 4 /\
  equivalent_atoms naphthalene 2 4 /\
  Hose.generateHoseCode naphthalene 2 4
    = "H*C*C(*C*C,H*C/*C*C,H*C,H*&/H,H*C,*&,H*&)"%string /\
  Hose.generateHoseCode naphthalene 4 4
    = "H*C*C(*C*C,H*C/*C*C,H*C,H*&/H,H,*C,*&,H*&)"%string /\
  Hose.generateHoseCode naphthalene 2 4 <> Hose.generateHoseCode naphthalene 4 4.
Proof.
  split; [vm_compute; reflexivity|].
  split; [reflexivity|].
  split; [exists [6; 5; 4; 3; 2; 1; 0; 9; 8; 7]; split; vm_compute; reflexivity|].
  split; [vm_compute; reflexivity|].
  split; [vm_compute; reflexivity|].
  vm_compute. discriminate.
Qed.

(** ** Canonical labeler: tie-breaking *)

Lemma double_loop_fst : forall l i prev tie found,
  fst (Canon.double_loop i prev tie found l) = map double_pair l.
Proof.
  induction l as [|p l IH]; intros i prev tie found; simpl; [reflexivity|].
  destruct prev as [q|];
  [destruct ((0 <? i) && negb found && (Canon.curr p * 2 =? Canon.curr q))|];
  match goal with |- context [Canon.double_loop ?i' ?pr ?t ?f l] =>
    specialize (IH i' pr t f); destruct (Canon.double_loop i' pr t f l) end;
  simpl in *; subst; reflexivity.
Qed.

Lemma double_loop_found : forall l i prev tie,
  snd (Canon.double_loop i prev tie true l) = tie.
Proof.
  induction l as [|p l IH]; intros i prev tie; simpl; [reflexivity|].
  destruct prev as [q|]; [rewrite andb_false_r; simpl|];
  specialize (IH (i + 1) (Some (double_pair p)) tie);
  unfold double_pair in IH; destruct (Canon.double_loop _ _ _ _ l); exact IH.
Qed.

Lemma double_loop_snd : forall l (k : nat) q tie,
  (1 <= k)%nat ->
  snd (Canon.double_loop (Z.of_nat k) (Some q) tie false l)
  = match first_dup_from k (Canon.curr q) (map double_pair l) with
    | Some j => Z.of_nat j - 1
    | None => tie
    end.
Proof.
  induction l as [|p l IH]; intros k q tie Hk; simpl; [reflexivity|].
  replace (0 <? Z.of_nat k) with true by (symmetry; apply Z.ltb_lt; lia).
  simpl. destruct (Canon.curr p * 2 =? Canon.curr q) eqn:E.
  - pose proof (double_loop_found l (Z.of_nat k + 1)
                  (Some (double_pair p)) (Z.of_nat k - 1)) as H.
    unfold double_pair in H. destruct (Canon.double_loop _ _ _ _ l). exact H.
  - specialize (IH (S k) (double_pair p) tie ltac:(lia)).
    rewrite Nat2Z.inj_succ, <- Z.add_1_r in IH. unfold double_pair in IH |- *.
    destruct (Canon.double_loop _ _ _ _ l). simpl in *. exact IH.
Qed.

Lemma first_dup_from_ge : forall l n z j,
  first_dup_from n z l = Some j -> (n <= j)%nat.
Proof.
  induction l as [|x xs IH]; intros n z j H; simpl in H; [discriminate|].
  destruct (Canon.curr x =? z); [injection H; lia|].
  apply IH in H. lia.
Qed.

Lemma canonBreakTies_pred : forall pairs,
  Canon.canonBreakTies pairs = break_ties_at_pred pairs.
Proof.
  intros [|p l]; [reflexivity|].
  unfold Canon.canonBreakTies, break_ties_at_pred.
  pose proof (double_loop_fst (p :: l) 0 None (-1) false) as Hf.
  simpl in Hf |- *.
  pose proof (double_loop_snd l 1 (double_pair p) (-1) ltac:(lia)) as Hs.
  unfold double_pair in Hs |- *. simpl Z.of_nat in Hs.
  destruct (Canon.double_loop 1 _ (-1) false l) as [rest t] eqn:E.
  simpl in Hf, Hs. rewrite Hf. subst t.
  destruct (first_dup_from 1 _ _) as [j|] eqn:Ej.
  - assert (1 <= j)%nat.
    { apply first_dup_from_ge in Ej. exact Ej. }
    replace (0 <=? Z.of_nat j - 1) with true by (symmetry; apply Z.leb_le; lia).
    replace (Z.to_nat (Z.of_nat j - 1)) with (j - 1)%nat by lia.
    reflexivity.
  - reflexivity.
Qed.

Lemma canon_loop_rounds : forall fuel m pairs,
  (snd (Canon.canon_loop fuel m pairs) <= fuel)%nat.
Proof.
  induction fuel as [|f IH]; intros m pairs; simpl; [lia|].
  destruct (Canon.canonIsInvPart _); [destruct (_ <? _)|];
  try (simpl; lia);
  match goal with |- context [Canon.canon_loop f m ?p] =>
    specialize (IH m p); destruct (Canon.canon_loop f m p) end;
  simpl in *; lia.
Qed.

(** C8 (counterexample): with two pairs of equal [curr] and [last] the
    tie-break decrements the first of the two tied pairs (the predecessor,
    index 0), not the pair at which the tie is detected (index 1). *)
Lemma break_ties_tied_counterexample :
  let ps := [Canon.mkPair 0 1 1 2; Canon.mkPair 1 1 1 2] in
  map Canon.curr (Canon.canonBreakTies ps) = [1; 2] /\
  map Canon.curr (break_ties_at_tied ps) = [2; 1] /\
  Canon.canonBreakTies ps <> break_ties_at_tied ps.
Proof.
  simpl. split; [reflexivity|]. split; [reflexivity|].
  vm_compute. discriminate.
Qed.

(** C8 (amended): the tie-break doubles every [curr], finds the first
    position [i > 0] whose doubled [curr] equals that of position [i - 1],
    and decrements [curr] at position [i - 1] (the predecessor), updating
    the primes; when the refined partition is invariant and its largest
    [curr] is below [N], the refinement loop breaks ties and iterates again;
    the loop runs at most 100 rounds. *)
Theorem canon_tie_break_predecessor :
  (forall pairs, Canon.canonBreakTies pairs = break_ties_at_pred pairs) /\
  (forall f m pairs,
     let pairs1 := Canon.canonSortAndRank (Canon.refine_products m pairs) in
     Canon.canonIsInvPart pairs1 = true ->
     Canon.curr (Canon.last_pair pairs1) < Z.of_nat (List.length pairs1) ->
     Canon.canon_loop (S f) m pairs
     = let '(r, k) := Canon.canon_loop f m (Canon.canonBreakTies pairs1) in (r, S k)) /\
  (forall m pairs, (snd (Canon.canon_loop 100 m pairs) <= 100)%nat).
Proof.
  split; [exact canonBreakTies_pred|].
  split.
  - intros f m pairs pairs1 Hinv Hlt. simpl. fold pairs1. rewrite Hinv.
    apply Z.ltb_lt in Hlt. rewrite Hlt. reflexivity.
  - intros m pairs. apply canon_loop_rounds.
Qed.

Lemma canon_tie_break_predecessor_witness :
  let m := mol_of [C 3; C 3] [(0, 1, single)] in
  let pairs0 := Canon.canonSortAndRank (map (Canon.initial_pair m) (zrange 0 2)) in
  let pairs1 := Canon.canonSortAndRank (Canon.refine_products m pairs0) in
  Canon.canonIsInvPart pairs1 = true /\
  Canon.curr (Canon.last_pair pairs1) < Z.of_nat (List.length pairs1) /\
  Canon.canon_loop 1 m pairs0
  = let '(r, k) := Canon.canon_loop 0 m (Canon.canonBreakTies pairs1) in (r, 1%nat).
Proof.
  intros m pairs0 pairs1.
  assert (H1 : Canon.canonIsInvPart pairs1 = true) by (vm_compute; reflexivity).
  assert (H2 : Canon.curr (Canon.last_pair pairs1) < Z.of_nat (List.length pairs1))
    by (vm_compute; reflexivity).
  split; [exact H1|]. split; [exact H2|].
  exact (proj1 (proj2 canon_tie_break_predecessor) 0%nat m pairs0 H1 H2).
Defined.

(** ** Weighted-average shift *)

Lemma weighted_avg_fold : forall (e : entry) (tw ws : Q),
  let r := fold_left (fun '(tw, ws) '(key, val) =>
                        if is_meta key then (tw, ws)
                        else (tw + val_cnt val, ws + val_avg val * val_cnt val)%Q)
                     e (tw, ws) in
  (fst r == tw + sum_cnt e)%Q /\ (snd r == ws + sum_avg_cnt e)%Q.
Proof.
  induction e as [|[key val] e IH]; intros tw ws; simpl.
  - unfold sum_cnt, sum_avg_cnt; simpl. split; ring.
  - unfold sum_cnt, sum_avg_cnt in *. simpl.
    destruct (is_meta key); simpl.
    + apply IH.
    + destruct (IH (tw + val_cnt val) (ws + val_avg val * val_cnt val))%Q as [H1 H2].
      rewrite H1, H2. split; ring.
Qed.

(** C4: [computeWeightedAvg] is [round10] of the count-weighted mean of
    the solvent averages (keys other than ["n"] and ["s"]), and exactly 0
    when the counts sum to 0. *)
Theorem computeWeightedAvg_identity : forall e : entry,
  computeWeightedAvg e
  = if Qeq_bool (sum_cnt e) 0 then 0%Q else round10 (sum_avg_cnt e / sum_cnt e).
Proof.
  intros e. unfold computeWeightedAvg, round10.
  destruct (weighted_avg_fold e 0 0) as [Ht Hs].
  destruct (fold_left _ e _) as [tw ws]. simpl in Ht, Hs.
  rewrite Qplus_0_l in Ht, Hs.
  destruct (Qeq_bool tw 0) eqn:E1; destruct (Qeq_bool (sum_cnt e) 0) eqn:E2;
    try reflexivity.
  - apply Qeq_bool_iff in E1. apply Qeq_bool_neq in E2. exfalso.
    apply E2. rewrite <- Ht. exact E1.
  - apply Qeq_bool_neq in E1. apply Qeq_bool_iff in E2. exfalso.
    apply E1. rewrite Ht. exact E2.
  - do 2 f_equal. unfold Math_round. apply Qfloor_comp.
    rewrite Ht, Hs. ring.
Qed.

(** ** Chunk assignment *)

Lemma ToInt32_signed : forall x,
  ToInt32 x = (if 2 ^ 31 <=? x mod 2 ^ 32 then x mod 2 ^ 32 - 2 ^ 32 else x mod 2 ^ 32).
Proof.
  intros x. unfold ToInt32.
  destruct (x mod 2 ^ 32 <? 2 ^ 31) eqn:E1; destruct (2 ^ 31 <=? x mod 2 ^ 32) eqn:E2;
    try reflexivity; rewrite ?Z.ltb_lt, ?Z.ltb_ge, ?Z.leb_le, ?Z.leb_gt in *; lia.
Qed.

Lemma ToInt32_mod : forall x, ToInt32 x mod 2 ^ 32 = x mod 2 ^ 32.
Proof.
  intros x. rewrite ToInt32_signed.
  destruct (2 ^ 31 <=? x mod 2 ^ 32).
  - replace (x mod 2 ^ 32 - 2 ^ 32) with (x mod 2 ^ 32 + (-1) * 2 ^ 32) by ring.
    rewrite Z.mod_add by lia. apply Z.mod_mod. lia.
  - apply Z.mod_mod. lia.
Qed.

Lemma hash_step_spec : forall h c,
  ToInt32 (ToInt32 (h * 2 ^ 5) - h + c) = spec_step h c.
Proof.
  intros h c. unfold spec_step. rewrite ToInt32_signed.
  assert (E : (ToInt32 (h * 2 ^ 5) - h + c) mod 2 ^ 32 = (Z.shiftl h 5 - h + c) mod 2 ^ 32).
  { rewrite Z.shiftl_mul_pow2 by lia.
    replace (ToInt32 (h * 2 ^ 5) - h + c) with (ToInt32 (h * 2 ^ 5) + (c - h)) by ring.
    replace (h * 2 ^ 5 - h + c) with (h * 2 ^ 5 + (c - h)) by ring.
    rewrite Z.add_mod, ToInt32_mod, <- Z.add_mod by lia. reflexivity. }
  rewrite E. reflexivity.
Qed.

Lemma hash_fold_spec : forall k h,
  fold_left (fun h c => ToInt32 (ToInt32 (h * 2 ^ 5) - h + c)) k h = fold_left spec_step k h.
Proof.
  induction k as [|c k IH]; intros h; simpl; [reflexivity|].
  rewrite hash_step_spec. apply IH.
Qed.

Lemma hashCode_nonneg : forall k, 0 <= Database.hashCode k.
Proof. intros k. unfold Database.hashCode. apply Z.abs_nonneg. Qed.

Lemma chunkIndex_range : forall k, 0 <= Database.chunkIndex k < 256.
Proof.
  intros k. unfold Database.chunkIndex, NUM_CHUNKS.
  rewrite Z.rem_mod_nonneg by (try apply hashCode_nonneg; lia).
  apply Z.mod_pos_bound. lia.
Qed.

Lemma key_eqb_spec : forall a b, key_eqb a b = true <-> a = b.
Proof.
  intros a b. unfold key_eqb. destruct (list_eq_dec Z.eq_dec a b); split; congruence.
Qed.

Lemma obj_get_set : forall V k k' (v : V) o,
  obj_get k (obj_set k' v o) = if key_eqb k k' then Some v else obj_get k o.
Proof.
  intros V k k' v o. induction o as [|[k0 v0] o IH]; simpl.
  - reflexivity.
  - destruct (key_eqb k' k0) eqn:E0; simpl.
    + apply key_eqb_spec in E0. subst k0. destruct (key_eqb k k'); reflexivity.
    + rewrite IH. destruct (key_eqb k k0) eqn:E1, (key_eqb k k') eqn:E2; try reflexivity.
      apply key_eqb_spec in E1, E2. subst.
      assert (key_eqb k0 k0 = true) by (apply key_eqb_spec; reflexivity). congruence.
Qed.

Lemma obj_get_app : forall V k (o o' : list (list Z * V)),
  obj_get k (o ++ o') = match obj_get k o with Some v => Some v | None => obj_get k o' end.
Proof.
  intros V k o o'. induction o as [|[k0 v0] o IH]; simpl; [reflexivity|].
  destruct (key_eqb k k0); [reflexivity|exact IH].
Qed.

Lemma obj_get_notin : forall V k (o : list (list Z * V)), ~ In k (map fst o) -> obj_get k o = None.
Proof.
  intros V k o. induction o as [|[k0 v0] o IH]; simpl; intros Hn; [reflexivity|].
  destruct (key_eqb k k0) eqn:E.
  - apply key_eqb_spec in E. subst. exfalso. apply Hn. left. reflexivity.
  - apply IH. intros H. apply Hn. right. exact H.
Qed.

Lemma update_nth_length : forall A n (f : A -> A) l, List.length (update_nth n f l) = List.length l.
Proof. intros A n f l. revert n. induction l as [|x l IH]; intros [|n]; simpl; auto. Qed.

Lemma nth_update_nth : forall A n i (f : A -> A) l d,
  (n < List.length l)%nat ->
  nth i (update_nth n f l) d = if Nat.eqb i n then f (nth i l d) else nth i l d.
Proof.
  intros A n i f l d. revert n i. induction l as [|x l IH]; intros n i H; simpl in H; [lia|].
  destruct n as [|n], i as [|i]; simpl; try reflexivity.
  apply IH. lia.
Qed.

Lemma shard_fold : forall V (rest pre : list (list Z * V)) B,
  NoDup (map fst (pre ++ rest)) ->
  List.length B = 256%nat ->
  (forall k i, obj_get k (nth i B []) =
     if Nat.eqb i (Z.to_nat (Database.chunkIndex k)) then obj_get k pre else None) ->
  forall k i,
    obj_get k (nth i (fold_left (fun buckets '(k, v) =>
                 update_nth (Z.to_nat (Z.rem (Shard.hashCode k) NUM_CHUNKS)) (obj_set k v) buckets)
               rest B) [])
    = if Nat.eqb i (Z.to_nat (Database.chunkIndex k)) then obj_get k (pre ++ rest) else None.
Proof.
  intros V rest. induction rest as [|[k' v'] rest IH]; intros pre B Hnd Hlen Hinv k i.
  - simpl. rewrite app_nil_r. apply Hinv.
  - simpl. replace (pre ++ (k', v') :: rest) with ((pre ++ [(k', v')]) ++ rest)
      by (rewrite <- app_assoc; reflexivity).
    assert (Hk' : ~ In k' (map fst pre)).
    { rewrite map_app in Hnd. simpl in Hnd. apply NoDup_remove_2 in Hnd.
      intros H. apply Hnd. apply in_or_app. left. exact H. }
    assert (Hb : (Z.to_nat (Z.rem (Shard.hashCode k') NUM_CHUNKS) < List.length B)%nat).
    { rewrite Hlen. pose proof (chunkIndex_range k') as R.
      change (Z.rem (Shard.hashCode k') NUM_CHUNKS) with (Database.chunkIndex k'). lia. }
    apply IH.
    + rewrite <- app_assoc. exact Hnd.
    + rewrite update_nth_length. exact Hlen.
    + clear k i. intros k i.
      change (Z.rem (Shard.hashCode k') NUM_CHUNKS) with (Database.chunkIndex k') in *.
      rewrite nth_update_nth by exact Hb.
      rewrite obj_get_app. simpl.
      destruct (key_eqb k k') eqn:Ekk.
      * apply key_eqb_spec in Ekk. subst k'.
        rewrite (obj_get_notin _ k pre Hk').
        destruct (Nat.eqb i (Z.to_nat (Database.chunkIndex k))) eqn:Ei;
          [|rewrite Hinv, Ei; reflexivity].
        rewrite obj_get_set. rewrite (proj2 (key_eqb_spec k k) eq_refl). reflexivity.
      * destruct (Nat.eqb i (Z.to_nat (Database.chunkIndex k'))) eqn:Ei.
        -- rewrite obj_get_set, Ekk, Hinv.
           destruct (Nat.eqb i (Z.to_nat (Database.chunkIndex k))); [|reflexivity].
           destruct (obj_get k pre); reflexivity.
        -- rewrite Hinv. destruct (Nat.eqb i (Z.to_nat (Database.chunkIndex k))); [|reflexivity].
           destruct (obj_get k pre); reflexivity.
Qed.

Lemma shard_spec : forall V (db : list (list Z * V)),
  NoDup (map fst db) ->
  forall k i, obj_get k (nth i (shard db) [])
              = if Nat.eqb i (Z.to_nat (Database.chunkIndex k)) then obj_get k db else None.
Proof.
  intros V db Hnd k i. unfold shard.
  apply (shard_fold V db []); [exact Hnd|reflexivity|].
  intros k0 i0. rewrite nth_repeat. simpl. destruct (Nat.eqb i0 _); reflexivity.
Qed.

(** C3: the sharder's bucket [hashCode(k) % 256] and the loader's
    [chunkIndex(k)] coincide and equal [|h| mod 256] for the 32-bit
    two's-complement fold [h := ((h << 5) - h + c) mod 2^32]; and for a
    database with distinct keys, the loader's probe of [chunkIndex(k)]
    returns exactly the database's value for [k], while every other chunk
    holds no entry for [k]. *)
Theorem chunk_assignment :
  (forall k : list Z,
     Z.rem (Shard.hashCode k) NUM_CHUNKS = Database.chunkIndex k /\
     Database.chunkIndex k = spec_chunk k) /\
  (forall (V : Type) (db : list (list Z * V)),
     NoDup (map fst db) ->
     forall k,
       queryChunk (shard db) k = obj_get k db /\
       (forall i, i <> Z.to_nat (Database.chunkIndex k) -> obj_get k (nth i (shard db) []) = None)).
Proof.
  split.
  - intros k. split; [reflexivity|].
    unfold Database.chunkIndex, spec_chunk, NUM_CHUNKS.
    rewrite Z.rem_mod_nonneg by (try apply hashCode_nonneg; lia).
    unfold Database.hashCode. rewrite hash_fold_spec. reflexivity.
  - intros V db Hnd k. split.
    + unfold queryChunk. rewrite shard_spec by exact Hnd. rewrite Nat.eqb_refl. reflexivity.
    + intros i Hi. rewrite shard_spec by exact Hnd.
      apply Nat.eqb_neq in Hi. rewrite Hi. reflexivity.
Qed.

Lemma chunk_assignment_witness :
  let db := [([72; 72; 72; 67], 1); ([67; 40; 72; 41], 2); ([72; 67], 3)] in
  NoDup (map fst db) /\ queryChunk (shard db) [72; 67] = Some 3.
Proof.
  intros db.
  assert (H : NoDup (map fst db)).
  { simpl. repeat constructor; simpl; intuition discriminate. }
  split; [exact H|].
  exact (proj1 (proj2 chunk_assignment Z db H [72; 67])).
Defined.

(** ** Pass 2, step 2: node scores *)

Lemma bond_rank_table : forall bt,
  (0 <=? bt) && (bt <=? 4) = true -> nth (Z.to_nat bt) Hose.BOND_RANKINGS 0 = bond_rank bt.
Proof.
  intros bt H. apply andb_true_iff in H. destruct H as [H1 H2].
  apply Z.leb_le in H1, H2.
  assert (bt = 0 \/ bt = 1 \/ bt = 2 \/ bt = 3 \/ bt = 4) as [->|[->|[->|[->| ->]]]] by lia;
  reflexivity.
Qed.

Lemma bond_rank_other : forall bt,
  (0 <=? bt) && (bt <=? 4) = false -> bt <> -1 -> bond_rank bt = 0.
Proof.
  intros bt H Hn. unfold bond_rank.
  destruct (bt =? 2) eqn:E2; [apply Z.eqb_eq in E2; subst; discriminate|].
  destruct (bt =? 3) eqn:E3; [apply Z.eqb_eq in E3; subst; discriminate|].
  destruct (bt =? 4) eqn:E4; [apply Z.eqb_eq in E4; subst; discriminate|].
  destruct (bt =? -1) eqn:E5; [apply Z.eqb_eq in E5; contradiction|reflexivity].
Qed.

Lemma score_node_spec : forall visited ar tm id,
  (id < List.length ar)%nat ->
  let r := Hose.score_node visited (ar, tm) id in
  Hose.get (fst r) id = scored_node visited (Hose.get ar id) /\
  (forall j, j <> id -> Hose.get (fst r) j = Hose.get ar j) /\
  List.length (fst r) = List.length ar /\
  snd r = (if 0 <=? Hose.atomIdx (Hose.get ar id)
           then (tm ++ [Hose.atomIdx (Hose.get ar id)])%list else tm).
Proof.
  intros visited ar tm id Hid. unfold Hose.score_node, Hose.get. cbv zeta.
  set (nd := nth id ar Hose.dummy).
  set (ar1 := if (0 <=? Hose.atomIdx nd) && set_has (Hose.atomIdx nd) visited
              then update_nth id (fun n => Hose.set_ring (Hose.set_score (Hose.score n + Hose.RING_RANK) n)) ar
              else update_nth id (fun n => Hose.set_score (Hose.score n + Hose.getElementRank (Hose.element n)) n) ar).
  assert (L1 : List.length ar1 = List.length ar)
    by (unfold ar1; destruct (_ && _); apply update_nth_length).
  assert (G1 : nth id ar1 Hose.dummy =
    if (0 <=? Hose.atomIdx nd) && set_has (Hose.atomIdx nd) visited
    then Hose.set_ring (Hose.set_score (Hose.score nd + Hose.RING_RANK) nd)
    else Hose.set_score (Hose.score nd + Hose.getElementRank (Hose.element nd)) nd).
  { unfold ar1. destruct (_ && _); rewrite nth_update_nth, Nat.eqb_refl by exact Hid; reflexivity. }
  assert (O1 : forall j, j <> id -> nth j ar1 Hose.dummy = nth j ar Hose.dummy).
  { intros j Hj. apply Nat.eqb_neq in Hj.
    unfold ar1. destruct (_ && _); rewrite nth_update_nth, Hj by exact Hid; reflexivity. }
  clearbody ar1.
  assert (Hid1 : (id < List.length ar1)%nat) by lia.
  assert (Hbt : Hose.bondType (nth id ar1 Hose.dummy) = Hose.bondType nd)
    by (rewrite G1; destruct (_ && _); reflexivity).
  destruct ((0 <=? Hose.bondType nd) && (Hose.bondType nd <=? 4)) eqn:Eb;
    [|destruct (Hose.bondType nd =? -1) eqn:Em]; cbn [fst snd];
    (split; [|split; [|split]]);
    try (intros j Hj; rewrite ?nth_update_nth by exact Hid1;
         apply Nat.eqb_neq in Hj; rewrite ?Hj; apply O1; apply Nat.eqb_neq; exact Hj);
    rewrite ?update_nth_length; try exact L1; try reflexivity;
    rewrite ?nth_update_nth, ?Nat.eqb_refl by exact Hid1; rewrite G1;
    unfold scored_node; fold nd.
  - rewrite (bond_rank_table _ Eb). destruct (_ && _); reflexivity.
  - apply Z.eqb_eq in Em. rewrite Em. destruct (_ && _); reflexivity.
  - apply Z.eqb_neq in Em. rewrite (bond_rank_other _ Eb Em), !Z.add_0_r.
    destruct (_ && _); reflexivity.
Qed.

Lemma score_fold_spec : forall visited sphere ar tm,
  NoDup sphere -> Forall (fun id => (id < List.length ar)%nat) sphere ->
  let r := fold_left (Hose.score_node visited) sphere (ar, tm) in
  (forall j, Hose.get (fst r) j =
             if in_dec Nat.eq_dec j sphere then scored_node visited (Hose.get ar j)
             else Hose.get ar j) /\
  List.length (fst r) = List.length ar /\
  snd r = (tm ++ filter (fun a => 0 <=? a)
                        (map (fun id => Hose.atomIdx (Hose.get ar id)) sphere))%list.
Proof.
  intros visited sphere. induction sphere as [|id sphere IH]; intros ar tm Hnd Hall;
    cbn [fold_left map filter].
  - rewrite app_nil_r. split; [|split]; reflexivity.
  - inversion Hnd as [|? ? Hnin Hnd']; subst. inversion Hall as [|? ? Hid Hall']; subst.
    destruct (score_node_spec visited ar tm id Hid) as [G [O [L S]]].
    destruct (Hose.score_node visited (ar, tm) id) as [ar1 tm1] eqn:E. simpl in G, O, L, S.
    assert (Hall1 : Forall (fun id => (id < List.length ar1)%nat) sphere) by (rewrite L; exact Hall').
    destruct (IH ar1 tm1 Hnd' Hall1) as [G' [L' S']].
    split; [|split].
    + intros j. rewrite G'.
      destruct (Nat.eq_dec id j) as [->|Hne].
      * destruct (in_dec Nat.eq_dec j sphere); [contradiction|].
        destruct (in_dec Nat.eq_dec j (j :: sphere)) as [_|Hc];
          [exact G|exfalso; apply Hc; left; reflexivity].
      * rewrite O by congruence.
        destruct (in_dec Nat.eq_dec j sphere) as [Hi|Hi];
          destruct (in_dec Nat.eq_dec j (id :: sphere)) as [Hi'|Hi']; try reflexivity.
        -- exfalso. apply Hi'. right. exact Hi.
        -- exfalso. destruct Hi' as [->|Hi']; [apply Hne; reflexivity|contradiction].
    + transitivity (List.length ar1); [exact L'|exact L].
    + etransitivity; [exact S'|]. rewrite S.
      assert (Hm : map (fun id => Hose.atomIdx (Hose.get ar1 id)) sphere
                   = map (fun id => Hose.atomIdx (Hose.get ar id)) sphere).
      { apply map_ext_in. intros a Ha. rewrite O; [reflexivity|]. intros ->. contradiction. }
      rewrite Hm. destruct (0 <=? Hose.atomIdx (Hose.get ar id)); simpl;
        rewrite <- ?app_assoc; reflexivity.
Qed.

(** C7: scoring a sphere with distinct in-range nodes updates exactly those
    nodes: a node whose atom index is [>= 0] and in the visited set of the
    sphere's start gets [+1100] (the ring-closure rank) and the ring-closure
    mark, any other node gets [+getElementRank(element)]; both then get the
    bond rank (single 0, double 200000, triple 300000, aromatic 100000,
    type -1 50000).  The returned visited set is the start set with the
    sphere's real-atom indices added afterwards, in sphere order.  The
    element ranks are 799999 for H, 1000 for ",", the table values C 9000
    ... I 7900, and [800000 - atomicMass] for other elements (the ring marker
    "&" ranks as 1100). *)
Theorem calculateNodeScores_spec : forall ar sphere visited,
  NoDup sphere -> Forall (fun id => (id < List.length ar)%nat) sphere ->
  let r := Hose.calculateNodeScores ar sphere visited in
  (forall id, In id sphere -> Hose.get (fst r) id = scored_node visited (Hose.get ar id)) /\
  (forall id, ~ In id sphere -> Hose.get (fst r) id = Hose.get ar id) /\
  snd r = fold_left (fun v x => set_add x v)
            (filter (fun a => 0 <=? a) (map (fun id => Hose.atomIdx (Hose.get ar id)) sphere))
            visited /\
  Hose.getElementRank "H" = 799999 /\ Hose.getElementRank "," = 1000 /\
  Hose.getElementRank "&" = 1100 /\
  map Hose.getElementRank ["C"; "O"; "N"; "S"; "P"; "Si"; "B"; "F"; "Cl"; "Br"; "I"]%string
    = [9000; 8900; 8800; 8700; 8600; 8500; 8400; 8300; 8200; 8100; 7900] /\
  (forall el, el <> "H"%string -> el <> ","%string -> el <> "&"%string ->
     lookup_str el Hose.ELEMENT_RANK = None ->
     Hose.getElementRank el = 800000 - Hose.atomicMass el).
Proof.
  intros ar sphere visited Hnd Hall r.
  destruct (score_fold_spec visited sphere ar [] Hnd Hall) as [G [_ S]].
  unfold r, Hose.calculateNodeScores.
  destruct (fold_left _ sphere _) as [ar' tm] eqn:E. cbn [fst snd] in G, S |- *.
  split; [|split; [|split]].
  - intros id Hin. rewrite G. destruct (in_dec Nat.eq_dec id sphere); [reflexivity|contradiction].
  - intros id Hin. rewrite G. destruct (in_dec Nat.eq_dec id sphere); [contradiction|reflexivity].
  - rewrite S. reflexivity.
  - split; [vm_compute; reflexivity|]. split; [vm_compute; reflexivity|].
    split; [vm_compute; reflexivity|]. split; [vm_compute; reflexivity|].
    intros el H1 H2 H3 H4. unfold Hose.getElementRank.
    apply String.eqb_neq in H1, H2, H3. rewrite H1, H2, H3, H4. reflexivity.
Qed.

Lemma calculateNodeScores_spec_witness :
  let ar := [Hose.makeNode 1 "C" 1 None 0 4; Hose.makeNode 0 "C" 2 None 0 4;
             Hose.makeNode (-1) "H" 0 None 0 1]%string in
  NoDup [0; 1; 2]%nat /\ Forall (fun id => (id < List.length ar)%nat) [0; 1; 2]%nat /\
  map Hose.score (fst (Hose.calculateNodeScores ar [0; 1; 2]%nat [0]))
    = [9000; 1100 + 200000; 799999] /\
  snd (Hose.calculateNodeScores ar [0; 1; 2]%nat [0]) = [0; 1].
Proof.
  intros ar.
  assert (H1 : NoDup [0; 1; 2]%nat)
    by (apply NoDup_cons; [simpl; lia|]; apply NoDup_cons; [simpl; lia|];
        apply NoDup_cons; [simpl; lia|]; apply NoDup_nil).
  assert (H2 : Forall (fun id => (id < List.length ar)%nat) [0; 1; 2]%nat)
    by (apply Forall_forall; intros x Hx; unfold ar; simpl in Hx |- *; lia).
  split; [exact H1|]. split; [exact H2|].
  pose proof (calculateNodeScores_spec ar [0; 1; 2]%nat [0] H1 H2) as Hs.
  split; [vm_compute; reflexivity|].
  exact (match Hs with conj _ (conj _ (conj Hv _)) => Hv end).
Defined.

(** ** Forward lookup: the fallback sequence *)

Lemma ascii_eqb_sym : forall a b, Ascii.eqb a b = Ascii.eqb b a.
Proof.
  intros a b. destruct (Ascii.eqb a b) eqn:E, (Ascii.eqb b a) eqn:E'; try reflexivity.
  - apply Ascii.eqb_eq in E. subst. rewrite Ascii.eqb_refl in E'. discriminate.
  - apply Ascii.eqb_eq in E'. subst. rewrite Ascii.eqb_refl in E. discriminate.
Qed.

Lemma last_delim_max : forall s i a1 a2 a3,
  a1 < i -> a2 < i -> a3 < i ->
  Z.max (last_index_from "/" s i a1)
        (Z.max (last_index_from ")" s i a2) (last_index_from "(" s i a3))
  = last_delim_from s i (Z.max a1 (Z.max a2 a3)).
Proof.
  induction s as [|d s IH]; intros i a1 a2 a3 H1 H2 H3;
    cbn [last_index_from last_delim_from]; [reflexivity|].
  rewrite IH by (try destruct (Ascii.eqb "/" d); try destruct (Ascii.eqb ")" d);
                 try destruct (Ascii.eqb "(" d); cbn iota; lia).
  f_equal. unfold is_delim.
  rewrite (ascii_eqb_sym d "/"), (ascii_eqb_sym d "("), (ascii_eqb_sym d ")").
  destruct (Ascii.eqb "/" d), (Ascii.eqb ")" d), (Ascii.eqb "(" d); simpl; lia.
Qed.

Lemma substring_succ : forall t n,
  substring 0 (S n) t
  = (substring 0 n t ++ match get n t with Some d => String d EmptyString
                                          | None => EmptyString end)%string.
Proof.
  induction t as [|c t IH]; intros n; [destruct n; reflexivity|].
  destruct n as [|n]; [simpl; destruct t; reflexivity|].
  simpl. rewrite IH. reflexivity.
Qed.

Lemma first_hit_app : forall q l1 l2,
  first_hit q (l1 ++ l2) = match first_hit q l1 with Some x => Some x | None => first_hit q l2 end.
Proof.
  intros q l1 l2. induction l1 as [|k l1 IH]; simpl; [reflexivity|].
  destruct (q k); [reflexivity|exact IH].
Qed.

Lemma probe_trace_app : forall q l1 l2,
  probe_trace q (l1 ++ l2)
  = match first_hit q l1 with Some _ => probe_trace q l1
                             | None => (probe_trace q l1 ++ probe_trace q l2)%list end.
Proof.
  intros q l1 l2. induction l1 as [|k l1 IH]; simpl; [reflexivity|].
  destruct (q k); [reflexivity|]. rewrite IH. destruct (first_hit q l1); reflexivity.
Qed.

Lemma trunc_loop_spec : forall q n t,
  trunc_loop q n t = (probe_trace q (spec_truncations n t), first_hit q (spec_truncations n t)).
Proof.
  intros q n. induction n as [|n IH]; intros t; [reflexivity|].
  cbn [trunc_loop spec_truncations]. unfold lastIndexOf.
  rewrite last_delim_max by lia. change (Z.max (-1) (Z.max (-1) (-1))) with (-1).
  destruct (last_delim_from t 0 (-1) <=? 0) eqn:Ep; [reflexivity|].
  rewrite <- substring_succ, Nat.add_1_r.
  simpl. destruct (q (substring 0 (S _) t)); [reflexivity|].
  destruct (q (substring 0 _ t)); [reflexivity|].
  rewrite IH. reflexivity.
Qed.

Lemma spec_truncations_length : forall n t, (List.length (spec_truncations n t) <= 2 * n)%nat.
Proof.
  induction n as [|n IH]; intros t; simpl; [lia|].
  destruct (_ <=? 0); simpl; [lia|]. specialize (IH (substring 0 (Z.to_nat (last_delim_from t 0 (-1))) t)).
  lia.
Qed.

Lemma resolve_spec : forall q hose,
  resolve q hose = (probe_trace q (candidate_keys hose), first_hit q (candidate_keys hose)).
Proof.
  intros q hose. unfold resolve, candidate_keys. cbn [probe_trace first_hit].
  destruct (q hose) as [h|] eqn:Eh; [reflexivity|].
  rewrite trunc_loop_spec, first_hit_app, probe_trace_app.
  destruct (first_hit q (spec_truncations 8 hose)) as [[k h]|] eqn:Ef; [reflexivity|].
  destruct (starts_with_H hose); simpl; [|rewrite app_nil_r; reflexivity].
  destruct (q (strip_H hose)); reflexivity.
Qed.

(** C5: one atom's resolution queries the keys of [candidate_keys] in
    order -- the generated code, then for at most 8 rounds the truncation
    at the rightmost ['/'], ['('] or [')'] (stopping when there is none at a
    position [> 0]) first keeping and then dropping the delimiter, then the
    code with its maximal leading run of ['H'] removed when it starts with
    ['H'] -- and stops at the first hit; atoms without a hit contribute no
    result. *)
Theorem lookup_fallback_sequence : forall queryHose : string -> option hit,
  (forall hose, resolve queryHose hose
                = (probe_trace queryHose (candidate_keys hose),
                   first_hit queryHose (candidate_keys hose))) /\
  (forall t, (List.length (spec_truncations 8 t) <= 16)%nat) /\
  (forall codes,
     lookup_codes queryHose codes
     = flat_map (fun e => match first_hit queryHose (candidate_keys (ehose e)) with
                          | Some (k, h) => [mkResult (avgShift h) (eatom e) k (hsmiles h)]
                          | None => []
                          end) codes).
Proof.
  intros q. split; [|split].
  - apply resolve_spec.
  - intros t. apply spec_truncations_length.
  - intros codes. unfold lookup_codes. apply flat_map_ext. intros e.
    rewrite resolve_spec. reflexivity.
Qed.

Lemma string_app_assoc : forall a b c : string, ((a ++ b) ++ c)%string = (a ++ (b ++ c))%string.
Proof. induction a as [|x a IH]; intros b c; simpl; [reflexivity|]. rewrite IH. reflexivity. Qed.

Lemma substring_prefix : forall t m, exists suf, t = (substring 0 m t ++ suf)%string.
Proof.
  induction t as [|c t IH]; intros m.
  - exists EmptyString. destruct m; reflexivity.
  - destruct m as [|m].
    + exists (String c t). reflexivity.
    + destruct (IH m) as [suf Hs]. exists suf. simpl. rewrite <- Hs. reflexivity.
Qed.

Lemma truncations_prefix : forall n t k,
  In k (spec_truncations n t) -> exists suf, t = (k ++ suf)%string.
Proof.
  induction n as [|n IH]; intros t k Hin; simpl in Hin; [contradiction|].
  destruct (_ <=? 0); [contradiction|].
  destruct Hin as [<-|[<-|Hin]]; try apply substring_prefix.
  destruct (IH _ _ Hin) as [s1 H1].
  destruct (substring_prefix t (Z.to_nat (last_delim_from t 0 (-1)))) as [s2 H2].
  exists (s1 ++ s2)%string. rewrite <- string_app_assoc, <- H1. exact H2.
Qed.

Lemma first_hit_in : forall q l k h, first_hit q l = Some (k, h) -> In k l /\ q k = Some h.
Proof.
  intros q l k h. induction l as [|x l IH]; simpl; [discriminate|].
  destruct (q x) eqn:E.
  - intros H. injection H as <- <-. split; [left; reflexivity|exact E].
  - intros H. destruct (IH H) as [Hi Hq]. split; [right; exact Hi|exact Hq].
Qed.

Lemma first_hit_none : forall q l, first_hit q l = None -> forall x, In x l -> q x = None.
Proof.
  intros q l. induction l as [|k l IH]; simpl; [intros _ x []|].
  destruct (q k) eqn:E; [discriminate|]. intros H x [<-|Hx]; [exact E|exact (IH H x Hx)].
Qed.

(** C6 (counterexample): with a store that holds only ["C(HHC/HHH/)"],
    both terminal carbons of propane (generated code ["HHHC(HHC/HHH/)"])
    resolve through the leading-H strip to ["C(HHC/HHH/)"], which is not a
    prefix of the generated code. *)
Lemma lookup_key_not_prefix_counterexample :
  let q := fun k => if String.eqb k "C(HHC/HHH/)" then Some (mkHit 14 "CCC" "C") else None in
  Hose.generateHoseCode propane 0 4 = "HHHC(HHC/HHH/)"%string /\
  lookupNmrShifts q propane "C"
  = [mkResult 14 "C" "C(HHC/HHH/)" "CCC"; mkResult 14 "C" "C(HHC/HHH/)" "CCC"] /\
  String.prefix "C(HHC/HHH/)" (Hose.generateHoseCode propane 0 4) = false.
Proof.
  intros q. split; [vm_compute; reflexivity|]. split; vm_compute; reflexivity.
Qed.

(** C6 (amended): an exact hit on the generated code is always the one
    reported; any reported key was a hit, and is the generated code itself,
    one of its truncations (a prefix of it), or -- when the generated code
    starts with ['H'] and neither it nor a truncation hit -- the generated
    code with its leading run of ['H'] removed; each result of the lookup
    reports the key of its atom's resolution. *)
Theorem lookup_key_origin : forall queryHose : string -> option hit,
  (forall hose h, queryHose hose = Some h -> snd (resolve queryHose hose) = Some (hose, h)) /\
  (forall hose k h, snd (resolve queryHose hose) = Some (k, h) ->
     queryHose k = Some h /\
     (k = hose \/
      (In k (spec_truncations 8 hose) /\ exists suf, hose = (k ++ suf)%string) \/
      (starts_with_H hose = true /\ k = strip_H hose /\ queryHose hose = None /\
       forall t, In t (spec_truncations 8 hose) -> queryHose t = None))) /\
  (forall codes r, In r (lookup_codes queryHose codes) ->
     exists e k h, In e codes /\ snd (resolve queryHose (ehose e)) = Some (k, h) /\
                   r = mkResult (avgShift h) (eatom e) k (hsmiles h)).
Proof.
  intros q. split; [|split].
  - intros hose h Hh. unfold resolve. rewrite Hh. reflexivity.
  - intros hose k h Hr. rewrite resolve_spec in Hr. cbn [snd] in Hr.
    pose proof (first_hit_in _ _ _ _ Hr) as [_ Hq]. split; [exact Hq|].
    unfold candidate_keys in Hr.
    change (hose :: spec_truncations 8 hose ++ ?x) with ((hose :: spec_truncations 8 hose) ++ x) in Hr.
    rewrite first_hit_app in Hr.
    destruct (first_hit q (hose :: spec_truncations 8 hose)) as [[k' h']|] eqn:F.
    + injection Hr as <- <-. apply first_hit_in in F. destruct F as [[<-|Hin] _];
        [left; reflexivity|right; left].
      split; [exact Hin|]. apply (truncations_prefix 8). exact Hin.
    + right; right. pose proof (first_hit_none _ _ F) as N.
      destruct (starts_with_H hose); [|discriminate Hr].
      cbn [first_hit] in Hr. destruct (q (strip_H hose)); [|discriminate Hr].
      injection Hr as <- <-. split; [reflexivity|]. split; [reflexivity|].
      split; [apply N; left; reflexivity|]. intros t Ht. apply N. right. exact Ht.
  - intros codes r Hr. unfold lookup_codes in Hr. apply in_flat_map in Hr.
    destruct Hr as [e [He Hr]].
    destruct (snd (resolve q (ehose e))) as [[k h]|] eqn:E; [|contradiction].
    destruct Hr as [<-|[]]. exists e, k, h. split; [exact He|]. split; [exact E|reflexivity].
Qed.

Lemma lookup_key_origin_witness :
  let q := fun k => if String.eqb k "C(HHC/HHH/)" then Some (mkHit 14 "CCC" "C") else None in
  q "C(HHC/HHH/)"%string = Some (mkHit 14 "CCC" "C") /\
  snd (resolve q "C(HHC/HHH/)") = Some ("C(HHC/HHH/)"%string, mkHit 14 "CCC" "C").
Proof.
  intros q.
  assert (H : q "C(HHC/HHH/)"%string = Some (mkHit 14 "CCC" "C")) by reflexivity.
  split; [exact H|].
  exact (proj1 (lookup_key_origin q) _ _ H).
Defined.

(** ** [Array.prototype.sort]: a permutation, sorted for an asymmetric comparator *)

Section JsSortFacts.
Context {A : Type} (neg : A -> A -> bool).

Lemma merge_nil_r : forall l, merge neg l [] = l.
Proof. intros [|x l]; reflexivity. Qed.

Lemma merge_cons_cons : forall x l y r,
  merge neg (x :: l) (y :: r)
  = if neg y x then y :: merge neg (x :: l) r else x :: merge neg l (y :: r).
Proof. reflexivity. Qed.

Lemma merge_perm : forall l r, Permutation (merge neg l r) (l ++ r).
Proof.
  induction l as [|x l IHl]; intros r; [reflexivity|].
  induction r as [|y r IHr]; [rewrite merge_nil_r, app_nil_r; reflexivity|].
  rewrite merge_cons_cons. destruct (neg y x).
  - rewrite IHr. apply Permutation_middle.
  - simpl. apply perm_skip. apply IHl.
Qed.

Variable P : A -> Prop.
Hypothesis neg_asym : forall x y, P x -> P y -> neg x y = true -> neg y x = false.

Let R (x y : A) : Prop := neg y x = false.

Lemma Forall_perm : forall l l', Permutation l l' -> Forall P l' -> Forall P l.
Proof.
  intros l l' Hp Hf. apply Forall_forall. intros x Hx.
  rewrite Forall_forall in Hf. apply Hf. apply (Permutation_in x Hp Hx).
Qed.

Lemma merge_hd : forall a l r, HdRel R a l -> HdRel R a r -> HdRel R a (merge neg l r).
Proof.
  intros a [|x l] [|y r] Hl Hr; try assumption.
  rewrite merge_cons_cons. destruct (neg y x).
  - inversion Hr; subst. constructor. assumption.
  - inversion Hl; subst. constructor. assumption.
Qed.

Lemma merge_sorted : forall l r, Sorted R l -> Sorted R r -> Forall P l -> Forall P r ->
  Sorted R (merge neg l r).
Proof.
  induction l as [|x l IHl]; intros r Hl Hr Pl Pr; [exact Hr|].
  induction r as [|y r IHr]; [rewrite merge_nil_r; exact Hl|].
  rewrite merge_cons_cons. destruct (neg y x) eqn:E.
  - inversion Hr as [|? ? Hr' Hyr]; subst. inversion Pr as [|? ? Py Pr']; subst.
    inversion Pl as [|? ? Px Pl']; subst.
    constructor; [apply IHr; assumption|].
    apply merge_hd; [constructor; unfold R; apply neg_asym; assumption|assumption].
  - inversion Hl as [|? ? Hl' Hxl]; subst. inversion Pl as [|? ? Px Pl']; subst.
    constructor; [apply IHl; assumption|].
    apply merge_hd; [assumption|constructor; exact E].
Qed.

Lemma merge_pairs_spec : forall runs,
  Forall (Sorted R) runs -> Forall (Forall P) runs ->
  Forall (Sorted R) (merge_pairs neg runs) /\ Forall (Forall P) (merge_pairs neg runs) /\
  Permutation (List.concat (merge_pairs neg runs)) (List.concat runs) /\
  (2 * List.length (merge_pairs neg runs) <= List.length runs + 1)%nat.
Proof.
  fix IH 1. intros [|r1 [|r2 rest]] Hs Hp.
  - simpl. repeat split; auto.
  - simpl. repeat split; auto.
  - inversion Hs as [|? ? S1 Hs1]; subst. inversion Hs1 as [|? ? S2 Hs2]; subst.
    inversion Hp as [|? ? P1 Hp1]; subst. inversion Hp1 as [|? ? P2 Hp2]; subst.
    destruct (IH rest Hs2 Hp2) as [A1 [A2 [A3 A4]]].
    assert (Pm : Forall P (merge neg r1 r2))
      by (apply (Forall_perm _ (r1 ++ r2)); [apply merge_perm|apply Forall_app; split; assumption]).
    simpl. split; [|split; [|split]].
    + constructor; [apply merge_sorted|]; assumption.
    + constructor; assumption.
    + rewrite A3, merge_perm, app_assoc. reflexivity.
    + lia.
Qed.

Lemma merge_passes_spec : forall fuel runs,
  Forall (Sorted R) runs -> Forall (Forall P) runs -> (List.length runs <= S fuel)%nat ->
  Forall (Sorted R) (merge_passes neg fuel runs) /\
  Permutation (List.concat (merge_passes neg fuel runs)) (List.concat runs) /\
  (List.length (merge_passes neg fuel runs) <= 1)%nat.
Proof.
  induction fuel as [|f IH]; intros runs Hs Hp Hl.
  - simpl. repeat split; auto.
  - simpl. destruct runs as [|r1 [|r2 rest]] eqn:Er; try (repeat split; auto; fail).
    rewrite <- Er in *.
    destruct (merge_pairs_spec runs Hs Hp) as [A1 [A2 [A3 A4]]].
    assert (L2 : (2 <= List.length runs)%nat) by (subst; simpl; lia).
    destruct (IH (merge_pairs neg runs) A1 A2 ltac:(lia)) as [B1 [B2 B3]].
    split; [exact B1|]. split; [rewrite B2; exact A3|exact B3].
Qed.

Theorem js_sort_perm : forall l, Forall P l -> Permutation (js_sort neg l) l.
Proof.
  intros l Hp. unfold js_sort.
  assert (Hs : Forall (Sorted R) (map (fun x => [x]) l))
    by (apply Forall_forall; intros r Hr; apply in_map_iff in Hr;
        destruct Hr as [x [<- _]]; repeat constructor).
  assert (Hp' : Forall (Forall P) (map (fun x => [x]) l))
    by (apply Forall_forall; intros r Hr; apply in_map_iff in Hr;
        destruct Hr as [x [<- Hx]]; rewrite Forall_forall in Hp; constructor; auto).
  destruct (merge_passes_spec (List.length l) _ Hs Hp' ltac:(rewrite length_map; lia))
    as [_ [B2 _]].
  rewrite B2. clear. induction l as [|x l IH]; simpl; [reflexivity|]. apply perm_skip. exact IH.
Qed.

Theorem js_sort_sorted : forall l, Forall P l -> Sorted R (js_sort neg l).
Proof.
  intros l Hp. unfold js_sort.
  assert (Hs : Forall (Sorted R) (map (fun x => [x]) l))
    by (apply Forall_forall; intros r Hr; apply in_map_iff in Hr;
        destruct Hr as [x [<- _]]; repeat constructor).
  assert (Hp' : Forall (Forall P) (map (fun x => [x]) l))
    by (apply Forall_forall; intros r Hr; apply in_map_iff in Hr;
        destruct Hr as [x [<- Hx]]; rewrite Forall_forall in Hp; constructor; auto).
  destruct (merge_passes_spec (List.length l) _ Hs Hp' ltac:(rewrite length_map; lia))
    as [B1 [_ B3]].
  destruct (merge_passes neg _ _) as [|r [|r' rest]]; simpl in *.
  - constructor.
  - rewrite app_nil_r. inversion B1. assumption.
  - lia.
Qed.
End JsSortFacts.

Lemma merge_pairs_perm_any : forall A (neg : A -> A -> bool) runs,
  Permutation (List.concat (merge_pairs neg runs)) (List.concat runs).
Proof.
  intros A neg. fix IH 1. intros [|r1 [|r2 rest]]; try reflexivity.
  simpl. rewrite IH, merge_perm, app_assoc. reflexivity.
Qed.

Lemma js_sort_perm_any : forall A (neg : A -> A -> bool) l, Permutation (js_sort neg l) l.
Proof.
  intros A neg l. unfold js_sort.
  assert (H : forall fuel runs,
             Permutation (List.concat (merge_passes neg fuel runs)) (List.concat runs)).
  { induction fuel as [|f IH]; intros runs; simpl; [reflexivity|].
    destruct runs as [|r1 [|r2 rest]]; try reflexivity.
    rewrite IH. apply merge_pairs_perm_any. }
  rewrite H. clear H. induction l as [|x l IH]; simpl; [reflexivity|]. apply perm_skip. exact IH.
Qed.

Lemma In_firstn_any : forall A n (l : list A) x, In x (firstn n l) -> In x l.
Proof.
  intros A n l x H. rewrite <- (firstn_skipn n l). apply in_or_app. left. exact H.
Qed.

(** ** Estimator: accumulators *)

Lemma fold_left_inv : forall (A B : Type) (f : B -> A -> B) (Inv : B -> Prop) l b,
  Inv b -> (forall b x, In x l -> Inv b -> Inv (f b x)) -> Inv (fold_left f l b).
Proof.
  intros A B f Inv l. induction l as [|x l IH]; intros b Hb Hf; simpl; [exact Hb|].
  apply IH; [apply Hf; [left; reflexivity|exact Hb]|].
  intros b' y Hy. apply Hf. right. exact Hy.
Qed.

Lemma zrange_in : forall a b i, In i (zrange a b) -> a <= i < b.
Proof.
  intros a b i H. unfold zrange in H. apply in_map_iff in H.
  destruct H as [k [<- Hk]]. apply in_seq in Hk. lia.
Qed.

Lemma map_set_set : forall k v w m, map_set k v (map_set k w m) = map_set k v m.
Proof.
  intros k v w m. induction m as [|[k' x] m IH]; simpl.
  - rewrite String.eqb_refl. reflexivity.
  - destruct (String.eqb k k') eqn:E; simpl; rewrite E; [reflexivity|]. rewrite IH. reflexivity.
Qed.

Lemma map_set_in : forall k v m k' a,
  In (k', a) (map_set k v m) -> (k' = k /\ a = v) \/ In (k', a) m.
Proof.
  intros k v m k' a. induction m as [|[k0 x] m IH]; simpl; intros H.
  - destruct H as [H|[]]. injection H as <- <-. left. split; reflexivity.
  - destruct (String.eqb k k0) eqn:E.
    + apply String.eqb_eq in E. subst k0. destruct H as [H|H].
      * injection H as <- <-. left. split; reflexivity.
      * right. right. exact H.
    + destruct H as [H|H]; [right; left; exact H|].
      destruct (IH H) as [H'|H']; [left; exact H'|right; right; exact H'].
Qed.

Lemma map_get_in : forall k m a, map_get k m = Some a -> In (k, a) m.
Proof.
  intros k m a. induction m as [|[k0 x] m IH]; simpl; [discriminate|].
  destruct (String.eqb k k0) eqn:E.
  - intros H. injection H as <-. apply String.eqb_eq in E. subst. left. reflexivity.
  - intros H. right. apply IH. exact H.
Qed.

Lemma set_has_spec : forall x s, set_has x s = true <-> In x s.
Proof.
  intros x s. unfold set_has. rewrite existsb_exists. split.
  - intros [y [Hy E]]. apply Z.eqb_eq in E. subst. exact Hy.
  - intros H. exists x. split; [exact H|apply Z.eqb_refl].
Qed.

Lemma acc_ok_add : forall n tol a i err h,
  acc_ok n tol a -> 0 <= i < n -> set_has i (matchedSet a) = false ->
  (0 <= err)%Q -> (err <= tol)%Q ->
  acc_ok n tol (mkAcc (hoses a ++ [h])%list (set_add i (matchedSet a)) (totalError a + err)).
Proof.
  intros n tol a i err h [Hnd [Hr [Hne [He1 He2]]]] Hi Hn H1 H2.
  unfold acc_ok, set_add. simpl. rewrite Hn.
  split; [|split; [|split]].
  - apply NoDup_app; [exact Hnd|repeat constructor; simpl; tauto|].
    intros x Hx [Hxi|[]]. subst x. apply (proj2 (set_has_spec i _)) in Hx. congruence.
  - apply Forall_app. split; [exact Hr|repeat constructor; lia].
  - destruct (matchedSet a); simpl; discriminate.
  - rewrite length_app, Nat2Z.inj_add, inject_Z_plus. simpl. split.
    + apply (Qle_trans _ (0 + 0)); [apply Qle_refl|apply Qplus_le_compat; assumption].
    + setoid_replace ((inject_Z (Z.of_nat (List.length (matchedSet a))) + 1) * tol)%Q
        with (inject_Z (Z.of_nat (List.length (matchedSet a))) * tol + tol)%Q by ring.
      apply Qplus_le_compat; assumption.
Qed.

Lemma map_get_set_same : forall k v m, map_get k (map_set k v m) = Some v.
Proof.
  intros k v m. induction m as [|[k0 x] m IH]; simpl.
  - rewrite String.eqb_refl. reflexivity.
  - destruct (String.eqb k k0) eqn:E; simpl; rewrite E; [reflexivity|exact IH].
Qed.

Lemma peak_step_ok : forall hc s shift P tol m i,
  0 <= i < Z.of_nat (List.length P) ->
  (forall k a, In (k, a) m -> acc_ok (Z.of_nat (List.length P)) tol a) ->
  forall k a, In (k, a) (peak_step hc s shift P tol m i) ->
              acc_ok (Z.of_nat (List.length P)) tol a.
Proof.
  intros hc s shift P tol m i Hi Hm. unfold peak_step.
  set (err := Qabs (shift - nth (Z.to_nat i) P 0%Q)%Q).
  assert (He0 : (0 <= err)%Q) by apply Qabs_nonneg.
  destruct (Qle_bool err tol) eqn:Ele; [|exact Hm].
  apply Qle_bool_iff in Ele.
  destruct (map_get s m) as [a0|] eqn:Eg.
  - cbn iota. rewrite Eg. destruct (set_has i (matchedSet a0)) eqn:Eh; [exact Hm|].
    intros k a H. apply map_set_in in H. destruct H as [[_ ->]|H]; [|exact (Hm _ _ H)].
    apply acc_ok_add; try assumption. apply (Hm s). apply map_get_in. exact Eg.
  - cbn iota. rewrite map_get_set_same. cbn iota. simpl set_has. cbn iota.
    rewrite map_set_set.
    intros k a H. apply map_set_in in H. destruct H as [[_ ->]|H]; [|exact (Hm _ _ H)].
    unfold acc_ok. simpl. split; [|split; [|split]].
    + repeat constructor. simpl. tauto.
    + repeat constructor; lia.
    + discriminate.
    + split.
      * apply (Qle_trans _ (0 + 0)); [apply Qle_refl|apply Qplus_le_compat; [apply Qle_refl|exact He0]].
      * setoid_replace (inject_Z 1 * tol)%Q with (0 + tol)%Q by (unfold inject_Z; ring).
        apply Qplus_le_compat; [apply Qle_refl|exact Ele].
Qed.

Lemma accumulate_ok : forall db P tol t k a,
  In (k, a) (accumulate db P tol t) -> acc_ok (Z.of_nat (List.length P)) tol a.
Proof.
  intros db P tol t. unfold accumulate.
  apply (fold_left_inv _ _ _ (fun m => forall k a, In (k, a) m -> acc_ok _ tol a)).
  - intros k a [].
  - intros m [hc e] _ Hm. destruct (negb _); [exact Hm|].
    apply (fold_left_inv _ _ _ (fun m => forall k a, In (k, a) m -> acc_ok _ tol a)); [exact Hm|].
    intros m' i Hi Hm'. apply peak_step_ok; [|exact Hm'].
    apply zrange_in in Hi. lia.
Qed.

(** ** Estimator: scores and order *)

Lemma Qlt_bool_iff : forall u v, Qlt_bool u v = true <-> (u < v)%Q.
Proof.
  intros u v. unfold Qlt_bool. rewrite negb_true_iff. split.
  - intros H. apply Qnot_le_lt. intros H'. apply Qle_bool_iff in H'. congruence.
  - intros H. destruct (Qle_bool v u) eqn:E; [|reflexivity].
    apply Qle_bool_iff in E. exfalso. apply (Qlt_not_le _ _ H E).
Qed.

Lemma Qeq_bool_false : forall u v, ~ (u == v)%Q -> Qeq_bool u v = false.
Proof.
  intros u v H. destruct (Qeq_bool u v) eqn:E; [|reflexivity].
  apply Qeq_bool_iff in E. contradiction.
Qed.

Lemma candidate_score_fin : forall m E n tol,
  ~ (tol == 0)%Q -> candidate_score m E n tol = Fin (spec_score m E n tol).
Proof.
  intros m E n tol Ht. unfold candidate_score, js_div.
  rewrite (Qeq_bool_false _ _ Ht). cbn [num_sub_from num_lmul num_mul num_round num_div_pos].
  unfold spec_score, round1000, Math_round. do 3 f_equal.
  apply Qfloor_comp. ring.
Qed.

Lemma spec_score_bounds : forall m E n tol,
  (1 <= m <= n)%Z -> (0 <= E <= inject_Z m * tol)%Q -> (0 < tol)%Q ->
  (0 <= spec_score m E n tol <= 1)%Q.
Proof.
  intros m E n tol Hm HE Ht.
  assert (Hm0 : (0 < inject_Z m)%Q) by (change 0%Q with (inject_Z 0); rewrite <- Zlt_Qlt; lia).
  assert (Hn0 : (0 < inject_Z n)%Q) by (change 0%Q with (inject_Z 0); rewrite <- Zlt_Qlt; lia).
  assert (Hmn : (inject_Z m <= inject_Z n)%Q) by (rewrite <- Zle_Qle; lia).
  set (a := (inject_Z m / inject_Z n)%Q).
  assert (Ha : (0 <= a <= 1)%Q).
  { split; unfold a.
    - apply Qle_shift_div_l; [exact Hn0|lra].
    - apply Qle_shift_div_r; [exact Hn0|lra]. }
  set (b := (E / inject_Z m / tol)%Q).
  assert (Hb : (0 <= b <= 1)%Q).
  { split; unfold b.
    - apply Qle_shift_div_l; [exact Ht|]. setoid_replace (0 * tol)%Q with 0%Q by ring.
      apply Qle_shift_div_l; [exact Hm0|lra].
    - apply Qle_shift_div_r; [exact Ht|]. apply Qle_shift_div_r; [exact Hm0|].
      setoid_replace (1 * tol * inject_Z m)%Q with (inject_Z m * tol)%Q by ring. lra. }
  assert (Hx : (0 <= a * (1 - b) <= 1)%Q).
  { split.
    - apply Qmult_le_0_compat; lra.
    - apply (Qle_trans _ (1 * 1)); [apply Qmult_le_compat_nonneg; lra|lra]. }
  unfold spec_score, round1000. fold a b.
  set (x := (a * (1 - b))%Q) in *. clearbody x.
  set (z := Math_round (1000 * x)).
  assert (Hz : (0 <= z <= 1000)%Z).
  { unfold z, Math_round. split.
    - change 0%Z with (Qfloor 0). apply Qfloor_resp_le.
      assert (H2 : (0 <= 1 # 2)%Q) by (unfold Qle; simpl; lia). lra.
    - apply (Z.le_trans _ (Qfloor (1000 + (1 # 2))));
        [apply Qfloor_resp_le; lra|apply Z.eq_le_incl; reflexivity]. }
  assert (Hz0 : (0 <= inject_Z z)%Q) by (change 0%Q with (inject_Z 0); rewrite <- Zle_Qle; lia).
  assert (Hz1 : (inject_Z z <= 1000)%Q) by (change 1000%Q with (inject_Z 1000); rewrite <- Zle_Qle; lia).
  split.
  - apply Qle_shift_div_l; [reflexivity|lra].
  - apply Qle_shift_div_r; [reflexivity|lra].
Qed.

Lemma cand_neg_fin : forall a b x y, score a = Fin x -> score b = Fin y ->
  cand_neg a b = true <-> ((y < x)%Q \/ ((y == x)%Q /\ matchedPeaks b < matchedPeaks a)).
Proof.
  intros a b x y Ha Hb. unfold cand_neg. rewrite Ha, Hb. cbn [num_minus truthy].
  destruct (Qeq_bool (y - x) 0) eqn:E; cbn [negb num_neg]; rewrite Qlt_bool_iff.
  - apply Qeq_bool_iff in E.
    change 0%Q with (inject_Z 0). rewrite <- Zlt_Qlt. split.
    + intros H. right. split; [lra|lia].
    + intros [H|[_ H]]; [lra|lia].
  - apply Qeq_bool_neq in E. split.
    + intros H. left. lra.
    + intros [H|[H _]]; [lra|exfalso; apply E; lra].
Qed.

Lemma ranked_of_not_neg : forall a b x y, score a = Fin x -> score b = Fin y ->
  cand_neg b a = false -> ranked_before a b.
Proof.
  intros a b x y Ha Hb Hn. unfold ranked_before. rewrite Ha, Hb.
  assert (Hn' : ~ ((x < y)%Q \/ ((x == y)%Q /\ matchedPeaks a < matchedPeaks b))).
  { rewrite <- (cand_neg_fin b a y x Hb Ha). congruence. }
  destruct (Qlt_le_dec y x) as [H|H]; [left; exact H|].
  destruct (Qlt_le_dec x y) as [H'|H']; [exfalso; apply Hn'; left; exact H'|].
  assert (Hxy : (x == y)%Q) by (apply Qle_antisym; assumption).
  right. split; [exact Hxy|].
  destruct (Z.le_gt_cases (matchedPeaks b) (matchedPeaks a)) as [Hm|Hm]; [exact Hm|].
  exfalso. apply Hn'. right. split; [exact Hxy|lia].
Qed.

Lemma cand_neg_asym : forall a b,
  (exists x, score a = Fin x) -> (exists y, score b = Fin y) ->
  cand_neg a b = true -> cand_neg b a = false.
Proof.
  intros a b [x Ha] [y Hb] H. apply (cand_neg_fin a b x y Ha Hb) in H.
  destruct (cand_neg b a) eqn:E; [|reflexivity].
  apply (cand_neg_fin b a y x Hb Ha) in E. exfalso.
  destruct H as [H|[H1 H2]], E as [E|[E1 E2]]; try lra; lia.
Qed.

Lemma Sorted_weaken : forall (A : Type) (P : A -> Prop) (R1 R2 : A -> A -> Prop) l,
  (forall a b, P a -> P b -> R1 a b -> R2 a b) -> Forall P l -> Sorted R1 l -> Sorted R2 l.
Proof.
  intros A P R1 R2 l Himp Hp Hs. induction Hs as [|a l Hs IH Hd]; [constructor|].
  inversion Hp as [|? ? Pa Pl]; subst. constructor; [apply IH; exact Pl|].
  destruct Hd as [|b l' Hab]; constructor.
  inversion Pl; subst. apply Himp; assumption.
Qed.

Lemma js_slice0_nonneg : forall (A : Type) (l : list A) K, 0 <= K -> js_slice0 l K = firstn (Z.to_nat K) l.
Proof.
  intros A l K HK. unfold js_slice0.
  replace (K <? 0) with false by (symmetry; apply Z.ltb_ge; lia).
  destruct (Z.le_ge_cases K (Z.of_nat (List.length l))) as [H|H].
  - rewrite Z.min_l by exact H. reflexivity.
  - rewrite Z.min_r by exact H. rewrite Nat2Z.id, firstn_all.
    symmetry. apply firstn_all2. lia.
Qed.

Lemma nodup_range_length : forall l n, 0 <= n ->
  NoDup l -> Forall (fun i => 0 <= i < n) l -> Z.of_nat (List.length l) <= n.
Proof.
  intros l n Hn Hnd Hr.
  assert (Hincl : incl l (zrange 0 n)).
  { intros i Hi. rewrite Forall_forall in Hr. specialize (Hr i Hi).
    unfold zrange. apply in_map_iff. exists (Z.to_nat i). split; [lia|].
    apply in_seq. lia. }
  pose proof (NoDup_incl_length Hnd Hincl) as H.
  unfold zrange in H. rewrite length_map, length_seq in H.
  lia.
Qed.

Lemma accumulate_no_peaks : forall db tol t, accumulate db [] tol t = [].
Proof.
  intros db tol t. unfold accumulate.
  apply (fold_left_inv _ _ _ (fun m => m = [])); [reflexivity|].
  intros m [hc e] _ ->. destruct (negb _); reflexivity.
Qed.

Lemma scoreDatabase_fin : forall db P tol minM target, (0 < tol)%Q ->
  scoreDatabase db P tol minM target
  = flat_map (fun '(s, a) =>
       let m := Z.of_nat (List.length (matchedSet a)) in
       if m <? minM then []
       else [mkCand s (hd EmptyString (hoses a)) m
               (Fin (spec_score m (totalError a) (Z.of_nat (List.length P)) tol))])
     (accumulate db P tol target).
Proof.
  intros db P tol minM target Ht. unfold scoreDatabase. apply flat_map_ext.
  intros [s a]. destruct (_ <? minM); [reflexivity|].
  rewrite candidate_score_fin by lra. reflexivity.
Qed.

Lemma scoreDatabase_bounds : forall db P tol minM target, (0 < tol)%Q ->
  forall c, In c (scoreDatabase db P tol minM target) ->
  exists q, score c = Fin q /\ (0 <= q <= 1)%Q.
Proof.
  intros db P tol minM target Ht c Hc. rewrite scoreDatabase_fin in Hc by exact Ht.
  apply in_flat_map in Hc. destruct Hc as [[s a] [Hin Hc]].
  cbv zeta in Hc. destruct (Z.of_nat _ <? minM); [contradiction|]. destruct Hc as [<-|[]].
  eexists. split; [reflexivity|].
  apply accumulate_ok in Hin. destruct Hin as [Hnd [Hr [Hne HE]]].
  apply spec_score_bounds; [|exact HE|exact Ht].
  split; [destruct (matchedSet a); [contradiction|simpl; lia]|].
  apply nodup_range_length; [lia|assumption|assumption].
Qed.

Lemma scoreDatabase_finite : forall db P tol minM target, (0 < tol)%Q ->
  Forall (fun c => exists x, score c = Fin x) (scoreDatabase db P tol minM target).
Proof.
  intros db P tol minM target Ht. apply Forall_forall. intros c Hc.
  destruct (scoreDatabase_bounds _ _ _ _ _ Ht c Hc) as [q [Hq _]]. exists q. exact Hq.
Qed.

Lemma scoreDatabase_no_peaks : forall db tol minM target,
  scoreDatabase db [] tol minM target = [].
Proof. intros. unfold scoreDatabase. rewrite accumulate_no_peaks. reflexivity. Qed.

(** C9: every per-SMILES accumulator records each observed peak index at most
    once; for a positive tolerance each accumulator with at least [minMatches]
    matched peaks yields one candidate whose score is
    [round1000((matched/|P|) * (1 - (E/matched)/tol))], with [E] the
    accumulator's total error; and for a positive tolerance and a non-negative
    [maxResults] the returned list is the first [maxResults] elements of an
    arrangement of the candidates sorted by descending score, ties by larger
    matched-peak count. *)
Theorem estimator_scoring : forall db P tol minM target,
  (forall s a, In (s, a) (accumulate db P tol target) -> NoDup (matchedSet a)) /\
  ((0 < tol)%Q ->
   scoreDatabase db P tol minM target
   = flat_map (fun '(s, a) =>
        let m := Z.of_nat (List.length (matchedSet a)) in
        if m <? minM then []
        else [mkCand s (hd EmptyString (hoses a)) m
                (Fin (spec_score m (totalError a) (Z.of_nat (List.length P)) tol))])
      (accumulate db P tol target)) /\
  (forall o, (0 < tolerance o)%Q -> 0 <= maxResults o ->
   exists sorted,
     Permutation sorted (scoreDatabase db (peaks o) (tolerance o) (minMatches o)
                           (nucleusToShort (nucleus o))) /\
     Sorted ranked_before sorted /\
     fst (estimateFromSpectra db o) = firstn (Z.to_nat (maxResults o)) sorted).
Proof.
  intros db P tol minM target. split; [|split].
  - intros s a Hin. apply accumulate_ok in Hin. destruct Hin as [Hnd _]. exact Hnd.
  - apply scoreDatabase_fin.
  - intros o Ht HK. unfold estimateFromSpectra. destruct (peaks o) as [|p ps] eqn:Ep.
    + exists []. rewrite scoreDatabase_no_peaks. split; [constructor|split; [constructor|]].
      cbn [fst]. destruct (Z.to_nat (maxResults o)); reflexivity.
    + set (cands := scoreDatabase db (p :: ps) (tolerance o) (minMatches o)
                      (nucleusToShort (nucleus o))).
      assert (HP : Forall (fun c => exists x, score c = Fin x) cands)
        by apply scoreDatabase_finite, Ht.
      exists (js_sort cand_neg cands). split; [|split].
      * exact (js_sort_perm cand_neg _ cand_neg_asym cands HP).
      * apply (Sorted_weaken _ (fun c => exists x, score c = Fin x)
                 (fun x y => cand_neg y x = false)).
        -- intros a b [x Ha] [y Hb] H. exact (ranked_of_not_neg a b x y Ha Hb H).
        -- apply Forall_forall. intros c Hc.
           apply (Permutation_in c (js_sort_perm cand_neg _ cand_neg_asym cands HP)) in Hc.
           rewrite Forall_forall in HP. exact (HP c Hc).
        -- exact (js_sort_sorted cand_neg _ cand_neg_asym cands HP).
      * cbn [fst]. apply js_slice0_nonneg. exact HK.
Qed.

Lemma estimator_scoring_witness :
  (0 < 2)%Q /\ 0 <= 50 /\
  exists sorted,
    Permutation sorted
      (scoreDatabase
         [("HHHC(HHC/HHH/)"%string,
           [("n"%string, JStr "C"); ("s"%string, JStr "CC");
            ("A"%string, JStats (mkStats 14 14 14 1))]);
          ("X"%string,
           [("n"%string, JStr "C"); ("s"%string, JStr "CCO");
            ("A"%string, JStats (mkStats 14 14 13 1));
            ("B"%string, JStats (mkStats 14 14 15 3))])]
         [14; 15]%Q 2 1 "C") /\
    Sorted ranked_before sorted /\
    fst (estimateFromSpectra
           [("HHHC(HHC/HHH/)"%string,
             [("n"%string, JStr "C"); ("s"%string, JStr "CC");
              ("A"%string, JStats (mkStats 14 14 14 1))]);
            ("X"%string,
             [("n"%string, JStr "C"); ("s"%string, JStr "CCO");
              ("A"%string, JStats (mkStats 14 14 13 1));
              ("B"%string, JStats (mkStats 14 14 15 3))])]
           (mkOptions "13C" [14; 15]%Q 2 1 50))
    = firstn 50 sorted.
Proof.
  split; [vm_compute; reflexivity|]. split; [lia|].
  exact (proj2 (proj2 (estimator_scoring
    [("HHHC(HHC/HHH/)"%string,
      [("n"%string, JStr "C"); ("s"%string, JStr "CC");
       ("A"%string, JStats (mkStats 14 14 14 1))]);
     ("X"%string,
      [("n"%string, JStr "C"); ("s"%string, JStr "CCO");
       ("A"%string, JStats (mkStats 14 14 13 1));
       ("B"%string, JStats (mkStats 14 14 15 3))])]
    [] 1 0 EmptyString))
    (mkOptions "13C" [14; 15]%Q 2 1 50) ltac:(vm_compute; reflexivity) ltac:(vm_compute; discriminate)).
Defined.

(** C10 counterexample: with tolerance 0 and an observed peak equal to a
    stored average, the average error is [0/0], so the candidate's score is
    NaN, not a number of [0, 1]. *)
Lemma estimator_nan_score_counterexample :
  fst (estimateFromSpectra
         [("HHHC(HHC/HHH/)"%string,
           [("n"%string, JStr "C"); ("s"%string, JStr "CC");
            ("A"%string, JStats (mkStats 14 14 14 1))])]
         (mkOptions "13C" [14]%Q 0 1 50))
  = [mkCand "CC" "HHHC(HHC/HHH/)" 1 NaN].
Proof. vm_compute. reflexivity. Qed.

(** ** Estimator with tolerance 0 *)

Lemma candidate_score_zero_tol : forall m E n tol, (tol == 0)%Q -> (E == 0)%Q ->
  candidate_score m E n tol = NaN.
Proof.
  intros m E n tol Ht HE. unfold candidate_score, js_div.
  assert (H1 : Qeq_bool tol 0 = true) by (apply Qeq_bool_iff; exact Ht).
  assert (H2 : Qeq_bool (E / inject_Z m) 0 = true).
  { apply Qeq_bool_iff. rewrite HE. unfold Qdiv. apply Qmult_0_l. }
  rewrite H1, H2. reflexivity.
Qed.

Lemma acc_ok_zero_tol : forall n tol a, acc_ok n tol a -> (tol == 0)%Q -> (totalError a == 0)%Q.
Proof.
  intros n tol a [_ [_ [_ [H1 H2]]]] Ht. rewrite Ht, Qmult_0_r in H2.
  apply Qle_antisym; assumption.
Qed.

Lemma scoreDatabase_nan : forall db P tol minM t, (tol == 0)%Q ->
  forall c, In c (scoreDatabase db P tol minM t) -> score c = NaN.
Proof.
  intros db P tol minM t Ht c Hc. unfold scoreDatabase in Hc. apply in_flat_map in Hc.
  destruct Hc as [[s a] [Ha Hc]]. destruct (_ <? minM)%Z; [destruct Hc|].
  destruct Hc as [<-|[]]. cbn [score]. apply candidate_score_zero_tol; [exact Ht|].
  exact (acc_ok_zero_tol _ _ _ (accumulate_ok _ _ _ _ _ _ Ha) Ht).
Qed.

(** The accumulator of SMILES [s] holds peak index [i]. *)
Definition has_peak (s : string) (i : Z) (m : list (string * acc)) : Prop :=
  exists a, map_get s m = Some a /\ In i (matchedSet a).

Lemma map_get_set_other : forall k k' v m, String.eqb k' k = false ->
  map_get k' (map_set k v m) = map_get k' m.
Proof.
  intros k k' v m Hne. induction m as [|[k0 x] m IH]; simpl.
  - rewrite Hne. reflexivity.
  - destruct (String.eqb k k0) eqn:E; simpl.
    + apply String.eqb_eq in E. subst k0. rewrite Hne. reflexivity.
    + destruct (String.eqb k' k0); [reflexivity|exact IH].
Qed.

Lemma set_add_in : forall x y s, In x s -> In x (set_add y s).
Proof.
  intros x y s H. unfold set_add. destruct (set_has y s); [exact H|].
  apply in_or_app. left. exact H.
Qed.

Lemma set_add_self : forall y s, In y (set_add y s).
Proof.
  intros y s. unfold set_add. destruct (set_has y s) eqn:E; [apply set_has_spec; exact E|].
  apply in_or_app. right. left. reflexivity.
Qed.

Lemma peak_step_keeps : forall s i hc sm shift P tol m j,
  has_peak s i m -> has_peak s i (peak_step hc sm shift P tol m j).
Proof.
  intros s i hc sm shift P tol m j H. unfold peak_step.
  destruct (Qle_bool _ tol); [|exact H].
  destruct (String.eqb s sm) eqn:Es.
  - apply String.eqb_eq in Es. subst sm. destruct H as [a [Ha Hi]]. rewrite Ha. cbn iota.
    rewrite Ha. destruct (set_has j (matchedSet a)); [exists a; split; assumption|].
    eexists. split; [apply map_get_set_same|]. apply set_add_in. exact Hi.
  - destruct H as [a [Ha Hi]]. exists a. split; [|exact Hi].
    destruct (map_get sm m); cbn iota;
      [destruct (set_has j _)|destruct (set_has j _)];
      repeat rewrite map_get_set_other by exact Es; exact Ha.
Qed.

Lemma peak_step_adds : forall hc sm shift P tol m i,
  Qle_bool (Qabs (shift - nth (Z.to_nat i) P 0%Q)%Q) tol = true ->
  has_peak sm i (peak_step hc sm shift P tol m i).
Proof.
  intros hc sm shift P tol m i H. unfold peak_step. rewrite H.
  destruct (map_get sm m) as [a|] eqn:Eg; cbn iota.
  - rewrite Eg. destruct (set_has i (matchedSet a)) eqn:Eh.
    + exists a. split; [exact Eg|apply set_has_spec; exact Eh].
    + eexists. split; [apply map_get_set_same|apply set_add_self].
  - rewrite map_get_set_same. cbn iota. cbn [matchedSet set_has existsb].
    eexists. split; [apply map_get_set_same|apply set_add_self].
Qed.

Lemma fold_peak_step_keeps : forall s i hc sm shift P tol l m,
  has_peak s i m -> has_peak s i (fold_left (peak_step hc sm shift P tol) l m).
Proof.
  intros s i hc sm shift P tol l. induction l as [|j l IH]; intros m H; simpl; [exact H|].
  apply IH. apply peak_step_keeps. exact H.
Qed.

Lemma zrange_in_iff : forall a b i, a <= i < b -> In i (zrange a b).
Proof.
  intros a b i H. unfold zrange. apply in_map_iff. exists (Z.to_nat (i - a)).
  split; [lia|]. apply in_seq. lia.
Qed.

Lemma accumulate_step_keeps : forall s i P tol t db m,
  has_peak s i m ->
  has_peak s i (fold_left (fun bySmiles '(hoseCode, e) =>
               if negb (String.eqb (field_str "n" e) t) then bySmiles
               else fold_left (peak_step hoseCode (field_str "s" e) (computeWeightedAvg e) P tol)
                              (zrange 0 (Z.of_nat (List.length P))) bySmiles) db m).
Proof.
  intros s i P tol t db. induction db as [|[hc e] db IH]; intros m H; simpl; [exact H|].
  apply IH. destruct (negb _); [exact H|]. apply fold_peak_step_keeps. exact H.
Qed.

Lemma accumulate_has_peak : forall db P tol t k e i,
  In (k, e) db -> field_str "n" e = t -> 0 <= i < Z.of_nat (List.length P) ->
  Qle_bool (Qabs (computeWeightedAvg e - nth (Z.to_nat i) P 0%Q)%Q) tol = true ->
  has_peak (field_str "s" e) i (accumulate db P tol t).
Proof.
  intros db P tol t k e i Hin Hn Hi Hq. unfold accumulate.
  apply in_split in Hin. destruct Hin as [d1 [d2 ->]]. rewrite fold_left_app. cbn [fold_left].
  apply accumulate_step_keeps. rewrite Hn, String.eqb_refl. cbn [negb].
  pose proof (zrange_in_iff 0 (Z.of_nat (List.length P)) i Hi) as Hz.
  apply in_split in Hz. destruct Hz as [l1 [l2 ->]]. rewrite fold_left_app. cbn [fold_left].
  apply fold_peak_step_keeps. apply peak_step_adds. exact Hq.
Qed.

Lemma scoreDatabase_has_peak : forall db P tol minM t s i,
  has_peak s i (accumulate db P tol t) -> minM <= 1 ->
  exists c, In c (scoreDatabase db P tol minM t) /\ csmiles c = s.
Proof.
  intros db P tol minM t s i [a [Ha Hi]] Hm. apply map_get_in in Ha.
  exists (mkCand s (hd EmptyString (hoses a)) (Z.of_nat (List.length (matchedSet a)))
            (candidate_score (Z.of_nat (List.length (matchedSet a))) (totalError a)
               (Z.of_nat (List.length P)) tol)).
  split; [|reflexivity]. unfold scoreDatabase. apply in_flat_map. exists (s, a).
  split; [exact Ha|]. destruct (Z.ltb_spec (Z.of_nat (List.length (matchedSet a))) minM) as [Hl|_].
  - exfalso. destruct (matchedSet a); [contradiction|]. simpl in Hl. lia.
  - left. reflexivity.
Qed.

(** C10 (amended): with no observed peaks the estimator returns no candidate
    and loads no chunk; for a positive tolerance every returned candidate's
    score is a finite number in [0, 1]; for tolerance 0, an observed peak
    equal to the average shift of a database entry of the target nucleus
    matches it (with error 0), giving a candidate for the entry's SMILES,
    and every candidate's score is NaN ([0 / 0]). *)
Theorem estimator_bounds : forall db o,
  (peaks o = [] -> estimateFromSpectra db o = ([], [])) /\
  ((0 < tolerance o)%Q ->
   forall c, In c (fst (estimateFromSpectra db o)) ->
   exists q, score c = Fin q /\ (0 <= q <= 1)%Q) /\
  ((tolerance o == 0)%Q ->
   (forall k e i, In (k, e) db -> field_str "n" e = nucleusToShort (nucleus o) ->
      0 <= i < Z.of_nat (List.length (peaks o)) ->
      (nth (Z.to_nat i) (peaks o) 0 == computeWeightedAvg e)%Q -> minMatches o <= 1 ->
      exists c, In c (scoreDatabase db (peaks o) (tolerance o) (minMatches o)
                        (nucleusToShort (nucleus o))) /\
                csmiles c = field_str "s" e /\ score c = NaN) /\
   (forall c, In c (fst (estimateFromSpectra db o)) -> score c = NaN)).
Proof.
  intros db o. split; [|split].
  - intros H. unfold estimateFromSpectra. rewrite H. reflexivity.
  - intros Ht c Hc. unfold estimateFromSpectra in Hc.
    destruct (peaks o) as [|p ps] eqn:Ep; [destruct Hc|].
    cbn [fst] in Hc. unfold js_slice0 in Hc.
    set (cands := scoreDatabase db (p :: ps) (tolerance o) (minMatches o)
                    (nucleusToShort (nucleus o))) in Hc.
    assert (HP : Forall (fun c => exists x, score c = Fin x) cands)
      by apply scoreDatabase_finite, Ht.
    assert (Hs : In c (js_sort cand_neg cands)).
    { revert Hc. generalize (Z.to_nat (if maxResults o <? 0 then Z.max
        (Z.of_nat (List.length (js_sort cand_neg cands)) + maxResults o) 0
        else Z.min (maxResults o) (Z.of_nat (List.length (js_sort cand_neg cands))))).
      intros n Hc. rewrite <- (firstn_skipn n (js_sort cand_neg cands)).
      apply in_or_app. left. exact Hc. }
    apply (Permutation_in c (js_sort_perm cand_neg _ cand_neg_asym cands HP)) in Hs.
    exact (scoreDatabase_bounds _ _ _ _ _ Ht c Hs).
  - intros Ht. split.
    + intros k e i Hin Hn Hi Hp Hm.
      assert (Hq : Qle_bool (Qabs (computeWeightedAvg e - nth (Z.to_nat i) (peaks o) 0%Q)%Q)
                            (tolerance o) = true).
      { apply Qle_bool_iff. rewrite Hp, Ht. unfold Qminus. rewrite Qplus_opp_r. apply Qle_refl. }
      destruct (scoreDatabase_has_peak _ _ _ (minMatches o) _ _ _
                  (accumulate_has_peak _ _ _ _ _ _ _ Hin Hn Hi Hq) Hm) as [c [Hc Hs]].
      exists c. split; [exact Hc|]. split; [exact Hs|]. exact (scoreDatabase_nan _ _ _ _ _ Ht c Hc).
    + intros c Hc. unfold estimateFromSpectra in Hc.
      destruct (peaks o) as [|p ps]; [destruct Hc|]. cbn [fst] in Hc. unfold js_slice0 in Hc.
      apply In_firstn_any in Hc. apply (Permutation_in c (js_sort_perm_any _ cand_neg _)) in Hc.
      exact (scoreDatabase_nan _ _ _ _ _ Ht c Hc).
Qed.

Lemma estimator_bounds_witness :
  (estimateFromSpectra [] (mkOptions "13C" [] 2 1 50) = ([], [])) /\
  (forall c, In c (fst (estimateFromSpectra
         [("HHHC(HHC/HHH/)"%string,
           [("n"%string, JStr "C"); ("s"%string, JStr "CC");
            ("A"%string, JStats (mkStats 14 14 14 1))])]
         (mkOptions "13C" [14]%Q 2 1 50))) ->
   exists q, score c = Fin q /\ (0 <= q <= 1)%Q) /\
  (exists c, In c (scoreDatabase
         [("HHHC(HHC/HHH/)"%string,
           [("n"%string, JStr "C"); ("s"%string, JStr "CC");
            ("A"%string, JStats (mkStats 14 14 14 1))])]
         [14]%Q 0 1 (nucleusToShort "13C")) /\ csmiles c = "CC"%string /\ score c = NaN) /\
  (forall c, In c (fst (estimateFromSpectra
         [("HHHC(HHC/HHH/)"%string,
           [("n"%string, JStr "C"); ("s"%string, JStr "CC");
            ("A"%string, JStats (mkStats 14 14 14 1))])]
         (mkOptions "13C" [14]%Q 0 1 50))) -> score c = NaN).
Proof.
  split; [|split; [|split]].
  - exact (proj1 (estimator_bounds [] (mkOptions "13C" [] 2 1 50)) eq_refl).
  - exact (proj1 (proj2 (estimator_bounds
       [("HHHC(HHC/HHH/)"%string,
           [("n"%string, JStr "C"); ("s"%string, JStr "CC");
            ("A"%string, JStats (mkStats 14 14 14 1))])]
       (mkOptions "13C" [14]%Q 2 1 50))) ltac:(vm_compute; reflexivity)).
  - exact (proj1 (proj2 (proj2 (estimator_bounds
       [("HHHC(HHC/HHH/)"%string,
           [("n"%string, JStr "C"); ("s"%string, JStr "CC");
            ("A"%string, JStats (mkStats 14 14 14 1))])]
       (mkOptions "13C" [14]%Q 0 1 50))) ltac:(vm_compute; reflexivity))
       "HHHC(HHC/HHH/)"%string [("n"%string, JStr "C"); ("s"%string, JStr "CC");
                               ("A"%string, JStats (mkStats 14 14 14 1))] 0
       ltac:(left; reflexivity) ltac:(vm_compute; reflexivity) ltac:(cbn; lia)
       ltac:(vm_compute; reflexivity) ltac:(cbn; lia)).
  - exact (proj2 (proj2 (proj2 (estimator_bounds
       [("HHHC(HHC/HHH/)"%string,
           [("n"%string, JStr "C"); ("s"%string, JStr "CC");
            ("A"%string, JStats (mkStats 14 14 14 1))])]
       (mkOptions "13C" [14]%Q 0 1 50))) ltac:(vm_compute; reflexivity))).
Defined.

(* ================================================================== *)
(** * Further properties of the code *)

(** ** Nucleus names *)

Lemma upper_not_digit : forall u, is_upper u = true -> is_digit u = false.
Proof.
  intros u H. unfold is_upper, is_digit in *. apply andb_prop in H. destruct H as [H1 H2].
  apply Nat.leb_le in H1, H2. destruct (Nat.leb_spec 48 (nat_of_ascii u)); simpl; [|reflexivity].
  apply Nat.leb_gt. lia.
Qed.

Lemma lower_not_digit : forall u, is_lower u = true -> is_digit u = false.
Proof.
  intros u H. unfold is_lower, is_digit in *. apply andb_prop in H. destruct H as [H1 H2].
  apply Nat.leb_le in H1, H2. destruct (Nat.leb_spec 48 (nat_of_ascii u)); simpl; [|reflexivity].
  apply Nat.leb_gt. lia.
Qed.

Lemma skip_digits_app : forall d s,
  forallb is_digit (list_ascii_of_string d) = true -> skip_digits (d ++ s) = skip_digits s.
Proof.
  induction d as [|c d IH]; intros s H; simpl in *; [reflexivity|].
  apply andb_prop in H. destruct H as [Hc Hd]. rewrite Hc. apply IH. exact Hd.
Qed.

Lemma element_match_shape : forall s e, element_match s = Some e ->
  exists u t, e = String u t /\ is_upper u = true /\
              (t = EmptyString \/ exists l, t = String l EmptyString /\ is_lower l = true).
Proof.
  induction s as [|c s IH]; intros e H; simpl in H; [discriminate|].
  destruct (is_digit c); [|exact (IH e H)].
  destruct (skip_digits s) as [|u r]; [exact (IH e H)|].
  destruct (is_upper u) eqn:Hu; [|exact (IH e H)].
  injection H as <-. exists u. eexists. split; [reflexivity|]. split; [exact Hu|].
  destruct r as [|l r]; [left; reflexivity|].
  destruct (is_lower l) eqn:Hl; [right; exists l; split; [reflexivity|exact Hl]|left; reflexivity].
Qed.

Lemma strip_digits_no_digit : forall s,
  forallb (fun c => negb (is_digit c)) (list_ascii_of_string (strip_digits s)) = true.
Proof.
  induction s as [|c s IH]; simpl; [reflexivity|].
  destruct (is_digit c) eqn:E; simpl; [exact IH|]. rewrite E. exact IH.
Qed.

Lemma element_match_digit_free : forall s,
  forallb (fun c => negb (is_digit c)) (list_ascii_of_string s) = true -> element_match s = None.
Proof.
  induction s as [|c s IH]; intros H; simpl in *; [reflexivity|].
  apply andb_prop in H. destruct H as [Hc Hs]. apply negb_true_iff in Hc. rewrite Hc. exact (IH Hs).
Qed.

Lemma strip_digits_digit_free : forall s,
  forallb (fun c => negb (is_digit c)) (list_ascii_of_string s) = true -> strip_digits s = s.
Proof.
  induction s as [|c s IH]; intros H; simpl in *; [reflexivity|].
  apply andb_prop in H. destruct H as [Hc Hs]. apply negb_true_iff in Hc. rewrite Hc, (IH Hs).
  reflexivity.
Qed.

(** [nucleusToElement] and [nucleusToShort] on an isotope name: a
    non-empty run of digits followed by an upper-case letter yields that
    letter together with the lower-case letter right after it, if any
    (["13C"] to ["C"], ["15N"] to ["N"], ["29Si"] to ["Si"]). *)
Theorem nucleusToElement_isotope : forall d u r,
  d <> EmptyString -> forallb is_digit (list_ascii_of_string d) = true -> is_upper u = true ->
  let el := String u (match r with
                      | String l _ => if is_lower l then String l EmptyString else EmptyString
                      | EmptyString => EmptyString
                      end) in
  nucleusToElement (d ++ String u r) = el /\ nucleusToShort (d ++ String u r) = el.
Proof.
  intros [|c d] u r Hne Hd Hu el; [contradiction|].
  simpl in Hd. apply andb_prop in Hd. destruct Hd as [Hc Hd].
  assert (E : element_match (String c d ++ String u r) = Some el).
  { cbn [element_match append]. rewrite Hc.
    rewrite skip_digits_app by exact Hd. cbn [skip_digits]. rewrite upper_not_digit by exact Hu.
    rewrite Hu. reflexivity. }
  unfold nucleusToElement, nucleusToShort. rewrite E. split; reflexivity.
Qed.

Lemma nucleusToElement_isotope_witness :
  nucleusToElement "29Si" = "Si"%string /\ nucleusToShort "29Si" = "Si"%string.
Proof.
  exact (nucleusToElement_isotope "29" "S" "i" ltac:(discriminate) eq_refl eq_refl).
Defined.

(** [nucleusToElement] never returns a digit, and returns a name without
    digits unchanged. *)
Theorem nucleusToElement_digits : forall s,
  forallb (fun c => negb (is_digit c)) (list_ascii_of_string (nucleusToElement s)) = true /\
  (forallb (fun c => negb (is_digit c)) (list_ascii_of_string s) = true -> nucleusToElement s = s).
Proof.
  intros s. split.
  - unfold nucleusToElement. destruct (element_match s) as [e|] eqn:E; [|apply strip_digits_no_digit].
    destruct (element_match_shape s e E) as [u [t [-> [Hu Ht]]]].
    simpl. rewrite upper_not_digit by exact Hu. simpl.
    destruct Ht as [->|[l [-> Hl]]]; [reflexivity|]. simpl. rewrite lower_not_digit by exact Hl.
    reflexivity.
  - intros H. unfold nucleusToElement. rewrite element_match_digit_free by exact H.
    apply strip_digits_digit_free. exact H.
Qed.

Lemma nucleusToElement_digits_witness :
  nucleusToElement "Si" = "Si"%string.
Proof. exact (proj2 (nucleusToElement_digits "Si") eq_refl). Defined.

(** ** Store API over the chunk files *)

Lemma cache_get_app : forall i j d c,
  cache_get i (c ++ [(j, d)])%list
  = match cache_get i c with Some x => Some x | None => if Z.eqb i j then Some d else None end.
Proof.
  intros i j d c. induction c as [|[j0 d0] c IH]; simpl; [reflexivity|].
  destruct (Z.eqb i j0); [reflexivity|exact IH].
Qed.

Lemma loadChunk_spec : forall files i c, cache_ok files c ->
  fst (loadChunk files i c) = nth (Z.to_nat i) files [] /\
  cache_ok files (snd (loadChunk files i c)) /\
  cache_get i (snd (loadChunk files i c)) = Some (fst (loadChunk files i c)) /\
  (forall j x, cache_get j c = Some x -> cache_get j (snd (loadChunk files i c)) = Some x).
Proof.
  intros files i c Hok. unfold loadChunk. destruct (cache_get i c) as [d|] eqn:E; simpl.
  - split; [exact (Hok i d E)|]. split; [exact Hok|]. split; [exact E|]. auto.
  - split; [reflexivity|]. split; [|split].
    + intros j x H. rewrite cache_get_app in H. destruct (cache_get j c) eqn:Ej.
      * injection H as ->. exact (Hok j _ Ej).
      * destruct (Z.eqb_spec j i); [injection H as <-; subst; reflexivity|discriminate].
    + rewrite cache_get_app, E, Z.eqb_refl. reflexivity.
    + intros j x H. rewrite cache_get_app, H. reflexivity.
Qed.

Lemma loadChunk_cached : forall files i c d,
  cache_get i c = Some d -> loadChunk files i c = (d, c).
Proof. intros files i c d H. unfold loadChunk. rewrite H. reflexivity. Qed.

Lemma cache_ok_nil : forall files, cache_ok files [].
Proof. intros files i d H. discriminate. Qed.

(** The sharded [queryHose] over the sharder's chunk files returns what the
    monolithic [queryHose] returns on the unsharded database, for every
    HOSE code and from every cache holding file contents; afterwards the
    code's chunk is cached and the cache still holds file contents. *)
Theorem queryHose_sharded_agrees : forall db, NoDup (map fst db) ->
  forall c k, cache_ok (shard db) c ->
  fst (queryHose_sharded (shard db) k c) = queryHose_db db k /\
  cache_ok (shard db) (snd (queryHose_sharded (shard db) k c)) /\
  cache_get (Database.chunkIndex k) (snd (queryHose_sharded (shard db) k c)) <> None.
Proof.
  intros db Hnd c k Hok. unfold queryHose_sharded.
  destruct (loadChunk_spec (shard db) (Database.chunkIndex k) c Hok) as [H1 [H2 [H3 _]]].
  destruct (loadChunk (shard db) (Database.chunkIndex k) c) as [ch c'] eqn:E.
  simpl in *. split; [|split; [exact H2|rewrite H3; discriminate]].
  unfold queryHose_db. rewrite H1, (shard_spec _ db Hnd k), Nat.eqb_refl. reflexivity.
Qed.

Lemma queryHose_sharded_agrees_witness :
  fst (queryHose_sharded
         (shard [([72; 67]%Z, [("s"%string, JStr "C")])]) [72; 67]%Z [])
  = queryHose_db [([72; 67]%Z, [("s"%string, JStr "C")])] [72; 67]%Z.
Proof.
  exact (proj1 (queryHose_sharded_agrees [([72; 67]%Z, [("s"%string, JStr "C")])]
                  ltac:(apply NoDup_cons; [simpl; tauto|constructor])
                  [] [72; 67]%Z (cache_ok_nil _))).
Defined.

Lemma set_add_fold_in : forall (f : list Z -> Z) hs s x,
  In x (fold_left (fun s h => set_add (f h) s) hs s) <-> In x s \/ exists h, In h hs /\ f h = x.
Proof.
  intros f hs. induction hs as [|h hs IH]; intros s x; simpl.
  - split; [auto|]. intros [H|[h [[] _]]]. exact H.
  - rewrite IH. unfold set_add. split.
    + intros [H|[h' [Hh' Hx]]].
      * destruct (set_has (f h) s); [left; exact H|].
        apply in_app_or in H. destruct H as [H|[H|[]]]; [left; exact H|].
        right. exists h. split; [left; reflexivity|exact H].
      * right. exists h'. split; [right; exact Hh'|exact Hx].
    + intros [H|[h' [[<-|Hh'] Hx]]].
      * left. destruct (set_has (f h) s); [exact H|apply in_or_app; left; exact H].
      * left. destruct (set_has (f h) s) eqn:E.
        -- apply set_has_spec in E. subst. exact E.
        -- apply in_or_app. right. left. exact Hx.
      * right. exists h'. split; assumption.
Qed.

Lemma load_all_spec : forall files idxs c, cache_ok files c ->
  let c' := fold_left (fun c i => snd (loadChunk files i c)) idxs c in
  cache_ok files c' /\
  (forall i, In i idxs -> cache_get i c' <> None) /\
  (forall j x, cache_get j c = Some x -> cache_get j c' = Some x).
Proof.
  intros files idxs. induction idxs as [|i idxs IH]; intros c Hok; simpl.
  - split; [exact Hok|]. split; [intros i []|auto].
  - destruct (loadChunk_spec files i c Hok) as [_ [H2 [H3 H4]]].
    destruct (IH _ H2) as [B1 [B2 B3]]. split; [exact B1|]. split.
    + intros j [<-|Hj]; [|exact (B2 j Hj)]. rewrite (B3 _ _ H3). discriminate.
    + intros j x H. apply B3, H4, H.
Qed.

(** After [preloadChunks(hoseCodes)], the cache still holds file
    contents and keeps what it held, and a query for any of the preloaded
    HOSE codes loads no further chunk. *)
Theorem preloadChunks_then_cached : forall files hs c, cache_ok files c ->
  let c' := preloadChunks files hs c in
  cache_ok files c' /\
  (forall j x, cache_get j c = Some x -> cache_get j c' = Some x) /\
  (forall h, In h hs -> snd (queryHose_sharded files h c') = c').
Proof.
  intros files hs c Hok. cbv zeta. unfold preloadChunks.
  set (idxs := fold_left (fun s h => set_add (Database.chunkIndex h) s) hs []).
  destruct (load_all_spec files idxs c Hok) as [B1 [B2 B3]].
  split; [exact B1|]. split; [exact B3|].
  intros h Hh. unfold queryHose_sharded.
  assert (Hi : In (Database.chunkIndex h) idxs)
    by (apply set_add_fold_in; right; exists h; split; [exact Hh|reflexivity]).
  specialize (B2 _ Hi).
  destruct (cache_get (Database.chunkIndex h) _) as [d|] eqn:E; [|contradiction].
  rewrite (loadChunk_cached _ _ _ _ E). reflexivity.
Qed.

Lemma preloadChunks_then_cached_witness :
  snd (queryHose_sharded [] [72; 67]%Z (preloadChunks [] [[72; 67]%Z] []))
  = preloadChunks [] [[72; 67]%Z] [].
Proof.
  exact (proj2 (proj2 (preloadChunks_then_cached [] [[72; 67]%Z] [] (cache_ok_nil _)))
           [72; 67]%Z (or_introl eq_refl)).
Defined.

Lemma obj_get_assign : forall (src t : chunk) k,
  obj_get k (object_assign t src)
  = match obj_get k (rev src) with Some v => Some v | None => obj_get k t end.
Proof.
  induction src as [|[k0 v0] src IH]; intros t k; simpl; [reflexivity|].
  unfold object_assign in *. rewrite IH, obj_get_app.
  destruct (obj_get k (rev src)); [reflexivity|]. rewrite obj_get_set. simpl.
  destruct (key_eqb k k0); reflexivity.
Qed.

Lemma obj_set_keys_in : forall V k (v : V) o x,
  In x (map fst (obj_set k v o)) <-> x = k \/ In x (map fst o).
Proof.
  intros V k v o x. induction o as [|[k0 v0] o IH]; simpl.
  - firstorder congruence.
  - destruct (key_eqb k k0) eqn:E; simpl.
    + apply key_eqb_spec in E. subst. firstorder congruence.
    + rewrite IH. firstorder congruence.
Qed.

Lemma obj_set_nodup : forall V k (v : V) o, NoDup (map fst o) -> NoDup (map fst (obj_set k v o)).
Proof.
  intros V k v o. induction o as [|[k0 v0] o IH]; simpl; intros H.
  - constructor; [intros []|constructor].
  - inversion H as [|? ? Hn Hnd]; subst.
    destruct (key_eqb k k0) eqn:E; simpl; [exact H|].
    constructor; [|exact (IH Hnd)].
    rewrite obj_set_keys_in. intros [Hk|Hk]; [|exact (Hn Hk)].
    rewrite Hk in E. rewrite (proj2 (key_eqb_spec k k) eq_refl) in E. discriminate.
Qed.

Lemma obj_get_rev : forall V k (o : list (list Z * V)), NoDup (map fst o) ->
  obj_get k (rev o) = obj_get k o.
Proof.
  intros V k o. induction o as [|[k0 v0] o IH]; simpl; intros H; [reflexivity|].
  inversion H as [|? ? Hn Hnd]; subst. rewrite obj_get_app, (IH Hnd). simpl.
  destruct (key_eqb k k0) eqn:E.
  - apply key_eqb_spec in E. subst. rewrite obj_get_notin by exact Hn. reflexivity.
  - destruct (obj_get k o); reflexivity.
Qed.

Lemma Forall_update_nth : forall A (P : A -> Prop) n f l,
  (forall x, P x -> P (f x)) -> Forall P l -> Forall P (update_nth n f l).
Proof.
  intros A P n f l Hf. revert n. induction l as [|x l IH]; intros n H; [destruct n; constructor|].
  inversion H; subst. destruct n; simpl; constructor; auto.
Qed.

Lemma shard_buckets : forall V (db : list (list Z * V)),
  List.length (shard db) = 256%nat /\ Forall (fun b => NoDup (map fst b)) (shard db).
Proof.
  intros V db. unfold shard.
  apply (fold_left_inv _ _ _ (fun B => List.length B = 256%nat /\
                                       Forall (fun b => NoDup (map fst b)) B)).
  - split; [reflexivity|]. apply Forall_forall. intros b Hb. apply repeat_spec in Hb. subst.
    constructor.
  - intros B [k v] _ [HL HF]. split; [rewrite update_nth_length; exact HL|].
    apply Forall_update_nth; [|exact HF]. intros x Hx. apply obj_set_nodup, Hx.
Qed.

Lemma map_nth_zrange : forall A (l : list A) d,
  map (fun i => nth (Z.to_nat i) l d) (zrange 0 (Z.of_nat (List.length l))) = l.
Proof.
  intros A l d. unfold zrange. rewrite map_map, Z.sub_0_r, Nat2Z.id.
  rewrite (map_ext (fun k => nth (Z.to_nat (0 + Z.of_nat k)) l d) (fun k => nth k l d))
    by (intros k; rewrite Z.add_0_l, Nat2Z.id; reflexivity).
  induction l as [|x l IH]; simpl; [reflexivity|]. f_equal.
  rewrite <- seq_shift, map_map. exact IH.
Qed.

Lemma load_collect : forall files idxs acc c, cache_ok files c ->
  let r := fold_left (fun '(acc, c) i =>
                        let '(d, c1) := loadChunk files i c in ((acc ++ [d])%list, c1))
                     idxs (acc, c) in
  fst r = (acc ++ map (fun i => nth (Z.to_nat i) files []) idxs)%list /\
  cache_ok files (snd r) /\ (forall i, In i idxs -> cache_get i (snd r) <> None) /\
  (forall j x, cache_get j c = Some x -> cache_get j (snd r) = Some x).
Proof.
  intros files idxs. induction idxs as [|i idxs IH]; intros acc c Hok; simpl.
  - rewrite app_nil_r. split; [reflexivity|]. split; [exact Hok|]. split; [intros i []|auto].
  - destruct (loadChunk_spec files i c Hok) as [H1 [H2 [H3 H4]]].
    destruct (loadChunk files i c) as [d c1] eqn:E. simpl in H1, H2, H3, H4. subst d.
    destruct (IH (acc ++ [nth (Z.to_nat i) files []])%list c1 H2) as [B1 [B2 [B3 B4]]].
    split; [rewrite B1, <- app_assoc; reflexivity|]. split; [exact B2|]. split.
    + intros j [<-|Hj]; [|exact (B3 j Hj)]. rewrite (B4 _ _ H3). discriminate.
    + intros j x H. apply B4, H4, H.
Qed.

Lemma obj_get_assign_all : forall k (chunks : list chunk) t,
  Forall (fun b => NoDup (map fst b)) chunks ->
  obj_get k (fold_left object_assign chunks t)
  = fold_left (fun r ch => match obj_get k ch with Some v => Some v | None => r end)
              chunks (obj_get k t).
Proof.
  intros k chunks. induction chunks as [|ch chunks IH]; intros t H; simpl; [reflexivity|].
  inversion H as [|? ? Hch Hrest]; subst. rewrite IH by exact Hrest.
  rewrite obj_get_assign, obj_get_rev by exact Hch. reflexivity.
Qed.

Lemma fold_first_some_none : forall k (chunks : list chunk) acc,
  (forall i, obj_get k (nth i chunks []) = None) ->
  fold_left (fun r ch => match obj_get k ch with Some v => Some v | None => r end) chunks acc = acc.
Proof.
  intros k chunks. induction chunks as [|ch chunks IH]; intros acc H; simpl; [reflexivity|].
  pose proof (H 0%nat) as H0; simpl in H0; rewrite H0. apply IH. intros i. exact (H (S i)).
Qed.

Lemma fold_first_some_at : forall k (chunks : list chunk) j r acc,
  (forall i, obj_get k (nth i chunks []) = if Nat.eqb i j then r else None) ->
  (j < List.length chunks)%nat ->
  fold_left (fun r ch => match obj_get k ch with Some v => Some v | None => r end) chunks acc
  = match r with Some v => Some v | None => acc end.
Proof.
  intros k chunks. induction chunks as [|ch chunks IH]; intros j r acc H Hj; simpl in *; [lia|].
  destruct j as [|j].
  - pose proof (H 0%nat) as H0; simpl in H0; rewrite H0.
    apply fold_first_some_none. intros i. pose proof (H (S i)) as Hi. simpl in Hi.
    destruct i; exact Hi.
  - pose proof (H 0%nat) as H0; simpl in H0; rewrite H0. apply (IH j r); [|lia].
    intros i. exact (H (S i)).
Qed.

(** [loadDatabase()] over the sharder's chunk files merges them back into
    the unsharded database: every HOSE code has the entry it had there.
    Afterwards all [NUM_CHUNKS] chunks are cached. *)
Theorem loadDatabase_merges : forall db, NoDup (map fst db) ->
  forall c, cache_ok (shard db) c ->
  (forall k, obj_get k (fst (loadDatabase (shard db) c)) = obj_get k db) /\
  cache_ok (shard db) (snd (loadDatabase (shard db) c)) /\
  (forall i, 0 <= i < NUM_CHUNKS -> cache_get i (snd (loadDatabase (shard db) c)) <> None).
Proof.
  intros db Hnd c Hok. destruct (shard_buckets _ db) as [HL HF].
  destruct (load_collect (shard db) (zrange 0 NUM_CHUNKS) [] c Hok) as [B1 [B2 [B3 _]]].
  unfold loadDatabase.
  destruct (fold_left _ (zrange 0 NUM_CHUNKS) ([], c)) as [chunks c'] eqn:E.
  cbn [fst snd] in B1, B2, B3 |- *. split; [|split; [exact B2|]].
  - intros k. rewrite B1, app_nil_l.
    replace NUM_CHUNKS with (Z.of_nat (List.length (shard db))) by (rewrite HL; reflexivity).
    rewrite map_nth_zrange, obj_get_assign_all by exact HF. cbn [obj_get].
    rewrite (fold_first_some_at k (shard db) (Z.to_nat (Database.chunkIndex k)) (obj_get k db)).
    + destruct (obj_get k db); reflexivity.
    + exact (shard_spec _ db Hnd k).
    + apply (Nat.lt_le_trans _ 256); [pose proof (chunkIndex_range k); lia|].
      apply Nat.eq_le_incl. symmetry. exact HL.
  - intros i Hi. apply B3. unfold zrange. apply in_map_iff. exists (Z.to_nat i).
    split; [lia|]. apply in_seq. unfold NUM_CHUNKS in *. lia.
Qed.

Lemma loadDatabase_merges_witness :
  obj_get [72; 67]%Z (fst (loadDatabase (shard [([72; 67]%Z, [("s"%string, JStr "C")])]) []))
  = Some [("s"%string, JStr "C")].
Proof.
  exact (proj1 (loadDatabase_merges [([72; 67]%Z, [("s"%string, JStr "C")])]
                  ltac:(apply NoDup_cons; [simpl; tauto|constructor])
                  [] (cache_ok_nil _)) [72; 67]%Z).
Defined.

(** ** Zero-padded scores *)

Lemma digits_of_dstr : forall k n acc fuel,
  0 <= n < 10 ^ Z.of_nat (S k) -> (k = 0%nat \/ 10 ^ Z.of_nat k <= n) -> (S k <= fuel)%nat ->
  digits_of fuel n acc = (dstr (S k) n ++ acc)%string.
Proof.
  induction k as [|k IH]; intros n acc fuel Hn Hk Hf;
    destruct fuel as [|f]; try lia; simpl.
  - simpl in Hn. replace (n <? 10) with true by (symmetry; apply Z.ltb_lt; lia).
    reflexivity.
  - destruct Hk as [Hk|Hk]; [discriminate|].
    rewrite Nat2Z.inj_succ, Z.pow_succ_r in Hn, Hk by lia.
    rewrite Nat2Z.inj_succ, Z.pow_succ_r in Hn by lia.
    pose proof (Z.pow_pos_nonneg 10 (Z.of_nat k) ltac:(lia) ltac:(lia)) as Hp.
    replace (n <? 10) with false by (symmetry; apply Z.ltb_ge; nia).
    rewrite (IH (n / 10) (String (digit_char (n mod 10)) acc) f).
    + rewrite (string_app_assoc _ (String (digit_char (n mod 10)) EmptyString)). reflexivity.
    + rewrite Nat2Z.inj_succ, Z.pow_succ_r by lia. split; [apply Z.div_pos; lia|].
      apply Z.div_lt_upper_bound; lia.
    + destruct k as [|k']; [left; reflexivity|right]. apply Z.div_le_lower_bound; lia.
    + lia.
Qed.

Lemma string_length_app : forall a b : string,
  String.length (a ++ b) = (String.length a + String.length b)%nat.
Proof. induction a as [|c a IH]; intros b; simpl; [reflexivity|]. rewrite IH. reflexivity. Qed.

Lemma string_app_nil_r : forall a : string, (a ++ EmptyString)%string = a.
Proof. induction a as [|c a IH]; simpl; [reflexivity|]. rewrite IH. reflexivity. Qed.

Lemma dstr_length : forall k n, String.length (dstr k n) = k.
Proof.
  induction k as [|k IH]; intros n; simpl; [reflexivity|].
  rewrite string_length_app. rewrite IH. simpl. lia.
Qed.

Lemma dstr_pad_zero : forall j n, 0 <= n < 10 ^ Z.of_nat j ->
  dstr (S j) n = ("0" ++ dstr j n)%string.
Proof.
  induction j as [|j IH]; intros n Hn.
  - simpl in Hn. assert (n = 0) by lia. subst. reflexivity.
  - rewrite Nat2Z.inj_succ, Z.pow_succ_r in Hn by lia.
    change (dstr (S (S j)) n) with
      (dstr (S j) (n / 10) ++ String (digit_char (n mod 10)) EmptyString)%string.
    rewrite IH.
    + reflexivity.
    + split; [apply Z.div_pos; lia|]. apply Z.div_lt_upper_bound; lia.
Qed.

Lemma pad_loop_dstr : forall f m n, 0 <= n < 10 ^ Z.of_nat m -> (m <= 6)%nat -> (6 - m <= f)%nat ->
  Hose.pad_loop f (dstr m n) = dstr 6 n.
Proof.
  induction f as [|f IH]; intros m n Hn Hm Hf.
  - assert (m = 6%nat) by lia. subst. reflexivity.
  - cbn [Hose.pad_loop]. rewrite dstr_length. destruct (Nat.ltb_spec m 6) as [Hlt|Hge].
    + rewrite <- dstr_pad_zero by lia. apply IH; [|lia|lia].
      rewrite Nat2Z.inj_succ, Z.pow_succ_r by lia.
      pose proof (Z.pow_pos_nonneg 10 (Z.of_nat m) ltac:(lia) ltac:(lia)). lia.
    + assert (m = 6%nat) by lia. subst. reflexivity.
Qed.

Lemma string_compare_app : forall a b c d : string, String.length a = String.length b ->
  String.compare (a ++ c) (b ++ d)
  = match String.compare a b with Eq => String.compare c d | r => r end.
Proof.
  induction a as [|x a IH]; intros b c d Hl; destruct b as [|y b]; simpl in *; try discriminate.
  - reflexivity.
  - destruct (Ascii.compare x y); [apply IH; congruence|reflexivity|reflexivity].
Qed.

Lemma digit_char_compare : forall d1 d2, 0 <= d1 < 10 -> 0 <= d2 < 10 ->
  Ascii.compare (digit_char d1) (digit_char d2) = Z.compare d1 d2.
Proof.
  intros d1 d2 H1 H2.
  assert (d1 = 0 \/ d1 = 1 \/ d1 = 2 \/ d1 = 3 \/ d1 = 4 \/ d1 = 5 \/ d1 = 6 \/ d1 = 7 \/ d1 = 8 \/ d1 = 9)
    as D1 by lia.
  assert (d2 = 0 \/ d2 = 1 \/ d2 = 2 \/ d2 = 3 \/ d2 = 4 \/ d2 = 5 \/ d2 = 6 \/ d2 = 7 \/ d2 = 8 \/ d2 = 9)
    as D2 by lia.
  repeat (destruct D1 as [D1|D1]; [subst d1|]); try (subst d1);
  repeat (destruct D2 as [D2|D2]; [subst d2|]); try (subst d2); reflexivity.
Qed.

Lemma dstr_compare : forall k a b, 0 <= a < 10 ^ Z.of_nat k -> 0 <= b < 10 ^ Z.of_nat k ->
  String.compare (dstr k a) (dstr k b) = Z.compare a b.
Proof.
  induction k as [|k IH]; intros a b Ha Hb.
  - simpl in *. assert (a = 0) by lia. assert (b = 0) by lia. subst. reflexivity.
  - rewrite Nat2Z.inj_succ, Z.pow_succ_r in Ha, Hb by lia.
    change (dstr (S k) a) with (dstr k (a / 10) ++ String (digit_char (a mod 10)) EmptyString)%string.
    change (dstr (S k) b) with (dstr k (b / 10) ++ String (digit_char (b mod 10)) EmptyString)%string.
    rewrite string_compare_app by (rewrite !dstr_length; reflexivity).
    rewrite IH.
    + cbn [String.compare]. rewrite digit_char_compare by (apply Z.mod_pos_bound; lia).
      assert (Ea : a = 10 * (a / 10) + a mod 10) by (apply Z.div_mod; lia).
      assert (Eb : b = 10 * (b / 10) + b mod 10) by (apply Z.div_mod; lia).
      pose proof (Z.mod_pos_bound a 10 ltac:(lia)). pose proof (Z.mod_pos_bound b 10 ltac:(lia)).
      destruct (Z.compare_spec (a / 10) (b / 10)) as [E|E|E].
      * destruct (Z.compare_spec (a mod 10) (b mod 10)) as [F|F|F]; symmetry.
        -- apply Z.compare_eq_iff. lia.
        -- apply Z.compare_lt_iff. lia.
        -- apply Z.compare_gt_iff. lia.
      * symmetry. apply Z.compare_lt_iff. lia.
      * symmetry. apply Z.compare_gt_iff. lia.
    + split; [apply Z.div_pos; lia|]. apply Z.div_lt_upper_bound; lia.
    + split; [apply Z.div_pos; lia|]. apply Z.div_lt_upper_bound; lia.
Qed.

Lemma js_String_dstr : forall n, 0 <= n < 1000000 ->
  exists k, (k <= 6)%nat /\ n < 10 ^ Z.of_nat k /\ js_String n = dstr k n.
Proof.
  intros n Hn. unfold js_String.
  replace (n <? 0) with false by (symmetry; apply Z.ltb_ge; lia).
  assert (Hl : forall m, 10 ^ Z.of_nat m <= n -> (m <= Z.to_nat (Z.log2 n))%nat).
  { intros m Hm. assert (2 ^ Z.of_nat m <= 10 ^ Z.of_nat m)
      by (apply Z.pow_le_mono_l; lia).
    assert (Z.of_nat m <= Z.log2 n).
    { rewrite <- (Z.log2_pow2 (Z.of_nat m)) by lia. apply Z.log2_le_mono. lia. }
    lia. }
  assert (n < 10 \/ 10 <= n < 100 \/ 100 <= n < 1000 \/ 1000 <= n < 10000 \/
          10000 <= n < 100000 \/ 100000 <= n < 1000000) as C by lia.
  destruct C as [C|[C|[C|[C|[C|C]]]]].
  - exists 1%nat. split; [lia|]. split; [simpl; lia|].
    rewrite (digits_of_dstr 0) by (first [left; reflexivity | right; simpl; lia | simpl; lia]).
    apply string_app_nil_r.
  - exists 2%nat. split; [lia|]. split; [simpl; lia|].
    pose proof (Hl 1%nat ltac:(simpl; lia)).
    rewrite (digits_of_dstr 1) by (first [left; reflexivity | right; simpl; lia | simpl; lia]).
    apply string_app_nil_r.
  - exists 3%nat. split; [lia|]. split; [simpl; lia|].
    pose proof (Hl 2%nat ltac:(simpl; lia)).
    rewrite (digits_of_dstr 2) by (first [left; reflexivity | right; simpl; lia | simpl; lia]).
    apply string_app_nil_r.
  - exists 4%nat. split; [lia|]. split; [simpl; lia|].
    pose proof (Hl 3%nat ltac:(simpl; lia)).
    rewrite (digits_of_dstr 3) by (first [left; reflexivity | right; simpl; lia | simpl; lia]).
    apply string_app_nil_r.
  - exists 5%nat. split; [lia|]. split; [simpl; lia|].
    pose proof (Hl 4%nat ltac:(simpl; lia)).
    rewrite (digits_of_dstr 4) by (first [left; reflexivity | right; simpl; lia | simpl; lia]).
    apply string_app_nil_r.
  - exists 6%nat. split; [lia|]. split; [simpl; lia|].
    pose proof (Hl 5%nat ltac:(simpl; lia)).
    rewrite (digits_of_dstr 5) by (first [left; reflexivity | right; simpl; lia | simpl; lia]).
    apply string_app_nil_r.
Qed.

(** [padScore] of a score below [10^6] is its six-digit zero-padded
    numeral, so comparing padded scores as strings (as the stringscore
    sort does) compares the scores as numbers. *)
Theorem padScore_order : forall a b, 0 <= a < 1000000 -> 0 <= b < 1000000 ->
  Hose.padScore a = dstr 6 a /\ String.length (Hose.padScore a) = 6%nat /\
  js_str_gt (Hose.padScore a) (Hose.padScore b) = (b <? a).
Proof.
  assert (P : forall n, 0 <= n < 1000000 -> Hose.padScore n = dstr 6 n).
  { intros n Hn. destruct (js_String_dstr n Hn) as [k [Hk [Hlt E]]].
    unfold Hose.padScore. rewrite E. apply pad_loop_dstr; lia. }
  intros a b Ha Hb. rewrite !P by assumption.
  split; [reflexivity|]. split; [apply dstr_length|].
  unfold js_str_gt. rewrite dstr_compare by (simpl; lia).
  destruct (Z.compare_spec a b); destruct (Z.ltb_spec b a); lia || reflexivity.
Qed.

Lemma padScore_order_witness :
  Hose.padScore 42 = "000042"%string /\ js_str_gt (Hose.padScore 42) (Hose.padScore 7) = true.
Proof.
  destruct (padScore_order 42 7 ltac:(lia) ltac:(lia)) as [A [_ C]].
  split; [rewrite A; reflexivity|rewrite C; reflexivity].
Defined.

(** ** Estimator provenance *)

Lemma NoDup_firstn_any : forall A n (l : list A), NoDup l -> NoDup (firstn n l).
Proof.
  intros A n l H. rewrite <- (firstn_skipn n l) in H. apply NoDup_app_remove_r in H. exact H.
Qed.

Lemma map_set_keys : forall k v m k',
  In k' (map fst (map_set k v m)) <-> k' = k \/ In k' (map fst m).
Proof.
  intros k v m k'. induction m as [|[k0 x] m IH]; simpl.
  - firstorder congruence.
  - destruct (String.eqb k k0) eqn:E; simpl.
    + apply String.eqb_eq in E. subst. firstorder congruence.
    + rewrite IH. firstorder congruence.
Qed.

Lemma map_set_nodup : forall k v m, NoDup (map fst m) -> NoDup (map fst (map_set k v m)).
Proof.
  intros k v m. induction m as [|[k0 x] m IH]; simpl; intros H.
  - repeat constructor. simpl. tauto.
  - inversion H as [|? ? Hn Hnd]; subst.
    destruct (String.eqb k k0) eqn:E; simpl; constructor; try assumption.
    + rewrite map_set_keys. intros [Hk|Hk]; [|contradiction].
      subst. rewrite String.eqb_refl in E. discriminate.
    + apply IH. exact Hnd.
Qed.

Lemma peak_step_src : forall db P tol t hc e m i,
  In (hc, e) db -> field_str "n" e = t -> 0 <= i < Z.of_nat (List.length P) ->
  src_inv db P tol t m ->
  src_inv db P tol t (peak_step hc (field_str "s" e) (computeWeightedAvg e) P tol m i).
Proof.
  intros db P tol t hc e m i Hin Hn Hi [Hnd Hm]. unfold peak_step.
  set (s := field_str "s" e).
  set (err := Qabs (computeWeightedAvg e - nth (Z.to_nat i) P 0%Q)%Q).
  destruct (Qle_bool err tol) eqn:Ele; [|split; assumption].
  apply Qle_bool_iff in Ele.
  assert (Hnew : forall h, h = hc -> exists e0, In (h, e0) db /\ field_str "n" e0 = t /\
            field_str "s" e0 = s /\ exists i0, 0 <= i0 < Z.of_nat (List.length P) /\
            (Qabs (computeWeightedAvg e0 - nth (Z.to_nat i0) P 0) <= tol)%Q).
  { intros h ->. exists e. split; [exact Hin|]. split; [exact Hn|]. split; [reflexivity|].
    exists i. split; [exact Hi|exact Ele]. }
  destruct (map_get s m) as [a0|] eqn:Eg.
  - cbn iota. rewrite Eg. destruct (set_has i (matchedSet a0)) eqn:Eh; [split; assumption|].
    split; [apply map_set_nodup; exact Hnd|].
    intros k a H. apply map_set_in in H. destruct H as [[-> ->]|H]; [|exact (Hm _ _ H)].
    destruct (Hm s a0 (map_get_in _ _ _ Eg)) as [HL HF].
    unfold acc_src, set_add. simpl. rewrite Eh. split.
    + rewrite !length_app, HL. reflexivity.
    + apply Forall_app. split; [exact HF|]. constructor; [apply Hnew; reflexivity|constructor].
  - cbn iota. rewrite map_get_set_same. cbn iota. simpl set_has. cbn iota.
    rewrite map_set_set. split; [apply map_set_nodup; exact Hnd|].
    intros k a H. apply map_set_in in H. destruct H as [[-> ->]|H]; [|exact (Hm _ _ H)].
    unfold acc_src. simpl. split; [reflexivity|].
    constructor; [apply Hnew; reflexivity|constructor].
Qed.

Lemma accumulate_src : forall db P tol t, src_inv db P tol t (accumulate db P tol t).
Proof.
  intros db P tol t. unfold accumulate.
  apply fold_left_inv.
  - split; [constructor|intros s a []].
  - intros m [hc e] Hin Hm. destruct (negb _) eqn:En; [exact Hm|].
    apply negb_false_iff, String.eqb_eq in En.
    apply fold_left_inv; [exact Hm|].
    intros m' i Hi Hm'. apply peak_step_src; try assumption.
    apply zrange_in in Hi. lia.
Qed.

Lemma scoreDatabase_src : forall db P tol minM t,
  NoDup (map csmiles (scoreDatabase db P tol minM t)) /\
  forall c, In c (scoreDatabase db P tol minM t) ->
    exists a, In (csmiles c, a) (accumulate db P tol t) /\
      chose c = hd EmptyString (hoses a) /\
      matchedPeaks c = Z.of_nat (List.length (matchedSet a)) /\ minM <= matchedPeaks c.
Proof.
  intros db P tol minM t. unfold scoreDatabase.
  destruct (accumulate_src db P tol t) as [Hnd _].
  revert Hnd. generalize (accumulate db P tol t) as l. intros l Hl.
  assert (Mem : forall c, In c (flat_map (fun '(smiles, a) =>
              let matched := Z.of_nat (List.length (matchedSet a)) in
              if (matched <? minM)%Z then []
              else [mkCand smiles (hd EmptyString (hoses a)) matched
                           (candidate_score matched (totalError a)
                              (Z.of_nat (List.length P)) tol)]) l) ->
    exists a, In (csmiles c, a) l /\ chose c = hd EmptyString (hoses a) /\
      matchedPeaks c = Z.of_nat (List.length (matchedSet a)) /\ minM <= matchedPeaks c).
  { intros c Hc. apply in_flat_map in Hc. destruct Hc as [[s a] [Hin Hc]].
    cbv zeta in Hc. destruct (Z.ltb_spec (Z.of_nat (List.length (matchedSet a))) minM);
      [contradiction|]. destruct Hc as [<-|[]]. exists a. simpl. repeat split; assumption. }
  split; [|exact Mem]. clear Mem.
  induction l as [|[s a] l IH]; simpl; [constructor|].
  inversion Hl as [|? ? Hn Hnd']; subst.
  destruct (Z.of_nat (List.length (matchedSet a)) <? minM); [exact (IH Hnd')|].
  simpl. constructor; [|exact (IH Hnd')].
  intros Hs. apply in_map_iff in Hs. destruct Hs as [c [Hcs Hc]].
  apply in_flat_map in Hc. destruct Hc as [[s' a'] [Hin Hc]].
  cbv zeta in Hc. destruct (_ <? minM); [contradiction|]. destruct Hc as [<-|[]].
  simpl in Hcs. subst s'. apply Hn. apply in_map_iff. exists (s, a'). split; [reflexivity|exact Hin].
Qed.

(** Every candidate [estimateFromSpectra] returns names a HOSE code of the
    database whose entry has the target nucleus, the candidate's SMILES and
    an average shift within the tolerance of one of the observed peaks; its
    matched-peak count lies between 1 (and [minMatches]) and the number of
    peaks; and no SMILES is returned twice. *)
Theorem estimateFromSpectra_provenance : forall db o,
  let r := fst (estimateFromSpectra db o) in
  NoDup (map csmiles r) /\
  forall c, In c r ->
    1 <= matchedPeaks c <= Z.of_nat (List.length (peaks o)) /\ minMatches o <= matchedPeaks c /\
    exists e, In (chose c, e) db /\ field_str "n" e = nucleusToShort (nucleus o) /\
      field_str "s" e = csmiles c /\
      exists i, 0 <= i < Z.of_nat (List.length (peaks o)) /\
        (Qabs (computeWeightedAvg e - nth (Z.to_nat i) (peaks o) 0) <= tolerance o)%Q.
Proof.
  intros db o r. unfold r, estimateFromSpectra.
  destruct (peaks o) as [|p ps] eqn:Ep; [split; [constructor|intros c []]|].
  rewrite <- Ep. cbn [fst]. unfold js_slice0.
  set (cands := scoreDatabase db (peaks o) (tolerance o) (minMatches o) (nucleusToShort (nucleus o))).
  destruct (scoreDatabase_src db (peaks o) (tolerance o) (minMatches o) (nucleusToShort (nucleus o)))
    as [Hnd Hmem]. fold cands in Hnd, Hmem.
  pose proof (js_sort_perm_any _ cand_neg cands) as Hp.
  split.
  - rewrite <- firstn_map. apply NoDup_firstn_any. refine (Permutation_NoDup _ Hnd).
    apply Permutation_map. symmetry. exact Hp.
  - intros c Hc. apply In_firstn_any in Hc. apply (Permutation_in _ Hp) in Hc.
    destruct (Hmem c Hc) as [a [Ha [Hch [Hm Hmin]]]].
    destruct (proj2 (accumulate_src db (peaks o) (tolerance o) (nucleusToShort (nucleus o)))
                _ _ Ha) as [HL HF].
    destruct (accumulate_ok _ _ _ _ _ _ Ha) as [Hnd' [Hr [Hne _]]].
    split; [|split; [exact Hmin|]].
    + rewrite Hm. split; [destruct (matchedSet a); [contradiction|simpl; lia]|].
      apply nodup_range_length; [lia|assumption|assumption].
    + rewrite Hch. destruct (hoses a) as [|h hs] eqn:Eh.
      * simpl in HL. destruct (matchedSet a); [contradiction|discriminate].
      * inversion HF as [|? ? Hh _]; subst. exact Hh.
Qed.

(** ** Exact and fallback lookup *)

Lemma sublist_app_r : forall A (l l' x : list A), sublist l l' -> sublist l (x ++ l').
Proof. intros A l l' x H. induction x as [|y x IH]; simpl; [exact H|]. apply sublist_skip. exact IH. Qed.

Lemma sublist_refl : forall A (l : list A), sublist l l.
Proof. intros A l. induction l; constructor; assumption. Qed.

Lemma resolve_exact : forall q hose h, q hose = Some h -> resolve q hose = ([hose], Some (hose, h)).
Proof. intros q hose h E. unfold resolve. rewrite E. reflexivity. Qed.

(** With the same store, the sharded module's [lookupNmrShifts] returns
    every result the exact-match (CommonJS) module returns, in the same
    order, and the two agree when every exact query hits.  Its results
    correspond one to one, in input order, to the input entries whose
    resolution finds a key: each result carries its entry's atom label,
    the resolved key, and the shift and SMILES of that key's hit. *)
Theorem lookup_fallback_extends_exact : forall q codes,
  sublist (lookup_codes_exact q codes) (lookup_codes q codes) /\
  ((forall e, In e codes -> q (ehose e) <> None) ->
   lookup_codes_exact q codes = lookup_codes q codes) /\
  Forall2 (fun e r => exists h, snd (resolve q (ehose e)) = Some (rhose r, h) /\
                                r = mkResult (avgShift h) (eatom e) (rhose r) (hsmiles h))
          (filter (fun e => match snd (resolve q (ehose e)) with Some _ => true | None => false end)
                  codes)
          (lookup_codes q codes).
Proof.
  intros q codes. induction codes as [|e codes [IH1 [IH2 IH3]]].
  - split; [constructor|]. split; [reflexivity|constructor].
  - unfold lookup_codes_exact, lookup_codes in *. simpl flat_map.
    split; [|split].
    + destruct (q (ehose e)) as [h|] eqn:E.
      * rewrite (resolve_exact q (ehose e) h E). simpl. apply sublist_keep. exact IH1.
      * apply sublist_app_r. exact IH1.
    + intros Hall. destruct (q (ehose e)) as [h|] eqn:E.
      * rewrite (resolve_exact q (ehose e) h E). simpl. f_equal.
        apply IH2. intros e' He'. apply Hall. right. exact He'.
      * exfalso. apply (Hall e); [left; reflexivity|exact E].
    + cbn [filter]. destruct (snd (resolve q (ehose e))) as [[k h]|] eqn:E; cbn [app].
      * constructor; [|exact IH3]. exists h. split; [exact E|reflexivity].
      * exact IH3.
Qed.

Lemma lookup_fallback_extends_exact_witness :
  let q := fun _ : string => Some (mkHit 20 "CC" "C") in
  let codes := [mkHoseEntry "C" 0 "C-4;"; mkHoseEntry "C" 1 "C-4;"] in
  lookup_codes_exact q codes = lookup_codes q codes.
Proof.
  intros q codes. apply (proj1 (proj2 (lookup_fallback_extends_exact q codes))).
  intros e _. discriminate.
Defined.

(** ** Plot helpers *)

Open Scope Q_scope.

Lemma js_div_fin : forall x y, ~ y == 0 -> js_div x y = Fin (x / y).
Proof.
  intros x y H. unfold js_div. destruct (Qeq_bool y 0) eqn:E; [|reflexivity].
  apply Qeq_bool_iff in E. contradiction.
Qed.

Lemma js_div_zero_not_fin : forall x y q, y == 0 -> js_div x y <> Fin q.
Proof.
  intros x y q H. unfold js_div. replace (Qeq_bool y 0) with true by (symmetry; apply Qeq_bool_iff; exact H).
  destruct (Qeq_bool x 0); [discriminate|]. destruct (Qlt_bool 0 x); discriminate.
Qed.

(** [ppmToX] maps [ppmMax] to the left margin and [ppmMin] to the right
    end of the plot, every ppm value to a finite coordinate, and a larger
    ppm value never further right than a smaller one when the plot width
    is not negative. *)
Theorem ppmToX_range : forall ppmMin ppmMax plotW marginLeft, ppmMin < ppmMax ->
  (exists x, ppmToX ppmMax ppmMin ppmMax plotW marginLeft = Fin x /\ x == marginLeft) /\
  (exists x, ppmToX ppmMin ppmMin ppmMax plotW marginLeft = Fin x /\ x == marginLeft + plotW) /\
  (forall ppm, exists x, ppmToX ppm ppmMin ppmMax plotW marginLeft = Fin x) /\
  (0 <= plotW -> forall p1 p2, p1 <= p2 -> exists x1 x2,
     ppmToX p1 ppmMin ppmMax plotW marginLeft = Fin x1 /\
     ppmToX p2 ppmMin ppmMax plotW marginLeft = Fin x2 /\ x2 <= x1).
Proof.
  intros ppmMin ppmMax plotW marginLeft H.
  assert (Hd : ~ ppmMax - ppmMin == 0) by lra.
  assert (Hp : 0 < ppmMax - ppmMin) by lra.
  unfold ppmToX. split; [|split; [|split]]; try intros; rewrite ?js_div_fin by exact Hd;
    cbn [num_mul num_add_from].
  - eexists. split; [reflexivity|].
    setoid_replace (ppmMax - ppmMax) with 0 by ring. unfold Qdiv. ring.
  - eexists. split; [reflexivity|].
    setoid_replace ((ppmMax - ppmMin) / (ppmMax - ppmMin)) with 1 by (field; exact Hd). ring.
  - eexists. reflexivity.
  - do 2 eexists. split; [reflexivity|]. split; [reflexivity|].
    apply Qplus_le_r. apply Qmult_le_compat_r; [|assumption].
    apply Qmult_le_compat_r; [lra|]. apply Qlt_le_weak, Qinv_lt_0_compat. exact Hp.
Qed.

(** With [ppmMin = ppmMax], [ppmToX] never returns a finite coordinate
    (it divides by zero). *)
Theorem ppmToX_degenerate : forall ppm p plotW marginLeft x,
  ppmToX ppm p p plotW marginLeft <> Fin x.
Proof.
  intros ppm p plotW marginLeft x. unfold ppmToX.
  destruct (js_div (p - ppm) (p - p)) as [q| | |] eqn:E.
  - exfalso. refine (js_div_zero_not_fin _ _ q _ E). ring.
  - discriminate.
  - simpl. destruct (Qlt_bool 0 plotW); [discriminate|]. destruct (Qlt_bool plotW 0); discriminate.
  - simpl. destruct (Qlt_bool 0 plotW); [discriminate|]. destruct (Qlt_bool plotW 0); discriminate.
Qed.

Lemma lorentz_bounds : forall g2 p s, 0 < g2 ->
  exists v, lorentz g2 (Fin p) s = Fin v /\ 0 < v <= 1.
Proof.
  intros g2 p s Hg. unfold lorentz.
  assert (Hsq : 0 <= (p - s) * (p - s)).
  { destruct (Qlt_le_dec (p - s) 0) as [Hn|Hn].
    - setoid_replace ((p - s) * (p - s)) with ((s - p) * (s - p)) by ring.
      apply Qmult_le_0_compat; lra.
    - apply Qmult_le_0_compat; lra. }
  rewrite js_div_fin by lra. eexists. split; [reflexivity|].
  split.
  - apply Qlt_shift_div_l; lra.
  - apply Qle_shift_div_r; lra.
Qed.

Lemma sum_lorentz_bounds : forall g2 p shifts a, 0 < g2 -> 0 <= a ->
  exists v, fold_left (fun acc s => num_add acc (lorentz g2 (Fin p) s)) shifts (Fin a) = Fin v /\
    a <= v <= a + inject_Z (Z.of_nat (List.length shifts)) /\ (shifts <> [] -> a < v).
Proof.
  intros g2 p shifts. induction shifts as [|s shifts IH]; intros a Hg Ha; cbn [fold_left].
  - exists a. split; [reflexivity|]. split; [|intros []; reflexivity].
    unfold inject_Z. simpl. split; lra.
  - destruct (lorentz_bounds g2 p s Hg) as [w [Ew Hw]]. rewrite Ew. simpl.
    destruct (IH (a + w) Hg ltac:(lra)) as [v [Ev [Hv1 Hv2]]].
    exists v. split; [exact Ev|].
    change (List.length (s :: shifts)) with (S (List.length shifts)).
    rewrite Zpos_P_of_succ_nat, <- Z.add_1_r, inject_Z_plus. change (inject_Z 1) with 1.
    split; [lra|]. intros _. lra.
Qed.

(** With at least two pixel columns and a non-zero [gamma],
    [buildIntensityCurve] returns one finite intensity per column, each
    between 0 and the number of shifts (each Lorentzian contributes a value
    in (0, 1]), and positive when there is a shift. *)
Theorem buildIntensityCurve_bounds : forall shifts numPoints ppmMin ppmMax gamma,
  (2 <= numPoints)%nat -> ~ gamma == 0 ->
  List.length (buildIntensityCurve shifts numPoints ppmMin ppmMax gamma) = numPoints /\
  Forall (fun y => exists v, y = Fin v /\ 0 <= v <= inject_Z (Z.of_nat (List.length shifts)) /\
                             (shifts <> [] -> 0 < v))
         (buildIntensityCurve shifts numPoints ppmMin ppmMax gamma).
Proof.
  intros shifts numPoints ppmMin ppmMax gamma Hn Hg.
  unfold buildIntensityCurve. split; [rewrite length_map, length_seq; reflexivity|].
  apply Forall_forall. intros y Hy. apply in_map_iff in Hy. destruct Hy as [i [<- Hi]].
  assert (Hd : ~ inject_Z (Z.of_nat numPoints - 1) == 0)
    by (unfold Qeq; simpl; lia).
  assert (Hg2 : 0 < gamma * gamma).
  { destruct (Qlt_le_dec gamma 0) as [Hl|Hl].
    - setoid_replace (gamma * gamma) with ((- gamma) * (- gamma)) by ring.
      apply Qmult_lt_0_compat; lra.
    - assert (0 < gamma) by (apply Qle_lteq in Hl; destruct Hl as [Hl|Hl]; [exact Hl|];
                               exfalso; apply Hg; rewrite Hl; reflexivity).
      apply Qmult_lt_0_compat; lra. }
  rewrite js_div_fin by exact Hd. cbn [num_mul num_sub_from].
  destruct (sum_lorentz_bounds (gamma * gamma)
              (ppmMax - inject_Z (Z.of_nat i) / inject_Z (Z.of_nat numPoints - 1) * (ppmMax - ppmMin))
              shifts 0 Hg2 (Qle_refl 0)) as [v [Ev [Hv1 Hv2]]].
  exists v. split; [exact Ev|]. split; [lra|exact Hv2].
Qed.

(** With a single pixel column, [i / (numPoints - 1)] is [0 / 0]: the
    column's ppm and, when there is a shift, its intensity are [NaN]. *)
Theorem buildIntensityCurve_single_column : forall shifts ppmMin ppmMax gamma,
  shifts <> [] -> buildIntensityCurve shifts 1 ppmMin ppmMax gamma = [NaN].
Proof.
  intros shifts ppmMin ppmMax gamma Hs. destruct shifts as [|s shifts]; [contradiction|].
  unfold buildIntensityCurve. simpl. unfold js_div.
  replace (Qeq_bool (inject_Z (1 - 1)) 0) with true by reflexivity.
  replace (Qeq_bool (inject_Z 0) 0) with true by reflexivity. simpl.
  f_equal. clear Hs. induction shifts as [|s' shifts IH]; [reflexivity|]. exact IH.
Qed.

Lemma ppmToX_range_witness :
  (exists x, ppmToX 10 0 10 800 20 = Fin x /\ x == 20) /\
  (exists x1 x2, ppmToX 2 0 10 800 20 = Fin x1 /\ ppmToX 5 0 10 800 20 = Fin x2 /\ x2 <= x1).
Proof.
  split.
  - exact (proj1 (ppmToX_range 0 10 800 20 ltac:(reflexivity))).
  - exact (proj2 (proj2 (proj2 (ppmToX_range 0 10 800 20 ltac:(reflexivity)))) ltac:(lra) 2 5
             ltac:(lra)).
Defined.

Lemma buildIntensityCurve_bounds_witness :
  Forall (fun y => exists v, y = Fin v /\ 0 <= v <= inject_Z (Z.of_nat 1) /\ ([110] <> [] -> 0 < v))
         (buildIntensityCurve [110] 3 0 200 1).
Proof.
  exact (proj2 (buildIntensityCurve_bounds [110] 3 0 200 1 ltac:(lia)
                  ltac:(intros H; vm_compute in H; discriminate H))).
Defined.

Lemma buildIntensityCurve_single_column_witness :
  buildIntensityCurve [110] 1 0 200 1 = [NaN].
Proof. exact (buildIntensityCurve_single_column [110] 0 200 1 ltac:(discriminate)). Defined.

Open Scope Z_scope.

(** ** Stringscore bubble sort *)

Section BubbleFacts.
Variable gt : nat -> nat -> bool.

Let R (x y : nat) : Prop := gt y x = false.

Lemma bubble_pass_perm : forall rest cur, Permutation (fst (Hose.bubble_pass gt cur rest)) (cur :: rest).
Proof.
  induction rest as [|y rest IH]; intros cur; simpl; [reflexivity|].
  destruct (gt y cur).
  - specialize (IH cur). destruct (Hose.bubble_pass gt cur rest) as [r c]. simpl in *.
    rewrite IH. apply perm_swap.
  - specialize (IH y). destruct (Hose.bubble_pass gt y rest) as [r c]. simpl in *.
    apply perm_skip. exact IH.
Qed.

Lemma bubble_loop_perm : forall fuel l, Permutation (Hose.bubble_loop gt fuel l) l.
Proof.
  induction fuel as [|f IH]; intros l; simpl; [reflexivity|].
  destruct l as [|x r]; simpl; [reflexivity|].
  pose proof (bubble_pass_perm r x) as Hp.
  destruct (Hose.bubble_pass gt x r) as [l' c]. simpl in Hp.
  destruct c; [rewrite IH|]; exact Hp.
Qed.

Lemma bubble_pass_nonempty : forall rest cur, fst (Hose.bubble_pass gt cur rest) <> [].
Proof.
  intros rest cur H. pose proof (Permutation_length (bubble_pass_perm rest cur)) as L.
  rewrite H in L. discriminate.
Qed.

Lemma bubble_pass_sorted : forall s m, Sorted R (m :: s) -> Hose.bubble_pass gt m s = (m :: s, false).
Proof.
  induction s as [|y s IH]; intros m H; simpl; [reflexivity|].
  inversion H as [|? ? Hs Hhd]; subst. inversion Hhd as [|? ? Hr]; subst. unfold R in Hr.
  rewrite Hr. rewrite (IH y Hs). reflexivity.
Qed.

Lemma bubble_pass_unchanged : forall rest cur,
  snd (Hose.bubble_pass gt cur rest) = false ->
  fst (Hose.bubble_pass gt cur rest) = cur :: rest /\ Sorted R (cur :: rest).
Proof.
  induction rest as [|y rest IH]; intros cur; simpl.
  - intros _. split; [reflexivity|repeat constructor].
  - destruct (gt y cur) eqn:E.
    + destruct (Hose.bubble_pass gt cur rest). discriminate.
    + specialize (IH y). destruct (Hose.bubble_pass gt y rest) as [r c]. simpl in *.
      intros Hc. destruct (IH Hc) as [-> Hs]. split; [reflexivity|].
      constructor; [exact Hs|]. constructor. exact E.
Qed.

Lemma last_cons_default : forall (z : nat) r d d', last (z :: r) d = last (z :: r) d'.
Proof.
  intros z r. revert z. induction r as [|w r IH]; intros z d d'; [reflexivity|].
  change (last (w :: r) d = last (w :: r) d'). apply IH.
Qed.

Lemma bubble_pass_app : forall rest cur s,
  let r := fst (Hose.bubble_pass gt cur rest) in
  let m := last r cur in
  Hose.bubble_pass gt cur (rest ++ s)
  = (removelast r ++ fst (Hose.bubble_pass gt m s),
     snd (Hose.bubble_pass gt cur rest) || snd (Hose.bubble_pass gt m s)).
Proof.
  induction rest as [|y rest IH]; intros cur s; simpl.
  - destruct (Hose.bubble_pass gt cur s); reflexivity.
  - destruct (gt y cur) eqn:E.
    + pose proof (IH cur s) as H. pose proof (bubble_pass_nonempty rest cur) as Hne.
      cbv zeta in H. rewrite H.
      destruct (Hose.bubble_pass gt cur rest) as [r c]. simpl in *.
      destruct r as [|z r]; [contradiction|]. reflexivity.
    + pose proof (IH y s) as H. pose proof (bubble_pass_nonempty rest y) as Hne.
      cbv zeta in H. rewrite H.
      destruct (Hose.bubble_pass gt y rest) as [r c]. simpl in *.
      destruct r as [|z r]; [contradiction|]. rewrite (last_cons_default z r cur y). reflexivity.
Qed.

Hypothesis gt_irrefl : forall x, gt x x = false.
Hypothesis gt_trans : forall x y z, gt x y = true -> gt y z = true -> gt x z = true.
Hypothesis gt_neg_trans : forall x y z, gt x z = true -> gt x y = true \/ gt y z = true.

Lemma bubble_pass_last_min : forall rest cur x, In x (cur :: rest) ->
  gt (last (fst (Hose.bubble_pass gt cur rest)) cur) x = false.
Proof.
  induction rest as [|y rest IH]; intros cur x Hx; simpl.
  - destruct Hx as [<-|[]]. apply gt_irrefl.
  - destruct (gt y cur) eqn:E.
    + pose proof (IH cur) as H. pose proof (bubble_pass_nonempty rest cur) as Hne.
      destruct (Hose.bubble_pass gt cur rest) as [r c]. simpl in *.
      destruct r as [|z r]; [contradiction|].
      destruct Hx as [<-|[<-|Hx]].
      * apply H. left. reflexivity.
      * destruct (gt (last (z :: r) cur) y) eqn:F; [|reflexivity].
        pose proof (gt_trans _ _ _ F E) as G. rewrite (H cur (or_introl eq_refl)) in G. discriminate.
      * apply H. right. exact Hx.
    + pose proof (IH y) as H. pose proof (bubble_pass_nonempty rest y) as Hne.
      destruct (Hose.bubble_pass gt y rest) as [r c]. simpl in *.
      destruct r as [|z r]; [contradiction|]. rewrite (last_cons_default z r cur y).
      destruct Hx as [<-|Hx].
      * destruct (gt (last (z :: r) y) cur) eqn:F; [|reflexivity].
        destruct (gt_neg_trans _ y _ F) as [G|G].
        -- rewrite (H y (or_introl eq_refl)) in G. discriminate.
        -- rewrite E in G. discriminate.
      * apply H. exact Hx.
Qed.

Lemma Sorted_app_R : forall p s, Sorted R p -> Sorted R s ->
  (forall x y, In x p -> In y s -> R x y) -> Sorted R (p ++ s).
Proof.
  induction p as [|x p IH]; intros s Hp Hs H; simpl; [exact Hs|].
  inversion Hp as [|? ? Hp' Hhd]; subst. constructor.
  - apply IH; [exact Hp'|exact Hs|]. intros a b Ha Hb. apply H; [right; exact Ha|exact Hb].
  - destruct p as [|z p]; simpl.
    + destruct s as [|y s]; constructor. apply H; left; reflexivity.
    + inversion Hhd; subst. constructor. assumption.
Qed.

Lemma last_in_nonempty : forall (r : list nat) d, r <> [] -> In (last r d) r /\
  r = removelast r ++ [last r d].
Proof.
  intros r d Hr. pose proof (app_removelast_last d Hr) as E. split; [|exact E].
  rewrite E at 2. apply in_or_app. right. left. reflexivity.
Qed.

Lemma bubble_loop_sorted_inv : forall fuel p s, (List.length p < fuel)%nat ->
  Sorted R s -> (forall x y, In x p -> In y s -> R x y) ->
  Sorted R (Hose.bubble_loop gt fuel (p ++ s)).
Proof.
  induction fuel as [|f IH]; intros p s Hf Hs Hinv; [lia|].
  destruct p as [|x p'].
  - simpl. destruct s as [|y s']; simpl; [constructor|].
    rewrite (bubble_pass_sorted s' y Hs). exact Hs.
  - cbn [Hose.bubble_loop app Hose.bubble_once]. rewrite bubble_pass_app. cbv zeta.
    set (r := fst (Hose.bubble_pass gt x p')).
    set (m := last r x).
    assert (Hperm : Permutation r (x :: p')) by apply bubble_pass_perm.
    assert (Hne : r <> []) by apply bubble_pass_nonempty.
    destruct (last_in_nonempty r x Hne) as [Hm Er]. fold m in Hm, Er.
    assert (Hmin : forall z, In z (x :: p') -> gt m z = false) by (intros z Hz; apply bubble_pass_last_min; exact Hz).
    assert (Hms : Sorted R (m :: s)).
    { constructor; [exact Hs|]. destruct s as [|y s']; constructor.
      apply Hinv; [apply (Permutation_in _ Hperm); exact Hm|left; reflexivity]. }
    rewrite (bubble_pass_sorted s m Hms). cbn [fst snd]. rewrite orb_false_r.
    destruct (snd (Hose.bubble_pass gt x p')) eqn:Ec.
    + apply IH.
      * assert (L := Permutation_length Hperm). rewrite Er in L. rewrite length_app in L.
        simpl in L, Hf. lia.
      * exact Hms.
      * intros a b Ha Hb. assert (Ha' : In a (x :: p')).
        { apply (Permutation_in _ Hperm). rewrite Er. apply in_or_app. left. exact Ha. }
        destruct Hb as [<-|Hb]; [exact (Hmin a Ha')|exact (Hinv a b Ha' Hb)].
    + destruct (bubble_pass_unchanged p' x Ec) as [Hr Hsorted]. fold r in Hr.
      replace (removelast r ++ m :: s) with ((removelast r ++ [m]) ++ s)
        by (rewrite <- app_assoc; reflexivity).
      rewrite <- Er, Hr. apply Sorted_app_R; assumption.
Qed.

Lemma bubble_loop_sorted : forall l,
  let res := Hose.bubble_loop gt (S (List.length l)) l in
  Sorted R res /\ Permutation res l /\ Hose.bubble_once gt res = (res, false).
Proof.
  intros l res.
  assert (Hs : Sorted R res).
  { unfold res. rewrite <- (app_nil_r l) at 2. apply bubble_loop_sorted_inv; [lia|constructor|].
    intros x y _ []. }
  split; [exact Hs|]. split; [apply bubble_loop_perm|].
  destruct res as [|x r]; [reflexivity|]. apply bubble_pass_sorted. exact Hs.
Qed.
End BubbleFacts.

Lemma ascii_compare_refl : forall x, Ascii.compare x x = Eq.
Proof. intros x. unfold Ascii.compare. apply N.compare_refl. Qed.

Lemma string_compare_refl : forall a, String.compare a a = Eq.
Proof. induction a as [|x a IH]; simpl; [reflexivity|]. rewrite ascii_compare_refl. exact IH. Qed.

Lemma string_compare_lt_trans : forall a b c,
  String.compare a b = Lt -> String.compare b c = Lt -> String.compare a c = Lt.
Proof.
  induction a as [|x a IH]; intros b c H1 H2; destruct b as [|y b]; destruct c as [|z c];
    simpl in *; try discriminate; try reflexivity.
  destruct (Ascii.compare x y) eqn:E1; try discriminate;
    destruct (Ascii.compare y z) eqn:E2; try discriminate.
  - apply Ascii.compare_eq_iff in E1, E2. subst. rewrite ascii_compare_refl. apply (IH b c H1 H2).
  - apply Ascii.compare_eq_iff in E1. subst. rewrite E2. reflexivity.
  - apply Ascii.compare_eq_iff in E2. subst. rewrite E1. reflexivity.
  - unfold Ascii.compare in *. rewrite N.compare_lt_iff in *.
    replace (N.compare _ _) with Lt by (symmetry; apply N.compare_lt_iff; lia). reflexivity.
Qed.

Lemma js_str_gt_order :
  (forall a, js_str_gt a a = false) /\
  (forall a b c, js_str_gt a b = true -> js_str_gt b c = true -> js_str_gt a c = true) /\
  (forall a b c, js_str_gt a c = true -> js_str_gt a b = true \/ js_str_gt b c = true).
Proof.
  assert (Gt_Lt : forall a b, js_str_gt a b = true <-> String.compare b a = Lt).
  { intros a b. unfold js_str_gt. rewrite (String.compare_antisym a b).
    destruct (String.compare b a); simpl; split; congruence. }
  split; [|split].
  - intros a. unfold js_str_gt. rewrite string_compare_refl. reflexivity.
  - intros a b c H1 H2. apply Gt_Lt in H1, H2. apply Gt_Lt. exact (string_compare_lt_trans _ _ _ H2 H1).
  - intros a b c H. apply Gt_Lt in H.
    destruct (js_str_gt a b) eqn:E1; [left; reflexivity|].
    destruct (js_str_gt b c) eqn:E2; [right; reflexivity|]. exfalso.
    assert (N1 : String.compare b a <> Lt) by (intros F; apply Gt_Lt in F; congruence).
    assert (N2 : String.compare c b <> Lt) by (intros F; apply Gt_Lt in F; congruence).
    rewrite String.compare_antisym in N1, N2.
    destruct (String.compare a b) eqn:F1; simpl in N1; try congruence;
    destruct (String.compare b c) eqn:F2; simpl in N2; try congruence.
    + apply String.compare_eq_iff in F1, F2. subst. rewrite string_compare_refl in H. discriminate.
    + apply String.compare_eq_iff in F1. subst. rewrite String.compare_antisym, F2 in H. discriminate.
    + apply String.compare_eq_iff in F2. subst. rewrite String.compare_antisym, F1 in H. discriminate.
    + pose proof (string_compare_lt_trans _ _ _ F1 F2) as F. rewrite String.compare_antisym, F in H.
      discriminate.
Qed.

(** [sortNodesByStringscore] returns a rearrangement of the sphere in
    non-increasing [stringscore] order (JS string comparison): no node's
    stringscore exceeds its predecessor's, and a further pass of the
    bubble sort would swap nothing, so [S (length sphere)] passes always
    reach the [while (changed)] loop's exit. *)
Theorem sortNodesByStringscore_sorted : forall ar sphere,
  let gt := fun i j => js_str_gt (Hose.stringscore (Hose.get ar i)) (Hose.stringscore (Hose.get ar j)) in
  let res := Hose.sortNodesByStringscore ar sphere in
  Permutation res sphere /\ Sorted (fun i j => gt j i = false) res /\
  Hose.bubble_once gt res = (res, false).
Proof.
  intros ar sphere gt res. destruct js_str_gt_order as [O1 [O2 O3]].
  destruct (bubble_loop_sorted gt (fun x => O1 _) (fun x y z => O2 _ _ _) (fun x y z => O3 _ _ _) sphere)
    as [A [B C]].
  split; [exact B|]. split; [exact A|exact C].
Qed.

(** ** Canonical ranking *)
Lemma ranks_length : forall l prev num, List.length (Canon.ranks prev num l) = List.length l.
Proof. induction l as [|p l IH]; intros prev num; simpl; [reflexivity|]. rewrite IH. reflexivity. Qed.

Lemma ranks_bounds : forall l prev num,
  Forall (fun t => num <= t <= num + Z.of_nat (List.length l) - (match prev with Some _ => 0 | None => 1 end))
         (Canon.ranks prev num l).
Proof.
  induction l as [|p l IH]; intros prev num; simpl; [constructor|].
  set (num' := match prev with
               | Some q => if negb (Canon.curr p =? Canon.curr q) || negb (Canon.last p =? Canon.last q)
                           then num + 1 else num
               | None => num end).
  assert (Hn : num <= num' <= num + match prev with Some _ => 1 | None => 0 end)
    by (unfold num'; destruct prev; [destruct (_ || _)|]; lia).
  constructor.
  - destruct prev; lia.
  - eapply Forall_impl; [|apply (IH (Some p) num')]. intros t Ht. simpl in Ht. destruct prev; lia.
Qed.

Lemma ranks_steps : forall l prev num,
  Sorted (fun a b => b = a \/ b = a + 1) (Canon.ranks prev num l).
Proof.
  induction l as [|p l IH]; intros prev num; simpl; [constructor|].
  constructor; [apply IH|].
  destruct l as [|p' l]; simpl; constructor.
  destruct (_ || _); [right|left]; reflexivity.
Qed.

Lemma ranks_head : forall p l, Canon.ranks None 1 (p :: l) = 1 :: Canon.ranks (Some p) 1 l.
Proof. reflexivity. Qed.

Lemma map_combine_fst : forall (A B C : Type) (f : A -> C) (l1 : list A) (l2 : list B),
  List.length l1 = List.length l2 -> map (fun pt => f (fst pt)) (combine l1 l2) = map f l1.
Proof.
  intros A B C f l1. induction l1 as [|x l1 IH]; intros [|y l2] H; simpl in *; try discriminate; [reflexivity|].
  f_equal. apply IH. lia.
Qed.

Lemma map_combine_snd : forall (A B C : Type) (f : B -> C) (l1 : list A) (l2 : list B),
  List.length l1 = List.length l2 -> map (fun pt => f (snd pt)) (combine l1 l2) = map f l2.
Proof.
  intros A B C f l1. induction l1 as [|x l1 IH]; intros [|y l2] H; simpl in *; try discriminate; [reflexivity|].
  f_equal. apply IH. lia.
Qed.

Lemma Sorted_map_iff : forall (A B : Type) (f : A -> B) (R : B -> B -> Prop) l,
  Sorted R (map f l) -> Sorted (fun a b => R (f a) (f b)) l.
Proof.
  intros A B f R l. induction l as [|x l IH]; simpl; intros H; [constructor|].
  inversion H as [|? ? Hs Hhd]; subst. constructor; [apply IH; exact Hs|].
  destruct l as [|y l]; constructor. simpl in Hhd. inversion Hhd. assumption.
Qed.

Lemma canonSortAndRank_spec : forall pairs,
  let out := Canon.canonSortAndRank pairs in
  Permutation (map Canon.idx out) (map Canon.idx pairs) /\
  Permutation (map Canon.last out) (map Canon.last pairs) /\
  (forall p, In p out -> 1 <= Canon.curr p <= Z.of_nat (List.length pairs) /\
                         Canon.prime p = Canon.prime_at (Canon.curr p - 1)) /\
  (forall p rest, out = p :: rest -> Canon.curr p = 1) /\
  Sorted (fun a b => Canon.curr b = Canon.curr a \/ Canon.curr b = Canon.curr a + 1) out.
Proof.
  intros pairs out. unfold out, Canon.canonSortAndRank.
  set (s1 := js_sort _ pairs). set (s2 := js_sort _ s1).
  assert (Hp : Permutation s2 pairs).
  { unfold s2, s1. rewrite js_sort_perm_any. apply js_sort_perm_any. }
  set (rs := Canon.ranks None 1 s2).
  assert (HL : List.length s2 = List.length rs) by (unfold rs; rewrite ranks_length; reflexivity).
  set (g := fun pt : Canon.pair * Z => let '(p, t) := pt in
              Canon.mkPair (Canon.idx p) t (Canon.last p) (Canon.prime_at (t - 1))).
  change (map (fun '(p, t) => _) (combine s2 rs)) with (map g (combine s2 rs)).
  assert (Eg : forall pt, g pt = Canon.mkPair (Canon.idx (fst pt)) (snd pt) (Canon.last (fst pt))
                                     (Canon.prime_at (snd pt - 1))) by (intros [p t]; reflexivity).
  assert (Ecurr : map Canon.curr (map g (combine s2 rs)) = rs).
  { rewrite map_map. rewrite (map_ext _ (fun pt => (fun t => t) (snd pt))) by (intros pt; rewrite Eg; reflexivity).
    rewrite (map_combine_snd _ _ _ (fun t => t)) by exact HL. apply map_id. }
  split; [|split; [|split; [|split]]].
  - rewrite map_map. rewrite (map_ext _ (fun pt => Canon.idx (fst pt))) by (intros pt; rewrite Eg; reflexivity).
    rewrite map_combine_fst by exact HL. apply Permutation_map. exact Hp.
  - rewrite map_map. rewrite (map_ext _ (fun pt => Canon.last (fst pt))) by (intros pt; rewrite Eg; reflexivity).
    rewrite map_combine_fst by exact HL. apply Permutation_map. exact Hp.
  - intros p Hin. split.
    + assert (Hr : In (Canon.curr p) rs) by (rewrite <- Ecurr; apply in_map; exact Hin).
      pose proof (ranks_bounds s2 None 1) as B. fold rs in B. rewrite Forall_forall in B.
      specialize (B _ Hr). rewrite (Permutation_length Hp) in B. lia.
    + apply in_map_iff in Hin. destruct Hin as [pt [<- _]]. rewrite Eg. reflexivity.
  - intros p rest E. assert (E' := f_equal (map Canon.curr) E). rewrite Ecurr in E'.
    unfold rs in E'. destruct s2 as [|q s2']; [discriminate|].
    rewrite ranks_head in E'. simpl in E'. injection E' as <- _. reflexivity.
  - apply Sorted_map_iff with (R := fun a b => b = a \/ b = a + 1). rewrite Ecurr. apply ranks_steps.
Qed.


Lemma update_nth_map_idx : forall n (f : Canon.pair -> Canon.pair) l,
  (forall p, Canon.idx (f p) = Canon.idx p) ->
  map Canon.idx (update_nth n f l) = map Canon.idx l.
Proof.
  intros n f l Hf. revert n. induction l as [|p l IH]; intros [|n]; simpl; try reflexivity.
  - rewrite Hf. reflexivity.
  - rewrite IH. reflexivity.
Qed.

Lemma update_nth_forall : forall A (P : A -> Prop) n f l,
  (forall x, P x -> P (f x)) -> Forall P l -> Forall P (update_nth n f l).
Proof.
  intros A P n f l Hf Hl. revert n. induction Hl as [|x l Hx Hl IH]; intros [|n]; simpl;
    constructor; auto.
Qed.


Lemma update_nth_forall2 : forall A (P Q : A -> Prop) n f l,
  (forall x, P x -> Q (f x)) -> (forall x, P x -> Q x) -> Forall P l -> Forall Q (update_nth n f l).
Proof.
  intros A P Q n f l Hf Hq Hl. revert n. induction Hl as [|x l Hx Hl IH]; intros [|n]; simpl.
  - constructor.
  - constructor.
  - constructor; [apply Hf; exact Hx|]. apply Forall_impl with (P := P); [exact Hq|exact Hl].
  - constructor; [apply Hq; exact Hx|apply IH].
Qed.

Lemma canon_round_inv : forall n m pairs, labels_inv n pairs ->
  labels_inv n (Canon.canonSortAndRank (Canon.refine_products m pairs)).
Proof.
  intros n m pairs [Hp Hc].
  destruct (canonSortAndRank_spec (Canon.refine_products m pairs)) as [A1 [_ [A3 _]]].
  split.
  - rewrite A1. unfold Canon.refine_products. rewrite map_map. simpl. exact Hp.
  - apply Forall_forall. intros p Hin. apply (A3 p Hin).
Qed.

Lemma canonBreakTies_inv : forall n pairs, labels_inv n pairs -> labels_inv n (Canon.canonBreakTies pairs).
Proof.
  intros n pairs [Hp Hc]. unfold Canon.canonBreakTies.
  pose proof (double_loop_fst pairs 0 None (-1) false) as E.
  destruct (Canon.double_loop 0 None (-1) false pairs) as [doubled tie]. simpl in E. unfold double_pair in E. subst doubled.
  assert (Hd : Forall (fun p => 2 <= Canon.curr p)
                 (map (fun p => Canon.mkPair (Canon.idx p) (Canon.curr p * 2) (Canon.last p)
                                  (Canon.prime_at (Canon.curr p * 2 - 1))) pairs)).
  { apply Forall_map. refine (Forall_impl _ _ Hc). intros p Hp'. simpl. lia. }
  assert (Hi : map Canon.idx (map (fun p => Canon.mkPair (Canon.idx p) (Canon.curr p * 2) (Canon.last p)
                                  (Canon.prime_at (Canon.curr p * 2 - 1))) pairs) = map Canon.idx pairs)
    by (rewrite map_map; reflexivity).
  destruct (0 <=? tie).
  - split.
    + rewrite update_nth_map_idx by reflexivity. rewrite Hi. exact Hp.
    + apply (update_nth_forall2 _ (fun p => 2 <= Canon.curr p)); [| |exact Hd]; intros x Hx; simpl; lia.
  - split; [rewrite Hi; exact Hp|]. refine (Forall_impl _ _ Hd). intros x Hx. lia.
Qed.

Lemma canon_loop_inv : forall fuel n m pairs, labels_inv n pairs ->
  labels_inv n (fst (Canon.canon_loop fuel m pairs)).
Proof.
  induction fuel as [|f IH]; intros n m pairs H; simpl; [exact H|].
  pose proof (canon_round_inv n m pairs H) as H1.
  destruct (Canon.canonIsInvPart _); [destruct (_ <? _)|].
  - pose proof (IH n m _ (canonBreakTies_inv n _ H1)) as H2.
    destruct (Canon.canon_loop f m _) as [r k]. exact H2.
  - exact H1.
  - pose proof (IH n m _ H1) as H2. destruct (Canon.canon_loop f m _) as [r k]. exact H2.
Qed.

(** [computeCanonicalLabels] returns one label per atom, and every label
    is at least 1: each atom index is found among the refined pairs, so
    the [0] fallback of the lookup never applies. *)
Theorem computeCanonicalLabels_total : forall m,
  List.length (Canon.computeCanonicalLabels m) = Z.to_nat (getAllAtoms m) /\
  Forall (fun l => 1 <= l) (Canon.computeCanonicalLabels m).
Proof.
  intros m. unfold Canon.computeCanonicalLabels.
  destruct (Z.eqb_spec (getAllAtoms m) 0) as [E|E].
  - rewrite E. split; [reflexivity|constructor].
  - set (n := getAllAtoms m) in *.
    set (pairs0 := Canon.canonSortAndRank (map (Canon.initial_pair m) (zrange 0 n))).
    assert (H0 : labels_inv n pairs0).
    { destruct (canonSortAndRank_spec (map (Canon.initial_pair m) (zrange 0 n))) as [A1 [_ [A3 _]]].
      split.
      - fold pairs0 in A1. rewrite A1, map_map. simpl. rewrite map_id. reflexivity.
      - apply Forall_forall. intros p Hin. apply (A3 p Hin). }
    destruct (canon_loop_inv 100 n m pairs0 H0) as [Hp Hc].
    set (pairs := fst (Canon.canon_loop 100 m pairs0)) in *.
    split.
    + rewrite length_map. unfold zrange. rewrite length_map, length_seq. lia.
    + apply Forall_forall. intros l Hl. apply in_map_iff in Hl. destruct Hl as [i [<- Hi]].
      destruct (find (fun p => Canon.idx p =? i) pairs) as [p|] eqn:F.
      * apply find_some in F. destruct F as [Fin _]. rewrite Forall_forall in Hc. exact (Hc p Fin).
      * exfalso. apply (Permutation_in _ (Permutation_sym Hp)) in Hi. apply in_map_iff in Hi.
        destruct Hi as [p [Ep Hp']]. pose proof (find_none _ _ F p Hp') as G. simpl in G.
        rewrite Ep, Z.eqb_refl in G. discriminate.
Qed.

(** [canonSortAndRank] keeps every atom index and every [last] value
    (rearranged), and replaces [curr] by dense ranks: the first is 1,
    each next one equals its predecessor or exceeds it by 1, none exceeds
    the number of atoms, and each [prime] is the prime of its rank. *)
Theorem canonSortAndRank_ranks : forall pairs,
  let out := Canon.canonSortAndRank pairs in
  Permutation (map Canon.idx out) (map Canon.idx pairs) /\
  Permutation (map Canon.last out) (map Canon.last pairs) /\
  (forall p, In p out -> 1 <= Canon.curr p <= Z.of_nat (List.length pairs) /\
                         Canon.prime p = Canon.prime_at (Canon.curr p - 1)) /\
  (forall p rest, out = p :: rest -> Canon.curr p = 1) /\
  Sorted (fun a b => Canon.curr b = Canon.curr a \/ Canon.curr b = Canon.curr a + 1) out.
Proof. intros pairs. exact (canonSortAndRank_spec pairs). Qed.
